(** * Live schema migration coordinator

    A shallow embedding of [src/coordinator/server.ts],
    [src/coordinator/migration-executor.ts], [src/types/index.ts],
    [src/client/app-client.ts] and of the [try] statement of [src/demo.ts].

    The coordinator is a single-threaded Node process: every handler runs to
    completion, and the only places where other handlers can run are the
    [await]s of [startMigration].  A run of [startMigration] is therefore a
    deterministic function of the coordinator state and of what the
    environment does while the coordinator is suspended: the socket events
    that arrive between two firings of the polling interval, and the answers
    of the database.

    Real time is abstracted by this schedule: a wait is given, for each
    firing of its 100 ms interval, the events that arrived since the
    previous firing (none where the schedule lists nothing), and the events
    that arrive between the last firing and the timeout.  The timeout is
    created before the interval, so of a timeout and a firing due at the
    same time the timeout comes first: a firing precedes the timeout only
    if it is due strictly earlier.  The clock is the ideal one: a timer
    fires when it is due. *)

From Stdlib Require Import ZArith List Bool Lia.
From stdpp Require Import base option gmap strings list fin_maps fin_sets.

Open Scope string_scope.

(** ** Enumerations of [src/types/index.ts] *)

Module Phase.
Inductive t := ANNOUNCE | EXECUTE | APPLY | CONFIRM | ROLLBACK.

Definition to_nat (p : t) : nat :=
  match p with
  | ANNOUNCE => 0 | EXECUTE => 1 | APPLY => 2 | CONFIRM => 3 | ROLLBACK => 4
  end.

Definition of_nat (n : nat) : option t :=
  match n with
  | 0 => Some ANNOUNCE | 1 => Some EXECUTE | 2 => Some APPLY
  | 3 => Some CONFIRM | 4 => Some ROLLBACK | _ => None
  end.
End Phase.

Module MigrationStatus.
Inductive t := PENDING | ANNOUNCING | EXECUTING | APPLYING | COMPLETED | FAILED.
End MigrationStatus.

(** The optional [status] of a [PhaseMessage]. *)
Module ExecStatus.
Inductive t := RUNNING | COMPLETED | FAILED.
End ExecStatus.

(** The [status] of an [AckMessage]. *)
Module AckStatus.
Inductive t := ACKNOWLEDGED | ERROR.
End AckStatus.

(** [readyState] of a [ws] socket. *)
Module ReadyState.
Inductive t := CONNECTING | OPEN | CLOSING | CLOSED.

Definition is_open (r : t) : bool :=
  match r with OPEN => true | _ => false end.
End ReadyState.

#[global] Instance Phase_eq_dec : EqDecision Phase.t.
Proof. solve_decision. Defined.

#[global] Instance Phase_countable : Countable Phase.t.
Proof.
  apply (inj_countable Phase.to_nat Phase.of_nat).
  intros []; reflexivity.
Defined.

#[global] Instance MigrationStatus_eq_dec : EqDecision MigrationStatus.t.
Proof. solve_decision. Defined.

(** ** Records of [src/types/index.ts] *)

(** [Date] values, as milliseconds. *)
Definition Date := Z.

Record Migration := {
  id : string;
  name : string;
  sql : list string;
  status : MigrationStatus.t;
  completedAt : option Date;
  startedAt : Date;
}.

Record AckMessage := {
  ack_phase : Phase.t;
  ack_status : AckStatus.t;
  ack_appId : string;
  ack_error : option string;
}.

Record PhaseMessage := {
  msg_phase : Phase.t;
  msg_migrationId : string;
  msg_status : option ExecStatus.t;
  msg_timestamp : Date;
}.

(** What the coordinator writes on a socket: the welcome object of
    [handleConnection] or a phase message. *)
Inductive Wire :=
| WELCOME (appId : string)
| PhaseMsg (m : PhaseMessage).

(** ** Values that are thrown or rejected *)

Inductive Thrown :=
| DbError (detail : string)
    (** raised by [pool.connect] or [client.query] *)
| Timeout (ackCount totalApps : nat) (phase : Phase.t)
    (** the string [waitForAcknowledgments] rejects with:
        "Timeout: Only ackCount/totalApps apps acknowledged phase" *)
| TypeError.
    (** a property read or written on [null] *)

(** The argument of [rollback]. *)
Inductive Reason :=
| ExecutionFailed (error : option Thrown)
    (** "Migration execution failed: " followed by [result.error] *)
| Caught (error : Thrown).
    (** the value caught by the [catch] of [startMigration] *)

(** ** The console *)

Inductive LogLine :=
| LogAppConn (appId : string) (total : nat)
| LogAppDisc
| LogAllAck (totalApps : nat) (phase : Phase.t)
| LogNotOpen
| LogBroadcasting (phase : Phase.t) (st : option ExecStatus.t)
| LogRollingBack (reason : Reason)
| LogStarting (name : string)
| LogCompleted (name : string)
| LogStartingMigrations
| LogExecuting (query : string).

(** ** The database boundary

    [pg] is an external library.  Its client is modelled as the
    transactional interface the executor relies on.  What the executor sends
    with [client.query] is one of its own three texts, ["BEGIN"], ["COMMIT"]
    and ["ROLLBACK"], or the text of a statement of the migration, sent as
    it is.  The database reads the text of a statement either as
    transaction control, which it executes as such, or as an ordinary
    statement, which it interprets with [run_stmt] on the working copy of
    the open transaction. *)

Module Sql.
(** What the executor sends. *)
Inductive command :=
| BEGIN
| COMMIT
| ROLLBACK
| Stmt (text : string).

(** Transaction control, as the database reads it. *)
Inductive control :=
| Begin
| Commit
| Rollback.
End Sql.

(** The return value of [executeMigrations]. *)
Record ExecResult := {
  success : bool;
  error : option Thrown;
}.

(** What happens on the sockets while the coordinator is suspended.  The
    ['message'] listener of [handleConnection] calls [JSON.parse] on the
    frame without a guard: a frame that is not JSON, or whose value has no
    property [phase] to read, throws inside the listener and ends the
    Node process, after which nothing runs.  [EvMessage] stands for the
    frames that parse to an acknowledgment; the schedules of this
    development hold no other frame. *)
Inductive Event :=
| EvConnection (appId : string)
    (** a socket is accepted and [uuidv4()] yields [appId] *)
| EvReadyState (appId : string) (r : ReadyState.t)
    (** the [readyState] of a registered socket changes *)
| EvMessage (appId : string) (message : AckMessage)
    (** ['message'] on the socket registered as [appId] *)
| EvClose (appId : string).
    (** ['close'] on the socket registered as [appId] *)

(** Events that are not the arrival of a new participant. *)
Definition is_connection (ev : Event) : bool :=
  match ev with EvConnection _ => true | _ => false end.

Definition no_connection (evs : list Event) : bool :=
  forallb (fun ev => negb (is_connection ev)) evs.

Definition no_connections (slots : list (list Event)) : bool :=
  forallb no_connection slots.

(** What happens during one call of [waitForAcknowledgments]: the events
    that arrive before each firing of the interval, in order, and the events
    that arrive after the last firing and before the timeout fires.  The
    batches listed beyond the last firing that precedes the timeout arrive
    before the timeout too. *)
Record WaitSchedule := {
  polls : list (list Event);
  rest : list Event;
}.

(** Faults of the database connection: [pool.connect] can fail, and the
    [n]-th query sent on the session can fail before reaching the server. *)
Record DbFaults := {
  connect_fault : option string;
  query_fault : nat -> option string;
}.

Definition no_faults : DbFaults :=
  {| connect_fault := None; query_fault := fun _ => None |}.

(** The environment of one run of [startMigration]. *)
Record Run := {
  announce_wait : WaitSchedule;
  exec_events : list Event;
  faults : DbFaults;
  apply_wait : WaitSchedule;
}.

(** ** Outcomes and the coordinator monad *)

Inductive Outcome (A : Type) :=
| Ret (a : A)
| Throw (e : Thrown).
Arguments Ret {A} a.
Arguments Throw {A} e.

Definition returned {A} (o : Outcome A) : bool :=
  match o with Ret _ => true | Throw _ => false end.

Section Coordinator.

Context {DB : Type}.

(** The effect of one statement on a database state: the new state, or the
    detail of the error. *)
Variable run_stmt : string -> DB -> DB + string.

(** How the database reads the text of a statement: as transaction control
    ([Some]), or as an ordinary statement ([None]), which runs inside the
    open transaction and neither ends nor begins one.  A text that the
    database reads in yet another way (several commands in one text,
    savepoints) is not an ordinary statement; what it does is not
    modelled. *)
Variable control : string -> option Sql.control.

Inductive TxState :=
| Idle
| InTx (work : DB)
| Aborted.

(** The database as seen through the pool of the executor: what is
    committed, the state of the transaction of the session, the commands
    sent with [client.query] so far (oldest first), the number of calls of
    [pool.connect] so far, and the number of clients acquired and not yet
    released. *)
Record Database := {
  committed : DB;
  tx : TxState;
  history : list Sql.command;
  connects : nat;
  leased : nat;
}.

(** The fields of [CoordinatorServer], with the console, the clock, what
    was written on the sockets and the database.  [apps] keeps of each
    socket its [readyState], the only thing the coordinator reads of it.
    [now] is what [new Date()] returns; the model lets it advance at the
    firings of the polling interval and at the timeouts of the waits
    only.  [phaseTimeout] is never read or
    written after the constructor and is left out. *)
Record State := {
  apps : gmap string ReadyState.t;
  currentMigration : option Migration;
  acknowledgments : gmap Phase.t (gset string);
  sent : list (string * Wire);
  console : list LogLine;
  now : Date;
  pool : Database;
}.

Definition M (A : Type) : Type := State -> Outcome A * State.

Definition ret {A} (a : A) : M A := fun s => (Ret a, s).

Definition bind {A B} (m : M A) (k : A -> M B) : M B :=
  fun s =>
    match m s with
    | (Ret a, s') => k a s'
    | (Throw e, s') => (Throw e, s')
    end.

(** [try { body } catch (e) { handler e }] *)
Definition try_catch {A} (body : M A) (handler : Thrown -> M A) : M A :=
  fun s =>
    match body s with
    | (Ret a, s') => (Ret a, s')
    | (Throw e, s') => handler e s'
    end.

(** [try { body } finally { cleanup }] *)
Definition try_finally {A} (body : M A) (cleanup : M unit) : M A :=
  fun s =>
    match body s with
    | (r, s') =>
        match cleanup s' with
        | (Ret _, s'') => (r, s'')
        | (Throw e, s'') => (Throw e, s'')
        end
    end.

(** A statement that cannot throw. *)
Definition effect (f : State -> State) : M unit := fun s => (Ret tt, f s).

Definition seq {A} (m : M unit) (k : M A) : M A := bind m (fun _ => k).

Fixpoint for_each {A} (l : list A) (body : A -> M unit) : M unit :=
  match l with
  | [] => ret tt
  | x :: l' => seq (body x) (for_each l' body)
  end.

Declare Scope js_scope.
Delimit Scope js_scope with js.
Notation "'let!' x ':=' m 'in' k" := (bind m (fun x => k))
  (at level 10, x name, m at level 100, k at level 200) : js_scope.
Notation "m '>>' k" := (seq m k)
  (at level 95, right associativity) : js_scope.

(** *** Field updates *)

Definition set_apps (f : gmap string ReadyState.t -> gmap string ReadyState.t)
    (s : State) : State :=
  {| apps := f (apps s); currentMigration := currentMigration s;
     acknowledgments := acknowledgments s; sent := sent s;
     console := console s; now := now s; pool := pool s |}.

Definition set_currentMigration (f : option Migration -> option Migration)
    (s : State) : State :=
  {| apps := apps s; currentMigration := f (currentMigration s);
     acknowledgments := acknowledgments s; sent := sent s;
     console := console s; now := now s; pool := pool s |}.

Definition set_acknowledgments
    (f : gmap Phase.t (gset string) -> gmap Phase.t (gset string))
    (s : State) : State :=
  {| apps := apps s; currentMigration := currentMigration s;
     acknowledgments := f (acknowledgments s); sent := sent s;
     console := console s; now := now s; pool := pool s |}.

Definition set_pool (f : Database -> Database) (s : State) : State :=
  {| apps := apps s; currentMigration := currentMigration s;
     acknowledgments := acknowledgments s; sent := sent s;
     console := console s; now := now s; pool := f (pool s) |}.

(** [ws.send(data)] on the socket registered as [appId]. *)
Definition ws_send (appId : string) (data : Wire) (s : State) : State :=
  {| apps := apps s; currentMigration := currentMigration s;
     acknowledgments := acknowledgments s; sent := sent s ++ [(appId, data)];
     console := console s; now := now s; pool := pool s |}.

(** [console.log] and [console.error]. *)
Definition console_log (l : LogLine) (s : State) : State :=
  {| apps := apps s; currentMigration := currentMigration s;
     acknowledgments := acknowledgments s; sent := sent s;
     console := console s ++ [l]; now := now s; pool := pool s |}.

(** The clock advances by [ms] milliseconds. *)
Definition elapse (ms : Z) (s : State) : State :=
  {| apps := apps s; currentMigration := currentMigration s;
     acknowledgments := acknowledgments s; sent := sent s;
     console := console s; now := (now s + ms)%Z; pool := pool s |}.

(** The clock reaches [d]. *)
Definition at_time (d : Date) (s : State) : State :=
  {| apps := apps s; currentMigration := currentMigration s;
     acknowledgments := acknowledgments s; sent := sent s;
     console := console s; now := d; pool := pool s |}.

Definition with_status (st : MigrationStatus.t) (m : Migration) : Migration :=
  {| id := id m; name := name m; sql := sql m; status := st;
     completedAt := completedAt m; startedAt := startedAt m |}.

Definition with_startedAt (d : Date) (m : Migration) : Migration :=
  {| id := id m; name := name m; sql := sql m; status := status m;
     completedAt := completedAt m; startedAt := d |}.

Definition with_completedAt (d : Date) (m : Migration) : Migration :=
  {| id := id m; name := name m; sql := sql m; status := status m;
     completedAt := Some d; startedAt := startedAt m |}.

(** ** The socket handlers of [server.ts] *)

(** [handleConnection], with [appId] the value of [uuidv4()].  The socket
    is open when the server accepts it. *)
Definition handleConnection (appId : string) (s : State) : State :=
  let s1 := set_apps (insert appId ReadyState.OPEN) s in
  let s2 := console_log (LogAppConn appId (size (apps s1))) s1 in
  ws_send appId (WELCOME appId) s2.

(** The ['close'] listener installed by [handleConnection]. *)
Definition on_close (appId : string) (s : State) : State :=
  console_log LogAppDisc (set_apps (delete appId) s).

(** [handleAcknowledgment].  Neither [message.status], [message.appId] nor
    [message.error] is read: the identifier is the one of the socket. *)
Definition handleAcknowledgment (appId : string) (message : AckMessage)
    (s : State) : State :=
  let phase := ack_phase message in
  let s1 :=
    match acknowledgments s !! phase with
    | None => set_acknowledgments (insert phase (∅ : gset string)) s
    | Some _ => s
    end in
  let s2 :=
    set_acknowledgments (alter (fun acks => {[appId]} ∪ acks) phase) s1 in
  let ackCount : option nat := size <$> (acknowledgments s2 !! phase) in
  let totalApps : nat := size (apps s2) in
  if bool_decide (ackCount = Some totalApps)
  then console_log (LogAllAck totalApps phase) s2
  else s2.

(** One socket event.  The listeners of a socket exist from
    [handleConnection] until its ['close'] event, which is exactly the time
    during which the socket is a value of [apps]. *)
Definition handle (ev : Event) (s : State) : State :=
  match ev with
  | EvConnection appId => handleConnection appId s
  | EvReadyState appId r =>
      match apps s !! appId with
      | Some _ => set_apps (insert appId r) s
      | None => s
      end
  | EvMessage appId message =>
      match apps s !! appId with
      | Some _ => handleAcknowledgment appId message s
      | None => s
      end
  | EvClose appId =>
      match apps s !! appId with
      | Some _ => on_close appId s
      | None => s
      end
  end.

Definition handle_all (evs : list Event) (s : State) : State :=
  fold_left (fun s ev => handle ev s) evs s.

(** ** Broadcasting *)

(** The body of the [forEach] of [broadcast] for one socket. *)
Definition broadcast_one (data : Wire) (s : State)
    (entry : string * ReadyState.t) : State :=
  if ReadyState.is_open entry.2
  then ws_send entry.1 data s
  else console_log LogNotOpen s.

(** [broadcast]: the sockets are visited in the order of [map_to_list], not
    in the insertion order of the JavaScript [Map]. *)
Definition broadcast (message : PhaseMessage) (s : State) : State :=
  fold_left (broadcast_one (PhaseMsg message)) (map_to_list (apps s)) s.

(** [sendPhase]: [this.currentMigration!.id] throws on [null]. *)
Definition sendPhase (phase : Phase.t) (st : option ExecStatus.t) : M unit :=
  fun s =>
    match currentMigration s with
    | None => (Throw TypeError, s)
    | Some m =>
        let message :=
          {| msg_phase := phase; msg_migrationId := id m;
             msg_status := st; msg_timestamp := now s |} in
        (Ret tt, broadcast message (console_log (LogBroadcasting phase st) s))
    end.

(** ** Waiting for acknowledgments *)

(** The period of the polling interval, in milliseconds. *)
Definition poll_period : Z := 100.

(** The test of the interval callback:
    [this.acknowledgments.get(phase)?.size === this.apps.size]. *)
Definition quorum (phase : Phase.t) (s : State) : bool :=
  match acknowledgments s !! phase with
  | Some acks => bool_decide (size acks = size (apps s))
  | None => false
  end.

(** [this.acknowledgments.get(phase)?.size || 0] *)
Definition ack_count (phase : Phase.t) (s : State) : nat :=
  match acknowledgments s !! phase with
  | Some acks => size acks
  | None => 0
  end.

(** The delay Node gives a timer created with [ms] milliseconds (a whole
    number): a delay below 1 or above 2^31 - 1 is replaced by 1. *)
Definition node_delay (ms : Z) : Z :=
  if (1 <=? ms)%Z && (ms <=? 2147483647)%Z then ms else 1%Z.

(** The firings of the interval that precede the timeout.  The timeout is
    created first, so it fires before a firing that is due at the same
    time: the [k]-th firing, due after [100 * k] ms, precedes a timeout of
    [timeout] ms exactly when [100 * k] is below the delay of the timeout.
    There are 299 such firings for 30000 ms and none for 100 ms. *)
Definition firings (timeout : Z) : nat :=
  Z.to_nat ((node_delay timeout - 1) / poll_period).

(** The two timers of [waitForAcknowledgments].  Each element of [slots] is
    one firing of the interval, preceded by the events that arrived since the
    previous one; when no firing is left the timeout fires, at the time
    [deadline]. *)
Fixpoint poll (phase : Phase.t) (deadline : Date)
    (slots : list (list Event)) (last : list Event) : M unit :=
  fun s =>
    match slots with
    | [] =>
        let s' := at_time deadline (handle_all last s) in
        (Throw (Timeout (ack_count phase s') (size (apps s')) phase), s')
    | evs :: slots' =>
        let s' := elapse poll_period (handle_all evs s) in
        if quorum phase s' then (Ret tt, s')
        else poll phase deadline slots' last s'
    end.

(** The batches of events of the firings that precede the timeout: those
    the schedule lists, in order, and empty ones where it lists none. *)
Definition slots_of (timeout : Z) (w : WaitSchedule) : list (list Event) :=
  take (firings timeout) (polls w ++ replicate (firings timeout) []).

(** What arrives after the last firing that precedes the timeout and
    before the timeout: the batches the schedule lists beyond that firing,
    then its last batch. *)
Definition late_of (timeout : Z) (w : WaitSchedule) : list Event :=
  concat (drop (firings timeout) (polls w)) ++ rest w.

(** [waitForAcknowledgments]: the set of the phase is replaced by an empty
    one, then the timers run: the timeout is due [timeout] ms from now, and
    the interval fires every 100 ms before that. *)
Definition waitForAcknowledgments (phase : Phase.t) (timeout : Z)
    (w : WaitSchedule) : M unit :=
  fun s =>
    let s0 := set_acknowledgments (insert phase (∅ : gset string)) s in
    poll phase (now s + node_delay timeout)%Z
      (slots_of timeout w) (late_of timeout w) s0.

(** ** The database session *)

Definition set_tx (d : DB) (t : TxState) (p : Database) : Database :=
  {| committed := d; tx := t; history := history p;
     connects := connects p; leased := leased p |}.

(** What the server does with transaction control: the new session, and
    the error it answers with, if any.  An aborted transaction refuses
    everything but [COMMIT] and [ROLLBACK], which both end it without
    keeping its changes. *)
Definition transact (c : Sql.control) (p : Database) : Database * option string :=
  match c, tx p with
  | Sql.Begin, Idle => (set_tx (committed p) (InTx (committed p)) p, None)
  | Sql.Begin, InTx _ => (p, None)
  | Sql.Begin, Aborted => (p, Some "current transaction is aborted")
  | Sql.Commit, Idle => (p, None)
  | Sql.Commit, InTx work => (set_tx work Idle p, None)
  | Sql.Commit, Aborted => (set_tx (committed p) Idle p, None)
  | Sql.Rollback, _ => (set_tx (committed p) Idle p, None)
  end.

(** What the server does with an ordinary statement.  A statement that
    fails inside a transaction leaves the transaction aborted; outside of a
    transaction a statement is committed on its own. *)
Definition execute (text : string) (p : Database) : Database * option string :=
  match tx p with
  | Idle =>
      match run_stmt text (committed p) with
      | inl d => (set_tx d Idle p, None)
      | inr e => (p, Some e)
      end
  | InTx work =>
      match run_stmt text work with
      | inl d => (set_tx (committed p) (InTx d) p, None)
      | inr e => (set_tx (committed p) Aborted p, Some e)
      end
  | Aborted => (p, Some "current transaction is aborted")
  end.

(** What the server does with what the executor sends.  The text of a
    statement of the migration is read by the database: when it is
    transaction control it ends or begins the transaction like the
    executor's own commands. *)
Definition server (c : Sql.command) (p : Database) : Database * option string :=
  match c with
  | Sql.BEGIN => transact Sql.Begin p
  | Sql.COMMIT => transact Sql.Commit p
  | Sql.ROLLBACK => transact Sql.Rollback p
  | Sql.Stmt text =>
      match control text with
      | Some c' => transact c' p
      | None => execute text p
      end
  end.

Definition record_query (c : Sql.command) (p : Database) : Database :=
  {| committed := committed p; tx := tx p; history := history p ++ [c];
     connects := connects p; leased := leased p |}.

(** [pool.connect()] *)
Definition pool_connect (f : DbFaults) : M unit :=
  fun s =>
    match connect_fault f with
    | Some e =>
        (Throw (DbError e),
         set_pool (fun p =>
           {| committed := committed p; tx := tx p; history := history p;
              connects := S (connects p); leased := leased p |}) s)
    | None =>
        (Ret tt,
         set_pool (fun p =>
           {| committed := committed p; tx := tx p; history := history p;
              connects := S (connects p); leased := S (leased p) |}) s)
    end.

(** [client.release()] *)
Definition client_release : M unit :=
  effect (set_pool (fun p =>
    {| committed := committed p; tx := tx p; history := history p;
       connects := connects p; leased := pred (leased p) |})).

(** [client.query(c)]: the fault of the query, if any, is the one listed for
    its position among all the queries sent. *)
Definition client_query (f : DbFaults) (c : Sql.command) : M unit :=
  fun s =>
    match query_fault f (length (history (pool s))) with
    | Some e => (Throw (DbError e), set_pool (record_query c) s)
    | None =>
        match server c (record_query c (pool s)) with
        | (p, None) => (Ret tt, set_pool (fun _ => p) s)
        | (p, Some e) => (Throw (DbError e), set_pool (fun _ => p) s)
        end
    end.

(** ** [MigrationExecutor.executeMigrations] *)

Definition executeMigrations (f : DbFaults) (sql : list string) : M ExecResult :=
  (pool_connect f >>
   try_finally
     (try_catch
        (client_query f Sql.BEGIN >>
         effect (console_log LogStartingMigrations) >>
         for_each sql (fun query =>
           effect (console_log (LogExecuting query)) >>
           client_query f (Sql.Stmt query)) >>
         client_query f Sql.COMMIT >>
         ret {| success := true; error := None |})
        (fun error =>
           client_query f Sql.ROLLBACK >>
           ret {| success := false; error := Some error |}))
     client_release)%js.

(** ** [CoordinatorServer.rollback] and [CoordinatorServer.startMigration] *)

(** [this.currentMigration.status = st] *)
Definition set_status (st : MigrationStatus.t) : M unit :=
  fun s =>
    match currentMigration s with
    | None => (Throw TypeError, s)
    | Some _ => (Ret tt, set_currentMigration (fmap (with_status st)) s)
    end.

(** [this.currentMigration.completedAt = new Date()] *)
Definition set_completedAt : M unit :=
  fun s =>
    match currentMigration s with
    | None => (Throw TypeError, s)
    | Some _ =>
        (Ret tt, set_currentMigration (fmap (with_completedAt (now s))) s)
    end.

(** [rollback]: the reason goes to [console.error]; the status is set
    only [if (this.currentMigration)]. *)
Definition rollback (reason : Reason) : M unit :=
  (effect (console_log (LogRollingBack reason)) >>
   effect (set_currentMigration (fmap (with_status MigrationStatus.FAILED))) >>
   sendPhase Phase.ROLLBACK None)%js.

(** The timeout of both waits, in milliseconds. *)
Definition phase_timeout : Z := 30000.

(** [startMigration].  [this.currentMigration] and the caller's [migration]
    are one object: what the caller observes afterwards is
    [currentMigration] of the final state.  The socket events that arrive
    while the executor is awaited touch neither the database nor the
    migration, and are handled before the executor's own effects. *)
Definition startMigration (migration : Migration) (env : Run) : M unit :=
  (effect (fun s =>
     set_currentMigration (fun _ =>
       Some (with_startedAt (now s)
               (with_status MigrationStatus.ANNOUNCING migration))) s) >>
   try_catch
     (effect (console_log (LogStarting (name migration))) >>
      sendPhase Phase.ANNOUNCE None >>
      waitForAcknowledgments Phase.ANNOUNCE phase_timeout (announce_wait env) >>
      set_status MigrationStatus.EXECUTING >>
      sendPhase Phase.EXECUTE (Some ExecStatus.RUNNING) >>
      effect (handle_all (exec_events env)) >>
      let! result := executeMigrations (faults env) (sql migration) in
      if negb (success result)
      then rollback (ExecutionFailed (error result))
      else
        sendPhase Phase.EXECUTE (Some ExecStatus.COMPLETED) >>
        set_status MigrationStatus.APPLYING >>
        sendPhase Phase.APPLY None >>
        waitForAcknowledgments Phase.APPLY phase_timeout (apply_wait env) >>
        set_status MigrationStatus.COMPLETED >>
        set_completedAt >>
        sendPhase Phase.CONFIRM None >>
        effect (console_log (LogCompleted (name migration))))
     (fun error => rollback (Caught error)))%js.

(** ** Points of observation inside a run of [startMigration] *)

(** The state in which the wait for ANNOUNCE begins: the migration is
    installed and ANNOUNCE has been broadcast. *)
Definition announcing (migration : Migration) (s : State) : State :=
  snd ((effect (fun s =>
          set_currentMigration (fun _ =>
            Some (with_startedAt (now s)
                    (with_status MigrationStatus.ANNOUNCING migration))) s) >>
        effect (console_log (LogStarting (name migration))) >>
        sendPhase Phase.ANNOUNCE None)%js s).

(** The outcome of the wait for ANNOUNCE. *)
Definition announce_outcome (migration : Migration) (env : Run) (s : State)
    : Outcome unit * State :=
  waitForAcknowledgments Phase.ANNOUNCE phase_timeout (announce_wait env)
    (announcing migration s).

(** The state in which the executor is called, when ANNOUNCE reached its
    quorum. *)
Definition executing (migration : Migration) (env : Run) (s : State) : State :=
  snd ((set_status MigrationStatus.EXECUTING >>
        sendPhase Phase.EXECUTE (Some ExecStatus.RUNNING) >>
        effect (handle_all (exec_events env)))%js
       (snd (announce_outcome migration env s))).

(** The outcome of the call of the executor. *)
Definition executor_outcome (migration : Migration) (env : Run) (s : State)
    : Outcome ExecResult * State :=
  executeMigrations (faults env) (sql migration) (executing migration env s).

(** The state in which the wait for APPLY begins, when the executor
    succeeded: APPLY has been broadcast. *)
Definition applying (migration : Migration) (env : Run) (s : State) : State :=
  snd ((sendPhase Phase.EXECUTE (Some ExecStatus.COMPLETED) >>
        set_status MigrationStatus.APPLYING >>
        sendPhase Phase.APPLY None)%js
       (snd (executor_outcome migration env s))).

(** The outcome of the wait for APPLY. *)
Definition apply_outcome (migration : Migration) (env : Run) (s : State)
    : Outcome unit * State :=
  waitForAcknowledgments Phase.APPLY phase_timeout (apply_wait env)
    (applying migration env s).

(** The state after the first firings of the interval, one per element of
    [slots], when none of them ended the wait. *)
Definition after_firings (slots : list (list Event)) (s : State) : State :=
  fold_left (fun s evs => elapse poll_period (handle_all evs s)) slots s.

(** The statements of a list applied in order to a database state: the
    state they lead to, or the error of the first one that fails. *)
Fixpoint run_all (statements : list string) (d : DB) : DB + string :=
  match statements with
  | [] => inl d
  | q :: statements' =>
      match run_stmt q d with
      | inl d' => run_all statements' d'
      | inr e => inr e
      end
  end.

(** The members of the acknowledgment set of a phase, none when the set
    does not exist. *)
Definition acked (phase : Phase.t) (s : State) : gset string :=
  default ∅ (acknowledgments s !! phase).

(** ** Parts of the state

    What the operations leave alone is stated through these views. *)

(** [m] never changes the part [view] of the state. *)
Definition preserves {A B} (view : State -> B) (m : M A) : Prop :=
  forall s, view (snd (m s)) = view s.

(** What the socket handlers and the timers do not touch: the migration and
    the database. *)
Definition beyond_sockets (s : State) : option Migration * Database :=
  (currentMigration s, pool s).

(** What a broadcast does not touch: everything but the sockets' output and
    the console. *)
Definition beyond_output (s : State) :=
  (apps s, currentMigration s, acknowledgments s, now s, pool s).

(** What a change of status or of completion time does not touch. *)
Definition beyond_status (s : State) :=
  (apps s, id <$> currentMigration s, acknowledgments s, sent s, console s,
   now s, pool s).

(** What the executor does not touch: everything but the database and the
    console. *)
Definition beyond_database (s : State) :=
  (apps s, currentMigration s, acknowledgments s, sent s, now s).

(** ** Blocks of the source functions, named for the proofs *)

(** The [try] block of [executeMigrations]. *)
Definition try_block (f : DbFaults) (statements : list string) : M ExecResult :=
  (client_query f Sql.BEGIN >>
   effect (console_log LogStartingMigrations) >>
   for_each statements (fun query =>
     effect (console_log (LogExecuting query)) >>
     client_query f (Sql.Stmt query)) >>
   client_query f Sql.COMMIT >>
   ret {| success := true; error := None |})%js.

(** The [catch] block of [executeMigrations]. *)
Definition catch_block (f : DbFaults) (error : Thrown) : M ExecResult :=
  (client_query f Sql.ROLLBACK >>
   ret {| success := false; error := Some error |})%js.

(** ** More views *)

(** The registry and the acknowledgment sets. *)
Definition registry (s : State) :=
  (apps s, acknowledgments s).

(** The counters of the pool. *)
Definition pool_counters (s : State) : nat * nat :=
  (connects (pool s), leased (pool s)).

(** The identifier of the migration the coordinator holds. *)
Definition current_id (s : State) : option string :=
  id <$> currentMigration s.

(** The end of a successful run: the statements of [startMigration] that
    follow the wait for APPLY. *)
Definition complete (migration : Migration) : M unit :=
  (set_status MigrationStatus.COMPLETED >>
   set_completedAt >>
   sendPhase Phase.CONFIRM None >>
   effect (console_log (LogCompleted (name migration))))%js.

(** Every statement of the list is read by the database as an ordinary
    statement: none of them is transaction control. *)
Definition ordinary (statements : list string) : Prop :=
  Forall (fun query => control query = None) statements.

(** The status of the migration object the coordinator holds. *)
Definition observed_status (s : State) : option MigrationStatus.t :=
  status <$> currentMigration s.

End Coordinator.

(** ** The participant of [src/client/app-client.ts] *)

(** [AppClient.sendAcknowledgment] *)
Definition sendAcknowledgment (appId : string) (phase : Phase.t) : AckMessage :=
  {| ack_phase := phase; ack_status := AckStatus.ACKNOWLEDGED;
     ack_appId := appId; ack_error := None |}.

(** [AppClient.handleMessage] on a phase message: the acknowledgment the
    participant answers with, if any (for APPLY, after 100 ms).  The
    identifier of the migration is not read.  The feature flag of the
    participant is left out. *)
Definition handleMessage (appId : string) (m : PhaseMessage) : option AckMessage :=
  match msg_phase m with
  | Phase.ANNOUNCE => Some (sendAcknowledgment appId Phase.ANNOUNCE)
  | Phase.APPLY => Some (sendAcknowledgment appId Phase.APPLY)
  | Phase.EXECUTE | Phase.CONFIRM | Phase.ROLLBACK => None
  end.

(** ** A concrete database, participants and runs *)

(** A toy database: its state is the list of the statements applied so far.
    A statement cannot be applied twice (as adding an existing column
    cannot). *)
Definition demo_stmt (q : string) (d : list string) : list string + string :=
  if decide (q ∈ d) then inr "already exists"
  else inl (d ++ [q])%list.

(** The toy database reads the three texts of the executor as transaction
    control and every other text as an ordinary statement. *)
Definition demo_control (q : string) : option Sql.control :=
  if decide (q = "BEGIN") then Some Sql.Begin
  else if decide (q = "COMMIT") then Some Sql.Commit
  else if decide (q = "ROLLBACK") then Some Sql.Rollback
  else None.

(** The state the constructor of [CoordinatorServer] builds. *)
Definition new_coordinator (d : list string) : @State (list string) :=
  {| apps := ∅; currentMigration := None; acknowledgments := ∅;
     sent := []; console := []; now := 0%Z;
     pool := {| committed := d; tx := Idle; history := [];
                connects := 0; leased := 0 |} |}.

(** The participant [appId] acknowledges [phase]. *)
Definition ack (appId : string) (phase : Phase.t) : Event :=
  EvMessage appId (sendAcknowledgment appId phase).

(** [n] firings of the interval with nothing happening in between. *)
Definition quiet (n : nat) : list (list Event) := repeat [] n.

(** The migration of [src/demo.ts]. *)
Definition demo_migration : Migration :=
  {| id := "m1"; name := "add_email_verified_column";
     sql := ["ALTER TABLE users ADD COLUMN email TEXT";
             "ALTER TABLE users ADD COLUMN email_verified BOOLEAN DEFAULT FALSE"];
     status := MigrationStatus.PENDING; completedAt := None;
     startedAt := 0%Z |}.

(** Three participants are connected, as in [src/demo.ts]. *)
Definition three_apps : @State (list string) :=
  handle_all [EvConnection "app-1"; EvConnection "app-2"; EvConnection "app-3"]
    (new_coordinator []).

Definition all_ack (phase : Phase.t) : list Event :=
  [ack "app-1" phase; ack "app-2" phase; ack "app-3" phase].

(** Everybody acknowledges both phases. *)
Definition happy_run : Run :=
  {| announce_wait := {| polls := [all_ack Phase.ANNOUNCE]; rest := [] |};
     exec_events := [];
     faults := no_faults;
     apply_wait := {| polls := [[]; all_ack Phase.APPLY]; rest := [] |} |}.

(** Only two participants acknowledge ANNOUNCE. *)
Definition announce_timeout_run : Run :=
  {| announce_wait :=
       {| polls := [ack "app-1" Phase.ANNOUNCE; ack "app-2" Phase.ANNOUNCE]
                   :: quiet 298;
          rest := [] |};
     exec_events := [];
     faults := no_faults;
     apply_wait := {| polls := []; rest := [] |} |}.

(** [app-3] disconnects during the wait for APPLY without having
    acknowledged it; the two others acknowledge. *)
Definition disconnect_run : Run :=
  {| announce_wait := {| polls := [all_ack Phase.ANNOUNCE]; rest := [] |};
     exec_events := [];
     faults := no_faults;
     apply_wait :=
       {| polls := [[EvClose "app-3"];
                    [ack "app-1" Phase.APPLY; ack "app-2" Phase.APPLY]];
          rest := [] |} |}.

(** [app-4] connects during the wait for APPLY and acknowledges nothing;
    the three participants present at the start of the wait acknowledge. *)
Definition late_joiner_run : Run :=
  {| announce_wait := {| polls := [all_ack Phase.ANNOUNCE]; rest := [] |};
     exec_events := [];
     faults := no_faults;
     apply_wait :=
       {| polls := [EvConnection "app-4"] :: all_ack Phase.APPLY :: quiet 297;
          rest := [] |} |}.

(** [app-3] acknowledges ANNOUNCE and stays silent during the whole wait
    for APPLY. *)
Definition apply_timeout_run : Run :=
  {| announce_wait := {| polls := [all_ack Phase.ANNOUNCE]; rest := [] |};
     exec_events := [];
     faults := no_faults;
     apply_wait :=
       {| polls := [ack "app-1" Phase.APPLY; ack "app-2" Phase.APPLY]
                   :: quiet 298;
          rest := [] |} |}.

(** A second migration, started after the first one failed. *)
Definition second_migration : Migration :=
  {| id := "m2"; name := "add_phone_column";
     sql := ["ALTER TABLE users ADD COLUMN phone TEXT"];
     status := MigrationStatus.PENDING; completedAt := None;
     startedAt := 0%Z |}.

(** The APPLY message of the first migration, as broadcast in
    [apply_timeout_run]. *)
Definition first_apply_message : PhaseMessage :=
  {| msg_phase := Phase.APPLY; msg_migrationId := "m1";
     msg_status := None; msg_timestamp := 100%Z |}.

(** The run of the second migration: the answer of [app-3] to the APPLY
    message of the first migration arrives during the wait for APPLY of the
    second one, and [app-3] does not answer the second APPLY message. *)
Definition second_run : Run :=
  {| announce_wait := {| polls := [all_ack Phase.ANNOUNCE]; rest := [] |};
     exec_events := [];
     faults := no_faults;
     apply_wait :=
       {| polls :=
            [match handleMessage "app-3" first_apply_message with
             | Some late => [EvMessage "app-3" late]
             | None => []
             end;
             [ack "app-1" Phase.APPLY; ack "app-2" Phase.APPLY]];
          rest := [] |} |}.

(** An acknowledgment of ANNOUNCE is already recorded when the migration
    starts. *)
Definition stale_ack_state : @State (list string) :=
  handle_all [ack "app-1" Phase.ANNOUNCE] three_apps.

(** The database refuses the connection. *)
Definition connect_refused_run : Run :=
  {| announce_wait := {| polls := [all_ack Phase.ANNOUNCE]; rest := [] |};
     exec_events := [];
     faults := {| connect_fault := Some "connection refused";
                  query_fault := fun _ => None |};
     apply_wait := {| polls := []; rest := [] |} |}.

(** Nothing happens on the sockets. *)
Definition quiet_run : Run :=
  {| announce_wait := {| polls := quiet 299; rest := [] |};
     exec_events := [];
     faults := no_faults;
     apply_wait := {| polls := quiet 299; rest := [] |} |}.

(** A migration whose second statement is refused: the column exists. *)
Definition failing_migration : Migration :=
  {| id := "m3"; name := "broken";
     sql := ["ALTER TABLE users ADD COLUMN email TEXT";
             "ALTER TABLE users ADD COLUMN email TEXT"];
     status := MigrationStatus.PENDING; completedAt := None;
     startedAt := 0%Z |}.

(** The participant acknowledges with status [ERROR]. *)
Definition nack (appId : string) (phase : Phase.t) : Event :=
  EvMessage appId
    {| ack_phase := phase; ack_status := AckStatus.ERROR;
       ack_appId := appId; ack_error := Some "cannot apply" |}.

(** ** Reading the sockets and the console *)

(** What was written on the socket registered as [appId], oldest first. *)
Definition inbox (appId : string) (l : list (string * Wire)) : list Wire :=
  omap (fun entry : string * Wire =>
          if decide (entry.1 = appId) then Some entry.2 else None) l.

(** The broadcasts a console records, oldest first: the phase and the
    status of every line written by [sendPhase]. *)
Definition broadcasts (l : list LogLine) : list (Phase.t * option ExecStatus.t) :=
  omap (fun line =>
          match line with
          | LogBroadcasting phase st => Some (phase, st)
          | _ => None
          end) l.

(** The sockets of the registry that are not open. *)
Definition not_open (registered : gmap string ReadyState.t)
    : list (string * ReadyState.t) :=
  List.filter (fun entry : string * ReadyState.t =>
                 negb (ReadyState.is_open entry.2))
    (map_to_list registered).

(** Every socket that received something received its welcome object
    first, and every registered socket received something. *)
Definition welcomed {DB} (s : @State DB) : Prop :=
  forall appId,
    match inbox appId (sent s) with
    | [] => apps s !! appId = None
    | first :: _ => first = WELCOME appId
    end.

(** The executor did not report success. *)
Definition execution_failed (o : Outcome ExecResult) : Prop :=
  forall result, o = Ret result -> success result = false.

(** [m] keeps the property [P] of the state. *)
Definition maintains {DB A} (P : @State DB -> Prop) (m : @M DB A) : Prop :=
  forall s, P s -> P (snd (m s)).

(** The events of a batch concern other sockets than [appId], or are
    messages of [appId]: its socket neither connects again, nor closes, nor
    changes its [readyState]. *)
Definition steady_event (appId : string) (ev : Event) : bool :=
  match ev with
  | EvMessage _ _ => true
  | EvConnection a | EvReadyState a _ | EvClose a =>
      bool_decide (a <> appId)
  end.

Definition steady (appId : string) (evs : list Event) : bool :=
  forallb (steady_event appId) evs.

Definition steady_wait (appId : string) (w : WaitSchedule) : bool :=
  forallb (steady appId) (polls w) && steady appId (rest w).

Definition steady_run (appId : string) (env : Run) : bool :=
  steady_wait appId (announce_wait env) && steady appId (exec_events env)
  && steady_wait appId (apply_wait env).

(** The events of a batch are messages only: nobody connects, closes or
    changes its [readyState]. *)
Definition only_messages (evs : list Event) : bool :=
  forallb (fun ev => match ev with EvMessage _ _ => true | _ => false end) evs.

(** The sockets on which an acknowledgment of [phase] arrives among the
    events of a list. *)
Fixpoint senders (phase : Phase.t) (evs : list Event) : gset string :=
  match evs with
  | [] => ∅
  | EvMessage appId message :: evs' =>
      if decide (ack_phase message = phase)
      then {[appId]} ∪ senders phase evs'
      else senders phase evs'
  | _ :: evs' => senders phase evs'
  end.

(** The events that can be handled during a wait: those of the firings
    that precede the timeout, then those that precede the timeout. *)
Definition wait_events (timeout : Z) (w : WaitSchedule) : list Event :=
  (concat (slots_of timeout w) ++ late_of timeout w)%list.

(** What can be handled during a run, from the reset of the ANNOUNCE set
    on. *)
Definition run_events (env : Run) : list Event :=
  (wait_events phase_timeout (announce_wait env) ++ exec_events env
   ++ wait_events phase_timeout (apply_wait env))%list.

(** The phase and the status of a phase message. *)
Definition phase_and_status (m : PhaseMessage) : Phase.t * option ExecStatus.t :=
  (msg_phase m, msg_status m).

(** What concerns the participant [appId] in a state of the coordinator:
    its socket, what was written on it, and what was broadcast. *)
Definition participant_view {DB} (appId : string) (s : @State DB) :=
  (apps s !! appId, inbox appId (sent s), broadcasts (console s)).

(** From [s] to [s'] the coordinator broadcast the messages [msgs], all for
    the migration [migrationId], and wrote them, and nothing else, on the
    socket of [appId], which is open at the end. *)
Definition delivers {DB} (appId migrationId : string) (s s' : @State DB)
    (msgs : list PhaseMessage) : Prop :=
  apps s' !! appId = Some ReadyState.OPEN /\
  inbox appId (sent s') = (inbox appId (sent s) ++ (PhaseMsg <$> msgs))%list /\
  broadcasts (console s')
  = (broadcasts (console s) ++ (phase_and_status <$> msgs))%list /\
  Forall (fun m => msg_migrationId m = migrationId) msgs.

(** ** The client of [src/client/app-client.ts] *)

Module AppClient.

(** The lines the client writes on the console. *)
Inductive LogLine :=
| LogConnected
| LogReceivedAppId (appId : string)
| LogAnnounced
| LogExec
| LogDbCompleted
| LogApplying
| LogFlagEnabled
| LogConf
| LogRollingBack
| LogFlagDisabled
| LogAcknowledged (phase : Phase.t)
| LogQuery (newSchema : bool) (rows : nat)
| LogQueryError (detail : string)
| LogDisconnectedFromCoord
| LogError (detail : string)
| LogDisconnecting.

(** The two queries of [queryUsers]. *)
Definition new_query : string :=
  "SELECT id, name, created_at, email, email_verified FROM users LIMIT 3".

Definition old_query : string :=
  "SELECT id, name, created_at FROM users LIMIT 3".

(** The fields of [AppClient] that the handlers read or write, with what
    the client sent on its socket ([acks], the calls of [ws.send]), the
    queries it sent to the pool, its console and its timers: the handles of
    the intervals that run, the number of 100 ms timeouts that have not
    fired yet, and the next handle [setInterval] returns.  [closed] counts
    the calls of [ws.close]. *)
Record t := {
  appId : string;
  useNewSchema : bool;
  queryInterval : option nat;
  intervals : gset nat;
  apply_timeouts : nat;
  next_handle : nat;
  acks : list AckMessage;
  queries : list string;
  console : list LogLine;
  closed : nat;
}.

(** The client after its constructor. *)
Definition create : t :=
  {| appId := ""; useNewSchema := false; queryInterval := None;
     intervals := ∅; apply_timeouts := 0; next_handle := 0;
     acks := []; queries := []; console := []; closed := 0 |}.

Definition log (l : LogLine) (c : t) : t :=
  {| appId := appId c; useNewSchema := useNewSchema c;
     queryInterval := queryInterval c; intervals := intervals c;
     apply_timeouts := apply_timeouts c; next_handle := next_handle c;
     acks := acks c; queries := queries c; console := console c ++ [l];
     closed := closed c |}.

Definition set_appId (a : string) (c : t) : t :=
  {| appId := a; useNewSchema := useNewSchema c;
     queryInterval := queryInterval c; intervals := intervals c;
     apply_timeouts := apply_timeouts c; next_handle := next_handle c;
     acks := acks c; queries := queries c; console := console c;
     closed := closed c |}.

Definition set_useNewSchema (b : bool) (c : t) : t :=
  {| appId := appId c; useNewSchema := b;
     queryInterval := queryInterval c; intervals := intervals c;
     apply_timeouts := apply_timeouts c; next_handle := next_handle c;
     acks := acks c; queries := queries c; console := console c;
     closed := closed c |}.

Definition set_apply_timeouts (n : nat) (c : t) : t :=
  {| appId := appId c; useNewSchema := useNewSchema c;
     queryInterval := queryInterval c; intervals := intervals c;
     apply_timeouts := n; next_handle := next_handle c;
     acks := acks c; queries := queries c; console := console c;
     closed := closed c |}.

(** [sendAcknowledgment] *)
Definition send_ack (phase : Phase.t) (c : t) : t :=
  log (LogAcknowledged phase)
    {| appId := appId c; useNewSchema := useNewSchema c;
       queryInterval := queryInterval c; intervals := intervals c;
       apply_timeouts := apply_timeouts c; next_handle := next_handle c;
       acks := acks c ++ [sendAcknowledgment (appId c) phase];
       queries := queries c; console := console c; closed := closed c |}.

(** [startQueryingDatabase]: a new interval runs and its handle replaces
    the one the client held. *)
Definition startQueryingDatabase (c : t) : t :=
  {| appId := appId c; useNewSchema := useNewSchema c;
     queryInterval := Some (next_handle c);
     intervals := {[next_handle c]} ∪ intervals c;
     apply_timeouts := apply_timeouts c; next_handle := S (next_handle c);
     acks := acks c; queries := queries c; console := console c;
     closed := closed c |}.

(** [stopQueryingDatabase] *)
Definition stopQueryingDatabase (c : t) : t :=
  match queryInterval c with
  | Some h =>
      {| appId := appId c; useNewSchema := useNewSchema c;
         queryInterval := None; intervals := intervals c ∖ {[h]};
         apply_timeouts := apply_timeouts c; next_handle := next_handle c;
         acks := acks c; queries := queries c; console := console c;
         closed := closed c |}
  | None => c
  end.

(** [handleMessage] *)
Definition handleMessage (data : Wire) (c : t) : t :=
  match data with
  | WELCOME a =>
      startQueryingDatabase (log (LogReceivedAppId a) (set_appId a c))
  | PhaseMsg m =>
      match msg_phase m with
      | Phase.ANNOUNCE => send_ack Phase.ANNOUNCE (log LogAnnounced c)
      | Phase.EXECUTE =>
          match msg_status m with
          | Some ExecStatus.RUNNING => log LogExec c
          | Some ExecStatus.COMPLETED => log LogDbCompleted c
          | Some ExecStatus.FAILED | None => c
          end
      | Phase.APPLY =>
          let c1 := log LogApplying c in
          let c2 := log LogFlagEnabled (set_useNewSchema true c1) in
          set_apply_timeouts (S (apply_timeouts c2)) c2
      | Phase.CONFIRM => log LogConf c
      | Phase.ROLLBACK =>
          log LogFlagDisabled (set_useNewSchema false (log LogRollingBack c))
      end
  end.

(** [queryUsers], with the answer of the pool to the query: the number of
    rows or the message of the error, which is caught. *)
Definition queryUsers (answer : nat + string) (c : t) : t :=
  let query := if useNewSchema c then new_query else old_query in
  let c1 :=
    {| appId := appId c; useNewSchema := useNewSchema c;
       queryInterval := queryInterval c; intervals := intervals c;
       apply_timeouts := apply_timeouts c; next_handle := next_handle c;
       acks := acks c; queries := queries c ++ [query];
       console := console c; closed := closed c |} in
  match answer with
  | inl rows => log (LogQuery (useNewSchema c1) rows) c1
  | inr detail => log (LogQueryError detail) c1
  end.

(** [disconnect] *)
Definition disconnect (c : t) : t :=
  let c1 := stopQueryingDatabase c in
  log LogDisconnecting
    {| appId := appId c1; useNewSchema := useNewSchema c1;
       queryInterval := queryInterval c1; intervals := intervals c1;
       apply_timeouts := apply_timeouts c1; next_handle := next_handle c1;
       acks := acks c1; queries := queries c1; console := console c1;
       closed := S (closed c1) |}.

(** What happens to a client. *)
Inductive event :=
| Open
    (** ['open'] on its socket *)
| Message (data : Wire)
    (** ['message'] on its socket *)
| ApplyTimeout
    (** one of its 100 ms timeouts fires *)
| QueryInterval (handle : nat) (answer : nat + string)
    (** the interval [handle] fires, and the pool answers *)
| Close
    (** ['close'] on its socket *)
| Error (detail : string)
    (** ['error'] on its socket *)
| Disconnect.
    (** [disconnect()] is called *)

Definition step (ev : event) (c : t) : t :=
  match ev with
  | Open => log LogConnected c
  | Message data => handleMessage data c
  | ApplyTimeout =>
      match apply_timeouts c with
      | 0 => c
      | S n => send_ack Phase.APPLY (set_apply_timeouts n c)
      end
  | QueryInterval handle answer =>
      if bool_decide (handle ∈ intervals c) then queryUsers answer c else c
  | Close => stopQueryingDatabase (log LogDisconnectedFromCoord c)
  | Error detail => log (LogError detail) c
  | Disconnect => disconnect c
  end.

Definition run (evs : list event) (c : t) : t :=
  fold_left (fun c ev => step ev c) evs c.

(** The client receives the messages of a list, in order. *)
Definition receive (msgs : list Wire) (c : t) : t :=
  run (List.map Message msgs) c.

Definition is_welcome (ev : event) : bool :=
  match ev with Message (WELCOME _) => true | _ => false end.

(** The phase messages of a list of events whose phase is [phase]. *)
Definition count_phase (phase : Phase.t) (evs : list event) : nat :=
  length (List.filter (fun ev =>
    match ev with
    | Message (PhaseMsg m) => bool_decide (msg_phase m = phase)
    | _ => false
    end) evs).

(** What the handlers of the client do to its flag, by phase. *)
Definition switch (phase : Phase.t) (flag : bool) : bool :=
  match phase with
  | Phase.APPLY => true
  | Phase.ROLLBACK => false
  | _ => flag
  end.

(** The client holds no interval. *)
Definition idle (c : t) : Prop :=
  intervals c = ∅ /\ queryInterval c = None.

(** The only interval that runs, if any, is the one the client holds. *)
Definition holds_its_interval (c : t) : Prop :=
  intervals c = match queryInterval c with Some h => {[h]} | None => ∅ end.

(** An acknowledgment as the client with identifier [a] sends them. *)
Definition well_formed_ack (a : string) (k : AckMessage) : Prop :=
  ack_appId k = a /\ ack_status k = AckStatus.ACKNOWLEDGED /\
  ack_error k = None /\
  (ack_phase k = Phase.ANNOUNCE \/ ack_phase k = Phase.APPLY).

(** The acknowledgments of a list for one phase. *)
Definition acks_for (phase : Phase.t) (l : list AckMessage) : nat :=
  length (List.filter (fun k => bool_decide (ack_phase k = phase)) l).

End AppClient.

(** ** The caller of [src/demo.ts]

    The [try] statement of [runDemo] around [startMigration]: the lines it
    writes, with the outcome of the query that reads the schema back. *)

Inductive DemoLine :=
| DemoMigrationComplete
| DemoSchema
| DemoMigrationFailed (error : Thrown).

Definition demo_report {DB} (run_stmt : string -> DB -> DB + string)
    (control : string -> option Sql.control)
    (migration : Migration) (env : Run) (verify : option string)
    (s : @State DB) : list DemoLine * @State DB :=
  match startMigration run_stmt control migration env s with
  | (Ret _, s') =>
      match verify with
      | None => ([DemoMigrationComplete; DemoSchema], s')
      | Some e => ([DemoMigrationComplete; DemoMigrationFailed (DbError e)], s')
      end
  | (Throw e, s') => ([DemoMigrationFailed e], s')
  end.

(** * Properties *)

(** Membership in a list that evaluates to explicit elements. *)
Ltac among := vm_compute; repeat (first [left; reflexivity | right]).

(** The senders of a list of events in two parts. *)
Lemma senders_app phase evs evs' :
  senders phase (evs ++ evs') = senders phase evs ∪ senders phase evs'.
Proof.
  induction evs as [|[b|b r|b m|b] evs IH]; simpl; try exact IH.
  - symmetry. apply (left_id_L ∅ (∪)).
  - destruct (decide (ack_phase m = phase)); rewrite IH; [|reflexivity].
    apply (assoc_L (∪)).
Qed.

Section Properties.

Close Scope string_scope.
#[local] Set Warnings "-clear-no-such-hyp".

Context {DB : Type}.
Variable run_stmt : string -> DB -> DB + string.
Variable control : string -> option Sql.control.

Abbreviation State := (@State DB).
Abbreviation M := (@M DB).
Local Abbreviation keeps view m := (@preserves DB _ _ view m) (only parsing).

Implicit Types (s : State) (phase : Phase.t) (evs : list Event).

(** ** What each operation leaves alone *)

Lemma preserves_ret {A B} (view : State -> B) (a : A) : preserves view (ret a).
Proof. intro s; reflexivity. Qed.

Lemma preserves_effect {B} (view : State -> B) (f : State -> State) :
  (forall s, view (f s) = view s) -> preserves view (effect f).
Proof. intros Hf s; apply Hf. Qed.

Lemma preserves_bind {A B C} (view : State -> C) (m : M A) (k : A -> M B) :
  preserves view m -> (forall a, preserves view (k a)) ->
  preserves view (bind m k).
Proof.
  intros Hm Hk s. unfold bind. specialize (Hm s).
  destruct (m s) as [[a|e] s']; simpl in *.
  - rewrite Hk. exact Hm.
  - exact Hm.
Qed.

Lemma preserves_seq {A C} (view : State -> C) (m : M unit) (k : M A) :
  preserves view m -> preserves view k -> preserves view (seq m k).
Proof. intros Hm Hk. apply preserves_bind; auto. Qed.

Lemma preserves_try_catch {A C} (view : State -> C) (body : M A)
    (handler : Thrown -> M A) :
  preserves view body -> (forall e, preserves view (handler e)) ->
  preserves view (try_catch body handler).
Proof.
  intros Hb Hh s. unfold try_catch. specialize (Hb s).
  destruct (body s) as [[a|e] s']; simpl in *.
  - exact Hb.
  - rewrite Hh. exact Hb.
Qed.

Lemma preserves_try_finally {A C} (view : State -> C) (body : M A)
    (cleanup : M unit) :
  preserves view body -> preserves view cleanup ->
  preserves view (try_finally body cleanup).
Proof.
  intros Hb Hc s. unfold try_finally. specialize (Hb s).
  destruct (body s) as [r s']. specialize (Hc s').
  destruct (cleanup s') as [[u|e] s'']; simpl in *; congruence.
Qed.

Lemma preserves_for_each {A C} (view : State -> C) (l : list A)
    (body : A -> M unit) :
  (forall x, preserves view (body x)) -> preserves view (for_each l body).
Proof.
  intros Hb. induction l as [|x l IH]; simpl.
  - apply preserves_ret.
  - apply preserves_seq; auto.
Qed.

(** The socket handlers touch neither the migration, nor the database, nor
    the clock. *)
Lemma handleAcknowledgment_beyond appId message s :
  beyond_sockets (handleAcknowledgment appId message s) = beyond_sockets s.
Proof.
  unfold handleAcknowledgment.
  destruct (acknowledgments s !! ack_phase message); case_bool_decide; reflexivity.
Qed.

Lemma handle_beyond ev s : beyond_sockets (handle ev s) = beyond_sockets s.
Proof.
  destruct ev as [a|a r|a message|a]; simpl; try reflexivity;
    destruct (apps s !! a); try reflexivity.
  apply handleAcknowledgment_beyond.
Qed.

Lemma handle_all_beyond evs s :
  beyond_sockets (handle_all evs s) = beyond_sockets s.
Proof.
  unfold handle_all. revert s.
  induction evs as [|ev evs IH]; intro s; simpl; [reflexivity|].
  rewrite IH. apply handle_beyond.
Qed.

(** A broadcast only writes on sockets and on the console. *)
Lemma broadcast_beyond message s :
  beyond_output (broadcast message s) = beyond_output s.
Proof.
  unfold broadcast.
  generalize (map_to_list (apps s)). intro l. revert s.
  induction l as [|[a r] l IH]; intro s; simpl; [reflexivity|].
  rewrite IH. unfold broadcast_one; simpl. destruct (ReadyState.is_open r); reflexivity.
Qed.

Lemma preserves_weaken {A B C} (view : State -> B) (g : B -> C) (m : M A) :
  preserves view m -> preserves (fun s => g (view s)) m.
Proof. intros H s. simpl. f_equal. apply H. Qed.

Lemma broadcast_console message s l :
  l ∈ console s -> l ∈ console (broadcast message s).
Proof.
  unfold broadcast.
  generalize (map_to_list (apps s)). intro entries. revert s.
  induction entries as [|[a r] entries IH]; intros s Hl; simpl; [exact Hl|].
  apply IH. unfold broadcast_one; simpl.
  destruct (ReadyState.is_open r); simpl; [exact Hl|].
  apply elem_of_app. left. exact Hl.
Qed.

Lemma broadcast_sent_mono message s x :
  x ∈ sent s -> x ∈ sent (broadcast message s).
Proof.
  unfold broadcast.
  generalize (map_to_list (apps s)). intro entries. revert s.
  induction entries as [|[a r] entries IH]; intros s Hx; simpl; [exact Hx|].
  apply IH. unfold broadcast_one; simpl.
  destruct (ReadyState.is_open r); simpl; [|exact Hx].
  apply elem_of_app. left. exact Hx.
Qed.

Lemma broadcast_fold_reaches data (entries : list (string * ReadyState.t)) s a :
  (a, ReadyState.OPEN) ∈ entries ->
  (a, data) ∈ sent (fold_left (broadcast_one data) entries s).
Proof.
  revert s. induction entries as [|[b r] entries IH]; intros s Ha.
  - inversion Ha.
  - simpl. apply elem_of_cons in Ha as [Ha|Ha].
    + injection Ha as <- <-. unfold broadcast_one at 2; simpl.
      assert (Hin : (a, data) ∈ sent (ws_send a data s))
        by (simpl; apply elem_of_app; right; apply list_elem_of_singleton; reflexivity).
      revert Hin. generalize (ws_send a data s). clear.
      induction entries as [|[b r] entries IH]; intros s Hin; simpl; [exact Hin|].
      apply IH. unfold broadcast_one; simpl.
      destruct (ReadyState.is_open r); simpl; [|exact Hin].
      apply elem_of_app. left. exact Hin.
    + apply IH. exact Ha.
Qed.

(** A broadcast writes the message on every registered socket that is
    open. *)
Lemma broadcast_reaches_open message s a :
  apps s !! a = Some ReadyState.OPEN ->
  (a, PhaseMsg message) ∈ sent (broadcast message s).
Proof.
  intro Ha. unfold broadcast. apply broadcast_fold_reaches.
  apply elem_of_map_to_list. exact Ha.
Qed.

Lemma sendPhase_Some phase st s m :
  currentMigration s = Some m ->
  sendPhase phase st s =
    (Ret tt,
     broadcast {| msg_phase := phase; msg_migrationId := id m;
                  msg_status := st; msg_timestamp := now s |}
       (console_log (LogBroadcasting phase st) s)).
Proof. intro H. unfold sendPhase. rewrite H. reflexivity. Qed.

Lemma sendPhase_beyond phase st : keeps beyond_output (sendPhase phase st).
Proof.
  intro s. unfold sendPhase. destruct (currentMigration s); simpl; [|reflexivity].
  rewrite broadcast_beyond. reflexivity.
Qed.

Lemma set_status_Some st s m :
  currentMigration s = Some m ->
  set_status st s = (Ret tt, set_currentMigration (fmap (with_status st)) s).
Proof. intro H. unfold set_status. rewrite H. reflexivity. Qed.

Lemma set_status_beyond st : keeps beyond_status (set_status st).
Proof.
  intro s. unfold set_status.
  destruct (currentMigration s) eqn:H; simpl; [|reflexivity].
  unfold beyond_status; simpl. rewrite H. reflexivity.
Qed.

Lemma set_completedAt_beyond : keeps beyond_status set_completedAt.
Proof.
  intro s. unfold set_completedAt.
  destruct (currentMigration s) eqn:H; simpl; [|reflexivity].
  unfold beyond_status; simpl. rewrite H. reflexivity.
Qed.

(** The waits only run socket handlers. *)
Lemma poll_beyond phase deadline slots last : keeps beyond_sockets (poll phase deadline slots last).
Proof.
  induction slots as [|evs slots IH]; intro s; simpl.
  - apply handle_all_beyond.
  - destruct (quorum phase _); simpl.
    + apply handle_all_beyond.
    + rewrite IH. apply handle_all_beyond.
Qed.

Lemma waitForAcknowledgments_beyond phase timeout w :
  keeps beyond_sockets (waitForAcknowledgments phase timeout w).
Proof.
  intro s. unfold waitForAcknowledgments. rewrite poll_beyond. reflexivity.
Qed.

Lemma handle_all_effect_beyond evs : keeps beyond_sockets (effect (handle_all evs)).
Proof. intro s. apply handle_all_beyond. Qed.

(** The executor only talks to the database and to the console. *)
Lemma pool_connect_beyond f : keeps beyond_database (pool_connect f).
Proof. intro s. unfold pool_connect. destruct (connect_fault f); reflexivity. Qed.

Lemma client_release_beyond : keeps beyond_database client_release.
Proof. intro s. reflexivity. Qed.

Lemma client_query_beyond f c : keeps beyond_database (client_query run_stmt control f c).
Proof.
  intro s. unfold client_query.
  destruct (query_fault f _); [reflexivity|].
  destruct (server run_stmt control c _) as [p [e|]]; reflexivity.
Qed.

Lemma console_log_beyond_database l :
  keeps beyond_database (effect (console_log l)).
Proof. intro s. reflexivity. Qed.

Lemma executeMigrations_beyond f statements :
  keeps beyond_database (executeMigrations run_stmt control f statements).
Proof.
  unfold executeMigrations.
  apply preserves_seq; [apply pool_connect_beyond|].
  apply preserves_try_finally; [|apply client_release_beyond].
  apply preserves_try_catch.
  - apply preserves_seq; [apply client_query_beyond|].
    apply preserves_seq; [apply console_log_beyond_database|].
    apply preserves_seq.
    + apply preserves_for_each. intro q.
      apply preserves_seq;
        [apply console_log_beyond_database | apply client_query_beyond].
    + apply preserves_seq; [apply client_query_beyond | apply preserves_ret].
  - intro e. apply preserves_seq; [apply client_query_beyond | apply preserves_ret].
Qed.

(** *** The identifier of the current migration *)

Lemma sendPhase_current_id phase st : keeps current_id (sendPhase phase st).
Proof.
  apply (preserves_weaken beyond_output (fun v => id <$> v.1.1.1.2)).
  apply sendPhase_beyond.
Qed.

Lemma set_status_current_id st : keeps current_id (set_status st).
Proof.
  apply (preserves_weaken beyond_status (fun v => v.1.1.1.1.1.2)).
  apply set_status_beyond.
Qed.

Lemma set_completedAt_current_id : keeps current_id set_completedAt.
Proof.
  apply (preserves_weaken beyond_status (fun v => v.1.1.1.1.1.2)).
  apply set_completedAt_beyond.
Qed.

Lemma wait_current_id phase timeout w :
  keeps current_id (waitForAcknowledgments phase timeout w).
Proof.
  apply (preserves_weaken beyond_sockets (fun v => id <$> v.1)).
  apply waitForAcknowledgments_beyond.
Qed.

Lemma handle_all_current_id evs s :
  current_id (handle_all evs s) = current_id s.
Proof.
  apply (preserves_weaken beyond_sockets (fun v => id <$> v.1)
           (effect (handle_all evs))).
  apply handle_all_effect_beyond.
Qed.

Lemma executeMigrations_current_id f statements :
  keeps current_id (executeMigrations run_stmt control f statements).
Proof.
  apply (preserves_weaken beyond_database (fun v => id <$> v.1.1.1.2)).
  apply executeMigrations_beyond.
Qed.

(** *** The database *)

Lemma sendPhase_pool phase st : keeps pool (sendPhase phase st).
Proof.
  apply (preserves_weaken beyond_output (fun v => v.2)). apply sendPhase_beyond.
Qed.

Lemma set_status_pool st : keeps pool (set_status st).
Proof.
  apply (preserves_weaken beyond_status (fun v => v.2)). apply set_status_beyond.
Qed.

Lemma set_completedAt_pool : keeps pool set_completedAt.
Proof.
  apply (preserves_weaken beyond_status (fun v => v.2)).
  apply set_completedAt_beyond.
Qed.

Lemma wait_pool phase timeout w :
  keeps pool (waitForAcknowledgments phase timeout w).
Proof.
  apply (preserves_weaken beyond_sockets (fun v => v.2)).
  apply waitForAcknowledgments_beyond.
Qed.

Lemma handle_all_pool evs s : pool (handle_all evs s) = pool s.
Proof.
  apply (preserves_weaken beyond_sockets (fun v => v.2)
           (effect (handle_all evs))).
  apply handle_all_effect_beyond.
Qed.

(** *** The registry and the acknowledgment sets *)

Lemma sendPhase_apps phase st : keeps apps (sendPhase phase st).
Proof.
  apply (preserves_weaken beyond_output (fun v => v.1.1.1.1)).
  apply sendPhase_beyond.
Qed.

Lemma sendPhase_acknowledgments phase st :
  keeps acknowledgments (sendPhase phase st).
Proof.
  apply (preserves_weaken beyond_output (fun v => v.1.1.2)).
  apply sendPhase_beyond.
Qed.

Lemma set_status_apps st : keeps apps (set_status st).
Proof.
  apply (preserves_weaken beyond_status (fun v => v.1.1.1.1.1.1)).
  apply set_status_beyond.
Qed.

Lemma set_status_acknowledgments st : keeps acknowledgments (set_status st).
Proof.
  apply (preserves_weaken beyond_status (fun v => v.1.1.1.1.2)).
  apply set_status_beyond.
Qed.

Lemma executeMigrations_apps f statements :
  keeps apps (executeMigrations run_stmt control f statements).
Proof.
  apply (preserves_weaken beyond_database (fun v => v.1.1.1.1)).
  apply executeMigrations_beyond.
Qed.

Lemma executeMigrations_acknowledgments f statements :
  keeps acknowledgments (executeMigrations run_stmt control f statements).
Proof.
  apply (preserves_weaken beyond_database (fun v => v.1.1.2)).
  apply executeMigrations_beyond.
Qed.

(** ** The shape of a run *)

Lemma seq_run {A} (m : M unit) (k : M A) s :
  seq m k s =
  match fst (m s) with
  | Ret _ => k (snd (m s))
  | Throw e => (Throw e, snd (m s))
  end.
Proof. unfold seq, bind. destruct (m s) as [[u|e] s']; reflexivity. Qed.

Lemma bind_run {A B} (m : M A) (k : A -> M B) s :
  bind m k s =
  match fst (m s) with
  | Ret a => k a (snd (m s))
  | Throw e => (Throw e, snd (m s))
  end.
Proof. unfold bind. destruct (m s) as [[u|e] s']; reflexivity. Qed.

Lemma try_catch_run {A} (body : M A) (handler : Thrown -> M A) s :
  try_catch body handler s =
  match fst (body s) with
  | Ret a => (Ret a, snd (body s))
  | Throw e => handler e (snd (body s))
  end.
Proof. unfold try_catch. destruct (body s) as [[u|e] s']; reflexivity. Qed.

Lemma current_id_Some s i :
  current_id s = Some i -> exists m, currentMigration s = Some m /\ id m = i.
Proof.
  unfold current_id. destruct (currentMigration s) as [m|]; simpl; [|discriminate].
  intro H. injection H as H. eauto.
Qed.

Lemma sendPhase_returns phase st s i :
  current_id s = Some i -> fst (sendPhase phase st s) = Ret tt.
Proof.
  intro H. apply current_id_Some in H as (m & Hm & _).
  rewrite (sendPhase_Some _ _ _ _ Hm). reflexivity.
Qed.

Lemma set_status_returns st s i :
  current_id s = Some i -> fst (set_status st s) = Ret tt.
Proof.
  intro H. apply current_id_Some in H as (m & Hm & _).
  rewrite (set_status_Some _ _ _ Hm). reflexivity.
Qed.

Lemma set_completedAt_returns s i :
  current_id s = Some i -> fst (set_completedAt s) = Ret tt.
Proof.
  intro H. apply current_id_Some in H as (m & Hm & _).
  unfold set_completedAt. rewrite Hm. reflexivity.
Qed.

Lemma rollback_run reason s i :
  current_id s = Some i ->
  rollback reason s =
    (Ret tt,
     snd (sendPhase Phase.ROLLBACK None
            (set_currentMigration (fmap (with_status MigrationStatus.FAILED))
               (console_log (LogRollingBack reason) s)))).
Proof.
  intro H. unfold rollback. rewrite !seq_run. simpl.
  assert (Hid : current_id
            (set_currentMigration (fmap (with_status MigrationStatus.FAILED))
               (console_log (LogRollingBack reason) s)) = Some i).
  { apply current_id_Some in H as (m & Hm & Hi).
    unfold current_id. simpl. rewrite Hm. simpl. congruence. }
  pose proof (sendPhase_returns Phase.ROLLBACK None _ _ Hid) as Hr.
  destruct (sendPhase Phase.ROLLBACK None _) as [r s']. simpl in *.
  rewrite Hr. reflexivity.
Qed.

Lemma complete_run migration s i :
  current_id s = Some i ->
  complete migration s =
    (Ret tt,
     console_log (LogCompleted (name migration))
       (snd (sendPhase Phase.CONFIRM None
               (snd (set_completedAt
                       (snd (set_status MigrationStatus.COMPLETED s))))))).
Proof.
  intro H. unfold complete.
  rewrite seq_run, (set_status_returns _ _ _ H).
  assert (H1 : current_id (snd (set_status MigrationStatus.COMPLETED s)) = Some i)
    by (rewrite set_status_current_id; exact H).
  rewrite seq_run, (set_completedAt_returns _ _ H1).
  assert (H2 : current_id
                 (snd (set_completedAt
                         (snd (set_status MigrationStatus.COMPLETED s)))) = Some i)
    by (rewrite set_completedAt_current_id; exact H1).
  rewrite seq_run, (sendPhase_returns _ _ _ _ H2).
  reflexivity.
Qed.

Lemma announcing_eq migration s :
  announcing migration s =
  broadcast
    {| msg_phase := Phase.ANNOUNCE; msg_migrationId := id migration;
       msg_status := None; msg_timestamp := now s |}
    (console_log (LogBroadcasting Phase.ANNOUNCE None)
       (console_log (LogStarting (name migration))
          (set_currentMigration
             (fun _ => Some (with_startedAt (now s)
                               (with_status MigrationStatus.ANNOUNCING migration)))
             s))).
Proof. reflexivity. Qed.

(** The identifier of the migration at each point of observation. *)
Lemma announcing_id migration s :
  current_id (announcing migration s) = Some (id migration).
Proof.
  rewrite announcing_eq.
  pose proof (broadcast_beyond
    {| msg_phase := Phase.ANNOUNCE; msg_migrationId := id migration;
       msg_status := None; msg_timestamp := now s |}
    (console_log (LogBroadcasting Phase.ANNOUNCE None)
       (console_log (LogStarting (name migration))
          (set_currentMigration
             (fun _ => Some (with_startedAt (now s)
                               (with_status MigrationStatus.ANNOUNCING migration)))
             s)))) as H.
  unfold beyond_output in H. unfold current_id.
  injection H as _ H _ _ _. rewrite H. reflexivity.
Qed.

Lemma announce_outcome_id migration env s :
  current_id (snd (announce_outcome migration env s)) = Some (id migration).
Proof.
  unfold announce_outcome. rewrite wait_current_id. apply announcing_id.
Qed.

Lemma executing_eq migration env s :
  executing migration env s =
  handle_all (exec_events env)
    (snd (sendPhase Phase.EXECUTE (Some ExecStatus.RUNNING)
            (snd (set_status MigrationStatus.EXECUTING
                    (snd (announce_outcome migration env s)))))).
Proof.
  unfold executing.
  pose proof (announce_outcome_id migration env s) as H.
  rewrite seq_run, (set_status_returns _ _ _ H).
  assert (H1 : current_id (snd (set_status MigrationStatus.EXECUTING
                 (snd (announce_outcome migration env s)))) = Some (id migration))
    by (rewrite set_status_current_id; exact H).
  rewrite seq_run, (sendPhase_returns _ _ _ _ H1).
  reflexivity.
Qed.

Lemma executing_id migration env s :
  current_id (executing migration env s) = Some (id migration).
Proof.
  rewrite executing_eq.
  rewrite handle_all_current_id.
  rewrite sendPhase_current_id, set_status_current_id.
  apply announce_outcome_id.
Qed.

Lemma executor_outcome_id migration env s :
  current_id (snd (executor_outcome run_stmt control migration env s)) = Some (id migration).
Proof.
  unfold executor_outcome. rewrite executeMigrations_current_id.
  apply executing_id.
Qed.

Lemma applying_eq migration env s :
  applying run_stmt control migration env s =
  snd (sendPhase Phase.APPLY None
         (snd (set_status MigrationStatus.APPLYING
                 (snd (sendPhase Phase.EXECUTE (Some ExecStatus.COMPLETED)
                         (snd (executor_outcome run_stmt control migration env s))))))).
Proof.
  unfold applying.
  pose proof (executor_outcome_id migration env s) as H.
  rewrite seq_run, (sendPhase_returns _ _ _ _ H).
  assert (H1 : current_id
                 (snd (sendPhase Phase.EXECUTE (Some ExecStatus.COMPLETED)
                         (snd (executor_outcome run_stmt control migration env s))))
               = Some (id migration))
    by (rewrite sendPhase_current_id; exact H).
  rewrite seq_run, (set_status_returns _ _ _ H1).
  reflexivity.
Qed.

Lemma applying_id migration env s :
  current_id (applying run_stmt control migration env s) = Some (id migration).
Proof.
  rewrite applying_eq.
  rewrite sendPhase_current_id, set_status_current_id, sendPhase_current_id.
  apply executor_outcome_id.
Qed.

Lemma apply_outcome_id migration env s :
  current_id (snd (apply_outcome run_stmt control migration env s)) = Some (id migration).
Proof.
  unfold apply_outcome. rewrite wait_current_id. apply applying_id.
Qed.

Lemma seq_effect {A} (f : State -> State) (k : M A) s :
  seq (effect f) k s = k (f s).
Proof. reflexivity. Qed.

(** A run of [startMigration], by cases on the outcomes of its three
    suspensions. *)
Lemma startMigration_eq migration env s :
  startMigration run_stmt control migration env s =
  match fst (announce_outcome migration env s) with
  | Throw e => rollback (Caught e) (snd (announce_outcome migration env s))
  | Ret _ =>
      match fst (executor_outcome run_stmt control migration env s) with
      | Throw e =>
          rollback (Caught e) (snd (executor_outcome run_stmt control migration env s))
      | Ret result =>
          if success result then
            match fst (apply_outcome run_stmt control migration env s) with
            | Throw e =>
                rollback (Caught e)
                  (snd (apply_outcome run_stmt control migration env s))
            | Ret _ =>
                complete migration (snd (apply_outcome run_stmt control migration env s))
            end
          else
            rollback (ExecutionFailed (error result))
              (snd (executor_outcome run_stmt control migration env s))
      end
  end.
Proof.
  unfold startMigration. rewrite seq_effect. unfold try_catch.
  rewrite seq_effect, seq_run.
  change (sendPhase Phase.ANNOUNCE None _)
    with (Ret tt : Outcome unit, announcing migration s).
  cbn [fst snd].
  rewrite seq_run.
  change (waitForAcknowledgments Phase.ANNOUNCE phase_timeout
            (announce_wait env) (announcing migration s))
    with (announce_outcome migration env s).
  pose proof (announce_outcome_id migration env s) as Ha.
  destruct (fst (announce_outcome migration env s)) as [[]|e]; [|reflexivity].
  rewrite seq_run, (set_status_returns _ _ _ Ha).
  assert (H1 : current_id (snd (set_status MigrationStatus.EXECUTING
                 (snd (announce_outcome migration env s)))) = Some (id migration))
    by (rewrite set_status_current_id; exact Ha).
  rewrite seq_run, (sendPhase_returns _ _ _ _ H1).
  rewrite seq_effect, <- executing_eq, bind_run.
  change (executeMigrations run_stmt control (faults env) (sql migration)
            (executing migration env s))
    with (executor_outcome run_stmt control migration env s).
  pose proof (executor_outcome_id migration env s) as He.
  destruct (fst (executor_outcome run_stmt control migration env s)) as [result|e];
    [|reflexivity].
  destruct (success result); cbn [negb].
  - rewrite seq_run, (sendPhase_returns _ _ _ _ He).
    assert (H2 : current_id
                   (snd (sendPhase Phase.EXECUTE (Some ExecStatus.COMPLETED)
                           (snd (executor_outcome run_stmt control migration env s))))
                 = Some (id migration))
      by (rewrite sendPhase_current_id; exact He).
    rewrite seq_run, (set_status_returns _ _ _ H2).
    assert (H3 : current_id
                   (snd (set_status MigrationStatus.APPLYING
                      (snd (sendPhase Phase.EXECUTE (Some ExecStatus.COMPLETED)
                           (snd (executor_outcome run_stmt control migration env s))))))
                 = Some (id migration))
      by (rewrite set_status_current_id; exact H2).
    rewrite seq_run, (sendPhase_returns _ _ _ _ H3).
    rewrite <- applying_eq, seq_run.
    change (waitForAcknowledgments Phase.APPLY phase_timeout
              (apply_wait env) (applying run_stmt control migration env s))
      with (apply_outcome run_stmt control migration env s).
    pose proof (apply_outcome_id migration env s) as Hp.
    destruct (fst (apply_outcome run_stmt control migration env s)) as [[]|e];
      [|reflexivity].
    fold (@complete DB migration).
    rewrite (complete_run _ _ _ Hp). reflexivity.
  - rewrite (rollback_run _ _ _ He). reflexivity.
Qed.

(** ** The executor and the database *)

Lemma try_finally_effect {A} (body : M A) (f : State -> State) s :
  try_finally body (effect f) s = (fst (body s), f (snd (body s))).
Proof. unfold try_finally, effect. destruct (body s); reflexivity. Qed.

Lemma server_counters c (p : Database) :
  connects (fst (server run_stmt control c p)) = connects p /\
  leased (fst (server run_stmt control c p)) = leased p /\
  history (fst (server run_stmt control c p)) = history p.
Proof.
  unfold server, transact, execute.
  destruct c as [| | |q]; [| | |destruct (control q) as [[]|]];
    destruct (tx p) as [|w|]; simpl; auto;
    destruct (run_stmt q _); simpl; auto.
Qed.

Lemma client_query_counters f c :
  keeps pool_counters (client_query run_stmt control f c).
Proof.
  intro s. unfold client_query, pool_counters.
  destruct (query_fault f _); [reflexivity|].
  pose proof (server_counters c (record_query c (pool s))) as (H1 & H2 & _).
  destruct (server run_stmt control c _) as [p [e|]]; simpl in *; congruence.
Qed.

Lemma client_query_history f c s :
  history (pool (snd (client_query run_stmt control f c s))) = history (pool s) ++ [c].
Proof.
  unfold client_query.
  destruct (query_fault f _); [reflexivity|].
  pose proof (server_counters c (record_query c (pool s))) as (_ & _ & H).
  destruct (server run_stmt control c _) as [p [e|]]; simpl in *; exact H.
Qed.

(** A rollback never changes what is committed. *)
Lemma client_query_ROLLBACK f s :
  committed (pool (snd (client_query run_stmt control f Sql.ROLLBACK s)))
  = committed (pool s).
Proof.
  unfold client_query. destruct (query_fault f _); reflexivity.
Qed.

Lemma client_query_BEGIN f s :
  tx (pool s) = Idle ->
  committed (pool (snd (client_query run_stmt control f Sql.BEGIN s)))
  = committed (pool s) /\
  (fst (client_query run_stmt control f Sql.BEGIN s) = Ret tt ->
   tx (pool (snd (client_query run_stmt control f Sql.BEGIN s)))
   = InTx (committed (pool s))).
Proof.
  intro Htx. unfold client_query.
  destruct (query_fault f _); simpl; [split; [reflexivity|discriminate]|].
  unfold transact; simpl. rewrite Htx. simpl. auto.
Qed.

Lemma client_query_Stmt f q s w :
  control q = None ->
  tx (pool s) = InTx w ->
  committed (pool (snd (client_query run_stmt control f (Sql.Stmt q) s)))
  = committed (pool s) /\
  (fst (client_query run_stmt control f (Sql.Stmt q) s) = Ret tt ->
   exists w', run_stmt q w = inl w' /\
     tx (pool (snd (client_query run_stmt control f (Sql.Stmt q) s))) = InTx w').
Proof.
  intros Hq Htx. unfold client_query.
  destruct (query_fault f _); simpl; [split; [reflexivity|discriminate]|].
  rewrite Hq. unfold execute; simpl. rewrite Htx.
  destruct (run_stmt q w) as [w'|e]; simpl; [eauto|].
  split; [reflexivity|discriminate].
Qed.

Lemma client_query_COMMIT f s w :
  tx (pool s) = InTx w ->
  match fst (client_query run_stmt control f Sql.COMMIT s) with
  | Ret _ =>
      committed (pool (snd (client_query run_stmt control f Sql.COMMIT s))) = w /\
      tx (pool (snd (client_query run_stmt control f Sql.COMMIT s))) = Idle
  | Throw _ =>
      committed (pool (snd (client_query run_stmt control f Sql.COMMIT s)))
      = committed (pool s)
  end.
Proof.
  intro Htx. unfold client_query.
  destruct (query_fault f _); simpl; [reflexivity|].
  unfold transact; simpl. rewrite Htx. simpl. auto.
Qed.

(** The loop over the statements, inside an open transaction: nothing is
    committed, and when the loop ends normally every statement was applied,
    in order, to the working copy. *)
Lemma statements_in_transaction f statements s w :
  ordinary control statements ->
  tx (pool s) = InTx w ->
  let r :=
    for_each statements (fun query =>
      seq (effect (console_log (LogExecuting query)))
          (client_query run_stmt control f (Sql.Stmt query))) s in
  committed (pool (snd r)) = committed (pool s) /\
  (fst r = Ret tt ->
   exists w', run_all run_stmt statements w = inl w' /\
              tx (pool (snd r)) = InTx w').
Proof.
  intro Hord. revert s w.
  induction statements as [|q statements IH]; intros s w Htx; simpl.
  - split; [reflexivity|]. intros _. eauto.
  - apply Forall_cons in Hord as [Hq0 Hord].
    rewrite seq_run, seq_effect.
    set (s1 := console_log (LogExecuting q) s).
    assert (Htx1 : tx (pool s1) = InTx w) by exact Htx.
    pose proof (client_query_Stmt f q s1 w Hq0 Htx1) as [Hc Hr].
    destruct (fst (client_query run_stmt control f (Sql.Stmt q) s1)) as [[]|e] eqn:Hq.
    + destruct (Hr eq_refl) as (w' & Hw & Htx').
      specialize (IH Hord _ _ Htx'). simpl in IH. destruct IH as [IHc IHr].
      rewrite Hw. split; [rewrite IHc, Hc; reflexivity | exact IHr].
    + simpl. split; [rewrite Hc; reflexivity | discriminate].
Qed.

Lemma executeMigrations_eq f statements :
  executeMigrations run_stmt control f statements =
  seq (pool_connect f)
    (try_finally
       (try_catch (try_block run_stmt control f statements) (catch_block run_stmt control f))
       client_release).
Proof. reflexivity. Qed.

(** The [try] block, from an idle session: it ends normally only with
    every statement applied in order and committed; when it throws, nothing
    is committed. *)
Lemma try_block_general f statements s :
  ordinary control statements ->
  tx (pool s) = Idle ->
  let r := try_block run_stmt control f statements s in
  match fst r with
  | Ret res =>
      res = {| success := true; error := None |} /\
      run_all run_stmt statements (committed (pool s))
      = inl (committed (pool (snd r))) /\
      tx (pool (snd r)) = Idle
  | Throw _ => committed (pool (snd r)) = committed (pool s)
  end.
Proof.
  intros Hord Htx. unfold try_block. cbv zeta.
  rewrite seq_run.
  pose proof (client_query_BEGIN f s Htx) as [Hc Hb].
  destruct (fst (client_query run_stmt control f Sql.BEGIN s)) as [[]|e]; [|exact Hc].
  specialize (Hb eq_refl).
  rewrite seq_effect, seq_run.
  set (s1 := console_log LogStartingMigrations
               (snd (client_query run_stmt control f Sql.BEGIN s))).
  assert (Htx1 : tx (pool s1) = InTx (committed (pool s))) by exact Hb.
  pose proof (statements_in_transaction f statements s1 _ Hord Htx1)
    as [Hlc Hlr].
  cbv zeta in Hlc, Hlr.
  destruct (fst (for_each statements _ s1)) as [[]|e].
  - destruct (Hlr eq_refl) as (w' & Hw & Htx2).
    rewrite seq_run.
    pose proof (client_query_COMMIT f _ w' Htx2) as Hcm.
    destruct (fst (client_query run_stmt control f Sql.COMMIT _)) as [[]|e].
    + simpl. destruct Hcm as [Hcw Hci]. rewrite Hcw. auto.
    + simpl. rewrite Hcm, Hlc. exact Hc.
  - simpl. rewrite Hlc. exact Hc.
Qed.

Lemma catch_block_general f error s :
  let r := catch_block run_stmt control f error s in
  committed (pool (snd r)) = committed (pool s) /\
  (forall res, fst r = Ret res ->
     res = {| success := false; error := Some error |}).
Proof.
  unfold catch_block. cbv zeta. rewrite seq_run.
  pose proof (client_query_ROLLBACK f s) as Hc.
  destruct (fst (client_query run_stmt control f Sql.ROLLBACK s)) as [[]|e]; simpl.
  - split; [exact Hc|]. intros res H. injection H as <-. reflexivity.
  - split; [exact Hc|]. discriminate.
Qed.

Lemma pool_connect_counters f s :
  connects (pool (snd (pool_connect f s))) = S (connects (pool s)) /\
  match fst (pool_connect f s) with
  | Ret _ => leased (pool (snd (pool_connect f s))) = S (leased (pool s))
  | Throw _ => leased (pool (snd (pool_connect f s))) = leased (pool s)
  end /\
  committed (pool (snd (pool_connect f s))) = committed (pool s) /\
  tx (pool (snd (pool_connect f s))) = tx (pool s) /\
  history (pool (snd (pool_connect f s))) = history (pool s).
Proof. unfold pool_connect. destruct (connect_fault f); simpl; auto. Qed.

Lemma transaction_counters f statements :
  keeps pool_counters
    (try_catch (try_block run_stmt control f statements) (catch_block run_stmt control f)).
Proof.
  apply preserves_try_catch.
  - unfold try_block.
    apply preserves_seq; [apply client_query_counters|].
    apply preserves_seq; [apply preserves_effect; reflexivity|].
    apply preserves_seq.
    + apply preserves_for_each. intro q.
      apply preserves_seq;
        [apply preserves_effect; reflexivity | apply client_query_counters].
    + apply preserves_seq; [apply client_query_counters | apply preserves_ret].
  - intro e. unfold catch_block.
    apply preserves_seq; [apply client_query_counters | apply preserves_ret].
Qed.

(** One call of the executor is one call of [pool.connect], and the client
    it acquires is released whatever happens. *)
Lemma executeMigrations_counters f statements s :
  connects (pool (snd (executeMigrations run_stmt control f statements s)))
  = S (connects (pool s)) /\
  leased (pool (snd (executeMigrations run_stmt control f statements s)))
  = leased (pool s).
Proof.
  rewrite executeMigrations_eq, seq_run.
  pose proof (pool_connect_counters f s) as (Hc & Hl & _).
  destruct (fst (pool_connect f s)) as [[]|e]; [|simpl; auto].
  unfold client_release. rewrite try_finally_effect. simpl.
  pose proof (transaction_counters f statements (snd (pool_connect f s))) as H.
  unfold pool_counters in H. injection H as H1 H2.
  rewrite H1, H2, Hc, Hl. auto.
Qed.

(** Whatever the faults, the executor changes what is committed only by
    committing every statement, and then reports success. *)
Lemma executeMigrations_general f statements s :
  ordinary control statements ->
  tx (pool s) = Idle ->
  let r := executeMigrations run_stmt control f statements s in
  match fst r with
  | Ret res =>
      if success res
      then run_all run_stmt statements (committed (pool s))
           = inl (committed (pool (snd r))) /\ error res = None
      else committed (pool (snd r)) = committed (pool s) /\
           is_Some (error res)
  | Throw _ => committed (pool (snd r)) = committed (pool s)
  end.
Proof.
  intros Hord Htx. cbv zeta. rewrite executeMigrations_eq, seq_run.
  pose proof (pool_connect_counters f s) as (_ & _ & Hc & Ht & _).
  destruct (fst (pool_connect f s)) as [[]|e]; [|exact Hc].
  unfold client_release. rewrite try_finally_effect. cbn [fst snd].
  rewrite try_catch_run.
  set (s1 := snd (pool_connect f s)) in *.
  assert (Htx1 : tx (pool s1) = Idle) by (rewrite Ht; exact Htx).
  pose proof (try_block_general f statements s1 Hord Htx1) as Hb.
  cbv zeta in Hb.
  destruct (fst (try_block run_stmt control f statements s1)) as [res|e].
  - destruct Hb as (-> & Hrun & _). simpl. rewrite <- Hc. auto.
  - pose proof (catch_block_general f e
                  (snd (try_block run_stmt control f statements s1))) as [Hcc Hcr].
    cbv zeta in Hcc, Hcr.
    destruct (fst (catch_block run_stmt control f e _)) as [res|e'] eqn:Hk; simpl.
    + rewrite (Hcr res eq_refl). simpl. rewrite Hcc, Hb. eauto.
    + rewrite Hcc, Hb. exact Hc.
Qed.

(** *** Without connection faults *)

Lemma sound_Stmt q s w :
  control q = None ->
  tx (pool s) = InTx w ->
  match run_stmt q w with
  | inl w' =>
      fst (client_query run_stmt control no_faults (Sql.Stmt q) s) = Ret tt /\
      tx (pool (snd (client_query run_stmt control no_faults (Sql.Stmt q) s))) = InTx w'
  | inr e =>
      fst (client_query run_stmt control no_faults (Sql.Stmt q) s) = Throw (DbError e)
  end.
Proof.
  intros Hq Htx. unfold client_query, server, execute. simpl.
  rewrite Hq, Htx.
  destruct (run_stmt q w); simpl; auto.
Qed.

Lemma sound_statements statements s w :
  ordinary control statements ->
  tx (pool s) = InTx w ->
  let r :=
    for_each statements (fun query =>
      seq (effect (console_log (LogExecuting query)))
          (client_query run_stmt control no_faults (Sql.Stmt query))) s in
  match run_all run_stmt statements w with
  | inl w' =>
      fst r = Ret tt /\ tx (pool (snd r)) = InTx w' /\
      history (pool (snd r)) = history (pool s) ++ map Sql.Stmt statements
  | inr e =>
      fst r = Throw (DbError e) /\
      exists k, k < length statements /\
        history (pool (snd r))
        = history (pool s) ++ map Sql.Stmt (take (S k) statements)
  end.
Proof.
  intro Hord. revert s w.
  induction statements as [|q statements IH]; intros s w Htx; simpl.
  - rewrite app_nil_r. auto.
  - apply Forall_cons in Hord as [Hq0 Hord].
    rewrite seq_run, seq_effect.
    set (s1 := console_log (LogExecuting q) s).
    assert (Htx1 : tx (pool s1) = InTx w) by exact Htx.
    pose proof (sound_Stmt q s1 w Hq0 Htx1) as Hq.
    pose proof (client_query_history no_faults (Sql.Stmt q) s1) as Hh.
    change (history (pool s1)) with (history (pool s)) in Hh.
    destruct (run_stmt q w) as [w'|e].
    + destruct Hq as [Hr Htx']. rewrite Hr.
      specialize (IH Hord _ _ Htx'). cbv zeta in IH.
      destruct (run_all run_stmt statements w') as [w''|e].
      * destruct IH as (H1 & H2 & H3). repeat split; [exact H1|exact H2|].
        rewrite H3, Hh, <- app_assoc. reflexivity.
      * destruct IH as (H1 & k & Hk & H3). split; [exact H1|].
        exists (S k). split; [lia|].
        rewrite H3, Hh, <- app_assoc. reflexivity.
    + rewrite Hq. simpl. split; [reflexivity|].
      exists 0. split; [lia|]. rewrite take_0. exact Hh.
Qed.

Lemma sound_try_block statements s :
  ordinary control statements ->
  tx (pool s) = Idle ->
  let r := try_block run_stmt control no_faults statements s in
  match run_all run_stmt statements (committed (pool s)) with
  | inl d =>
      fst r = Ret {| success := true; error := None |} /\
      committed (pool (snd r)) = d /\ tx (pool (snd r)) = Idle /\
      history (pool (snd r))
      = history (pool s)
        ++ Sql.BEGIN :: map Sql.Stmt statements ++ [Sql.COMMIT]
  | inr e =>
      fst r = Throw (DbError e) /\
      committed (pool (snd r)) = committed (pool s) /\
      exists k, k < length statements /\
        history (pool (snd r))
        = history (pool s) ++ Sql.BEGIN :: map Sql.Stmt (take (S k) statements)
  end.
Proof.
  intros Hord Htx. cbv zeta. unfold try_block. rewrite seq_run.
  assert (Hb : client_query run_stmt control no_faults Sql.BEGIN s
               = (Ret tt, set_pool (fun _ =>
                    set_tx (committed (pool s)) (InTx (committed (pool s)))
                      (record_query Sql.BEGIN (pool s))) s)).
  { unfold client_query, server, transact. simpl. rewrite Htx. reflexivity. }
  rewrite Hb. cbn [fst snd]. rewrite seq_effect, seq_run.
  set (s2 := console_log LogStartingMigrations _).
  assert (Htx2 : tx (pool s2) = InTx (committed (pool s))) by reflexivity.
  pose proof (sound_statements statements s2 _ Hord Htx2) as Hl.
  cbv zeta in Hl.
  pose proof (statements_in_transaction no_faults statements s2 _ Hord Htx2)
    as [Hlc _]. cbv zeta in Hlc.
  assert (Hh2 : history (pool s2) = history (pool s) ++ [Sql.BEGIN]) by reflexivity.
  destruct (run_all run_stmt statements (committed (pool s))) as [d|e].
  - destruct Hl as (Hr & Htx3 & Hh). rewrite Hr.
    set (s3 := snd (for_each statements _ s2)) in *.
    rewrite seq_run.
    assert (Hc : client_query run_stmt control no_faults Sql.COMMIT s3
                 = (Ret tt, set_pool (fun _ =>
                      set_tx d Idle (record_query Sql.COMMIT (pool s3))) s3)).
    { unfold client_query, server, transact. simpl. rewrite Htx3.
      reflexivity. }
    rewrite Hc. simpl. repeat split.
    rewrite Hh, Hh2, <- !app_assoc. reflexivity.
  - destruct Hl as (Hr & k & Hk & Hh). rewrite Hr. cbn [fst snd].
    repeat split; [exact Hlc|].
    exists k. split; [exact Hk|].
    rewrite Hh, Hh2, <- !app_assoc. reflexivity.
Qed.

(** Without connection faults the statements alone decide the result. *)
Lemma executeMigrations_sound statements s :
  ordinary control statements ->
  tx (pool s) = Idle ->
  let r := executeMigrations run_stmt control no_faults statements s in
  tx (pool (snd r)) = Idle /\
  match run_all run_stmt statements (committed (pool s)) with
  | inl d =>
      fst r = Ret {| success := true; error := None |} /\
      committed (pool (snd r)) = d /\
      history (pool (snd r))
      = history (pool s)
        ++ Sql.BEGIN :: map Sql.Stmt statements ++ [Sql.COMMIT]
  | inr e =>
      fst r = Ret {| success := false; error := Some (DbError e) |} /\
      committed (pool (snd r)) = committed (pool s) /\
      exists k, k < length statements /\
        history (pool (snd r))
        = history (pool s)
          ++ Sql.BEGIN :: map Sql.Stmt (take (S k) statements) ++ [Sql.ROLLBACK]
  end.
Proof.
  intros Hord Htx. cbv zeta.
  rewrite executeMigrations_eq, seq_run.
  cbn [pool_connect no_faults connect_fault fst snd].
  unfold client_release. rewrite try_finally_effect. cbn [fst snd].
  rewrite try_catch_run.
  set (s1 := set_pool _ s).
  assert (Htx1 : tx (pool s1) = Idle) by exact Htx.
  pose proof (sound_try_block statements s1 Hord Htx1) as Hb.
  cbv zeta in Hb.
  change (committed (pool s1)) with (committed (pool s)) in Hb.
  change (history (pool s1)) with (history (pool s)) in Hb.
  destruct (run_all run_stmt statements (committed (pool s))) as [d|e].
  - destruct Hb as (Hr & Hc & Ht & Hh). rewrite Hr. simpl. auto.
  - destruct Hb as (Hr & Hc & k & Hk & Hh). rewrite Hr.
    set (s3 := snd (try_block run_stmt control no_faults statements s1)) in *.
    unfold catch_block. rewrite seq_run.
    assert (Hq : client_query run_stmt control no_faults Sql.ROLLBACK s3
                 = (Ret tt, set_pool (fun _ =>
                      set_tx (committed (pool s3)) Idle
                        (record_query Sql.ROLLBACK (pool s3))) s3)).
    { unfold client_query, server, transact. simpl.
      destruct (tx (pool s3)); reflexivity. }
    rewrite Hq. simpl. repeat split; [exact Hc|].
    exists k. split; [exact Hk|].
    rewrite Hh, <- !app_assoc. reflexivity.
Qed.

(** ** The polling wait *)

Lemma after_firings_cons evs slots s :
  after_firings (evs :: slots) s
  = after_firings slots (elapse poll_period (handle_all evs s)).
Proof. reflexivity. Qed.

(** The wait resolves exactly when some firing of the interval finds as
    many acknowledgments as registered sockets. *)
Lemma poll_resolves_iff phase deadline slots last s :
  fst (poll phase deadline slots last s) = Ret tt <->
  exists k, k < length slots /\
    quorum phase (after_firings (take (S k) slots) s) = true.
Proof.
  revert s. induction slots as [|evs slots IH]; intro s; simpl.
  - split; [discriminate|]. intros (k & Hk & _). lia.
  - destruct (quorum phase (elapse poll_period (handle_all evs s))) eqn:Hq.
    + split; [|reflexivity]. intros _. exists 0. split; [lia|].
      rewrite take_0. exact Hq.
    + rewrite IH. split.
      * intros (k & Hk & Hquo). exists (S k). split; [lia|]. exact Hquo.
      * intros ([|k] & Hk & Hquo).
        -- rewrite take_0 in Hquo. simpl in Hquo. congruence.
        -- exists k. split; [lia|]. exact Hquo.
Qed.

Lemma poll_resolved phase deadline slots last s :
  fst (poll phase deadline slots last s) = Ret tt ->
  quorum phase (snd (poll phase deadline slots last s)) = true.
Proof.
  revert s. induction slots as [|evs slots IH]; intro s; simpl; [discriminate|].
  destruct (quorum phase (elapse poll_period (handle_all evs s))) eqn:Hq.
  - intros _. exact Hq.
  - apply IH.
Qed.

Lemma poll_rejects phase deadline slots last s e :
  fst (poll phase deadline slots last s) = Throw e ->
  e = Timeout (ack_count phase (snd (poll phase deadline slots last s)))
              (size (apps (snd (poll phase deadline slots last s)))) phase.
Proof.
  revert s. induction slots as [|evs slots IH]; intro s; simpl.
  - intro H. injection H as <-. reflexivity.
  - destruct (quorum phase (elapse poll_period (handle_all evs s))).
    + discriminate.
    + apply IH.
Qed.

Lemma quorum_counts phase s :
  quorum phase s = true -> ack_count phase s = size (apps s).
Proof.
  unfold quorum, ack_count.
  destruct (acknowledgments s !! phase); [|discriminate].
  intro H. apply bool_decide_eq_true in H. exact H.
Qed.

Lemma wait_resolved phase timeout w s :
  fst (waitForAcknowledgments phase timeout w s) = Ret tt ->
  quorum phase (snd (waitForAcknowledgments phase timeout w s)) = true.
Proof. unfold waitForAcknowledgments. apply poll_resolved. Qed.

(** A socket that closes leaves the registry and no acknowledgment set. *)
Lemma close_lowers_count a s :
  is_Some (apps s !! a) ->
  size (apps (handle (EvClose a) s)) = pred (size (apps s)) /\
  acknowledgments (handle (EvClose a) s) = acknowledgments s.
Proof.
  intros [r Hr]. simpl. rewrite Hr. simpl. split; [|reflexivity].
  apply map_size_delete_Some. eauto.
Qed.

(** A socket that connects enters the registry and no acknowledgment
    set. *)
Lemma connection_raises_count a s :
  apps s !! a = None ->
  size (apps (handle (EvConnection a) s)) = S (size (apps s)) /\
  acknowledgments (handle (EvConnection a) s) = acknowledgments s.
Proof.
  intro Ha. simpl. split; [|reflexivity].
  apply map_size_insert_None. exact Ha.
Qed.

(** C1 (as amended): the number of acknowledgments a wait requires is not
    fixed when the wait starts.  Every firing of the interval compares the
    size of the acknowledgment set of the phase with the number of sockets
    registered at that firing, and the wait resolves exactly when one firing
    finds them equal.  A participant that disconnects during the wait leaves
    the registry, so that the number required drops by one: when all
    registered participants but one have acknowledged and one disconnects,
    the test of the next firing succeeds.  The firings of a wait are those
    that are due before its timeout, which is created first and comes
    first when both are due at the same time. *)
Theorem wait_requires_live_count phase timeout w s :
  let slots := slots_of timeout w in
  let s0 := set_acknowledgments (insert phase (∅ : gset string)) s in
  let r := waitForAcknowledgments phase timeout w s in
  (fst r = Ret tt <->
   exists k, k < length slots /\
     quorum phase (after_firings (take (S k) slots) s0) = true) /\
  (fst r = Ret tt -> ack_count phase (snd r) = size (apps (snd r))) /\
  (forall a s1, is_Some (apps s1 !! a) ->
     size (apps (handle (EvClose a) s1)) = pred (size (apps s1)) /\
     acknowledgments (handle (EvClose a) s1) = acknowledgments s1 /\
     (is_Some (acknowledgments s1 !! phase) ->
      S (ack_count phase s1) = size (apps s1) ->
      quorum phase (handle (EvClose a) s1) = true)).
Proof.
  cbv zeta. split; [|split].
  - unfold waitForAcknowledgments. apply poll_resolves_iff.
  - intro H. apply quorum_counts, wait_resolved, H.
  - intros a s1 Ha.
    destruct (close_lowers_count a s1 Ha) as [Hsize Hacks].
    split; [exact Hsize|]. split; [exact Hacks|].
    unfold quorum, ack_count. rewrite Hacks, Hsize.
    intros [acks ->] Hone. apply bool_decide_eq_true. lia.
Qed.

(** ** The two ends of a run *)

Lemma broadcast_view message s :
  apps (broadcast message s) = apps s /\
  currentMigration (broadcast message s) = currentMigration s /\
  acknowledgments (broadcast message s) = acknowledgments s /\
  now (broadcast message s) = now s /\
  pool (broadcast message s) = pool s.
Proof.
  pose proof (broadcast_beyond message s) as H. unfold beyond_output in H.
  injection H as H1 H2 H3 H4 H5. auto.
Qed.

Lemma rollback_facts reason s i :
  current_id s = Some i ->
  fst (rollback reason s) = Ret tt /\
  observed_status (snd (rollback reason s)) = Some MigrationStatus.FAILED /\
  current_id (snd (rollback reason s)) = Some i /\
  pool (snd (rollback reason s)) = pool s /\
  apps (snd (rollback reason s)) = apps s /\
  acknowledgments (snd (rollback reason s)) = acknowledgments s /\
  now (snd (rollback reason s)) = now s /\
  LogRollingBack reason ∈ console (snd (rollback reason s)) /\
  LogBroadcasting Phase.ROLLBACK None ∈ console (snd (rollback reason s)) /\
  (forall a, apps s !! a = Some ReadyState.OPEN ->
     (a, PhaseMsg {| msg_phase := Phase.ROLLBACK; msg_migrationId := i;
                     msg_status := None; msg_timestamp := now s |})
     ∈ sent (snd (rollback reason s))).
Proof.
  intro H. rewrite (rollback_run _ _ _ H).
  apply current_id_Some in H as (m & Hm & Hi). cbn [fst snd].
  set (s1 := set_currentMigration (fmap (with_status MigrationStatus.FAILED))
               (console_log (LogRollingBack reason) s)).
  assert (Hm1 : currentMigration s1
                = Some (with_status MigrationStatus.FAILED m))
    by (unfold s1; simpl; rewrite Hm; reflexivity).
  rewrite (sendPhase_Some _ _ _ _ Hm1). cbn [snd].
  set (message := {| msg_phase := Phase.ROLLBACK |}).
  pose proof (broadcast_view message
                (console_log (LogBroadcasting Phase.ROLLBACK None) s1))
    as (Ha & Hc & Hk & Hn & Hp).
  unfold observed_status, current_id. rewrite Hc, Ha, Hk, Hn, Hp.
  repeat split; try (simpl; rewrite Hm; simpl; congruence); try reflexivity.
  - apply broadcast_console. simpl.
    apply elem_of_app. left. apply elem_of_app. right.
    apply list_elem_of_singleton. reflexivity.
  - apply broadcast_console. simpl.
    apply elem_of_app. right. apply list_elem_of_singleton. reflexivity.
  - intros a Hopen. subst message. simpl. rewrite <- Hi.
    apply broadcast_reaches_open. exact Hopen.
Qed.

Lemma complete_facts migration s i :
  current_id s = Some i ->
  fst (complete migration s) = Ret tt /\
  observed_status (snd (complete migration s)) = Some MigrationStatus.COMPLETED /\
  (completedAt <$> currentMigration (snd (complete migration s)))
  = Some (Some (now s)) /\
  current_id (snd (complete migration s)) = Some i /\
  pool (snd (complete migration s)) = pool s /\
  apps (snd (complete migration s)) = apps s /\
  acknowledgments (snd (complete migration s)) = acknowledgments s /\
  now (snd (complete migration s)) = now s /\
  LogBroadcasting Phase.CONFIRM None ∈ console (snd (complete migration s)) /\
  (forall a, apps s !! a = Some ReadyState.OPEN ->
     (a, PhaseMsg {| msg_phase := Phase.CONFIRM; msg_migrationId := i;
                     msg_status := None; msg_timestamp := now s |})
     ∈ sent (snd (complete migration s))).
Proof.
  intro H. rewrite (complete_run _ _ _ H).
  apply current_id_Some in H as (m & Hm & Hi). cbn [fst snd].
  rewrite (set_status_Some _ _ _ Hm). cbn [snd].
  set (s1 := set_currentMigration (fmap (with_status MigrationStatus.COMPLETED)) s).
  assert (Hm1 : currentMigration s1
                = Some (with_status MigrationStatus.COMPLETED m))
    by (unfold s1; simpl; rewrite Hm; reflexivity).
  unfold set_completedAt. rewrite Hm1. cbn [snd].
  set (s2 := set_currentMigration (fmap (with_completedAt (now s1))) s1).
  assert (Hm2 : currentMigration s2
                = Some (with_completedAt (now s)
                          (with_status MigrationStatus.COMPLETED m)))
    by (unfold s2; simpl; rewrite Hm; reflexivity).
  rewrite (sendPhase_Some _ _ _ _ Hm2). cbn [snd].
  set (message := {| msg_phase := Phase.CONFIRM |}).
  pose proof (broadcast_view message
                (console_log (LogBroadcasting Phase.CONFIRM None) s2))
    as (Ha & Hc & Hk & Hn & Hp).
  unfold observed_status, current_id. simpl. rewrite Hc, Ha, Hk, Hn, Hp. simpl.
  rewrite Hm. simpl.
  repeat split; try congruence.
  - apply elem_of_app. left. apply broadcast_console. simpl.
    apply elem_of_app. right. apply list_elem_of_singleton. reflexivity.
  - intros a Hopen. subst message. simpl.
    rewrite <- Hi. apply broadcast_reaches_open. exact Hopen.
Qed.

(** ** The database along a run *)

Lemma announcing_pool migration s : pool (announcing migration s) = pool s.
Proof.
  rewrite announcing_eq.
  match goal with |- pool (broadcast ?m ?x) = _ =>
    destruct (broadcast_view m x) as (_ & _ & _ & _ & ->) end.
  reflexivity.
Qed.

Lemma announce_outcome_pool migration env s :
  pool (snd (announce_outcome migration env s)) = pool s.
Proof. unfold announce_outcome. rewrite wait_pool. apply announcing_pool. Qed.

Lemma executing_pool migration env s : pool (executing migration env s) = pool s.
Proof.
  rewrite executing_eq, handle_all_pool, sendPhase_pool, set_status_pool.
  apply announce_outcome_pool.
Qed.

Lemma executor_outcome_connects migration env s :
  connects (pool (snd (executor_outcome run_stmt control migration env s)))
  = S (connects (pool s)).
Proof.
  unfold executor_outcome.
  destruct (executeMigrations_counters (faults env) (sql migration)
              (executing migration env s)) as [-> _].
  rewrite executing_pool. reflexivity.
Qed.

Lemma apply_outcome_pool migration env s :
  pool (snd (apply_outcome run_stmt control migration env s))
  = pool (snd (executor_outcome run_stmt control migration env s)).
Proof.
  unfold apply_outcome. rewrite wait_pool, applying_eq.
  rewrite sendPhase_pool, set_status_pool, sendPhase_pool. reflexivity.
Qed.

(** C5: when the wait for ANNOUNCE times out the migration is FAILED,
    ROLLBACK is broadcast (it is written on every registered socket that is
    open), and the executor is not called: the pool and the database are as
    they were before the run. *)
Theorem announce_timeout_rolls_back migration env s :
  returned (fst (announce_outcome migration env s)) = false ->
  let final := snd (startMigration run_stmt control migration env s) in
  observed_status final = Some MigrationStatus.FAILED /\
  LogBroadcasting Phase.ROLLBACK None ∈ console final /\
  (forall a, apps final !! a = Some ReadyState.OPEN ->
     (a, PhaseMsg {| msg_phase := Phase.ROLLBACK;
                     msg_migrationId := id migration;
                     msg_status := None; msg_timestamp := now final |})
     ∈ sent final) /\
  pool final = pool s /\
  exists ackCount totalApps,
    LogRollingBack (Caught (Timeout ackCount totalApps Phase.ANNOUNCE))
    ∈ console final.
Proof.
  intro Hto. cbv zeta. rewrite startMigration_eq.
  destruct (fst (announce_outcome migration env s)) as [[]|e] eqn:Ha;
    [discriminate|].
  pose proof (rollback_facts (Caught e) _ _ (announce_outcome_id migration env s))
    as (_ & Hst & _ & Hp & Happs & _ & Hnow & Hlog & Hb & Hsent).
  split; [exact Hst|]. split; [exact Hb|]. split; [|split].
  - intros a Hopen. rewrite Hnow. apply Hsent. rewrite <- Happs. exact Hopen.
  - rewrite Hp. apply announce_outcome_pool.
  - unfold announce_outcome, waitForAcknowledgments in Ha.
    apply poll_rejects in Ha. subst e. eauto.
Qed.

(** C4: a run that ends COMPLETED called the executor exactly once, the
    executor reported success, the completion time is set and CONFIRM was
    broadcast; and no run calls the executor more than once. *)
Theorem completed_after_one_successful_execution migration env s :
  let final := snd (startMigration run_stmt control migration env s) in
  (connects (pool final) = connects (pool s) \/
   connects (pool final) = S (connects (pool s))) /\
  (observed_status final = Some MigrationStatus.COMPLETED ->
   connects (pool final) = S (connects (pool s)) /\
   (exists result,
      fst (executor_outcome run_stmt control migration env s) = Ret result /\
      success result = true) /\
   completedAt <$> currentMigration final = Some (Some (now final)) /\
   LogBroadcasting Phase.CONFIRM None ∈ console final /\
   (forall a, apps final !! a = Some ReadyState.OPEN ->
      (a, PhaseMsg {| msg_phase := Phase.CONFIRM;
                      msg_migrationId := id migration;
                      msg_status := None; msg_timestamp := now final |})
      ∈ sent final)).
Proof.
  cbv zeta. rewrite startMigration_eq.
  pose proof (announce_outcome_id migration env s) as Ha.
  pose proof (executor_outcome_id migration env s) as He.
  pose proof (apply_outcome_id migration env s) as Hp.
  pose proof (executor_outcome_connects migration env s) as Hc.
  pose proof (apply_outcome_pool migration env s) as Hpp.
  destruct (fst (announce_outcome migration env s)) as [[]|e].
  - destruct (fst (executor_outcome run_stmt control migration env s)) as [result|e].
    + destruct (success result) eqn:Hs.
      * destruct (fst (apply_outcome run_stmt control migration env s)) as [[]|e].
        -- destruct (complete_facts migration _ _ Hp)
             as (_ & _ & Hat & _ & Hpool & Happs & _ & Hnow & Hlog & Hsent).
           rewrite Hpool, Hpp, Hc. split; [auto|]. intros _.
           split; [reflexivity|]. split; [eauto|].
           rewrite Hnow. split; [exact Hat|]. split; [exact Hlog|].
           intros a Hopen. apply Hsent. rewrite <- Happs. exact Hopen.
        -- destruct (rollback_facts (Caught e) _ _ Hp)
             as (_ & Hst & _ & Hpool & _).
           rewrite Hpool, Hpp, Hc, Hst. split; [auto|]. discriminate.
      * destruct (rollback_facts (ExecutionFailed (error result)) _ _ He)
          as (_ & Hst & _ & Hpool & _).
        rewrite Hpool, Hc, Hst. split; [auto|]. discriminate.
    + destruct (rollback_facts (Caught e) _ _ He) as (_ & Hst & _ & Hpool & _).
      rewrite Hpool, Hc, Hst. split; [auto|]. discriminate.
  - destruct (rollback_facts (Caught e) _ _ Ha) as (_ & Hst & _ & Hpool & _).
    rewrite Hpool, announce_outcome_pool, Hst. split; [auto|]. discriminate.
Qed.

(** C2 (as amended): a participant that connects during a wait enters the
    registry at once, without entering any acknowledgment set, so that from
    the next firing on the wait requires one acknowledgment more; and a run
    ends COMPLETED only if the wait for APPLY resolved, that is, only if a
    firing found as many acknowledgments of APPLY as sockets registered at
    that firing, late joiners included. *)
Theorem late_joiner_is_counted migration env s :
  (forall a phase s1, apps s1 !! a = None ->
     size (apps (handle (EvConnection a) s1)) = S (size (apps s1)) /\
     acknowledgments (handle (EvConnection a) s1) = acknowledgments s1 /\
     (quorum phase s1 = true ->
      quorum phase (handle (EvConnection a) s1) = false)) /\
  (observed_status (snd (startMigration run_stmt control migration env s))
   = Some MigrationStatus.COMPLETED ->
   fst (apply_outcome run_stmt control migration env s) = Ret tt /\
   ack_count Phase.APPLY (snd (apply_outcome run_stmt control migration env s))
   = size (apps (snd (apply_outcome run_stmt control migration env s)))).
Proof.
  split.
  - intros a phase s1 Ha.
    destruct (connection_raises_count a s1 Ha) as [Hsize Hacks].
    split; [exact Hsize|]. split; [exact Hacks|].
    unfold quorum. rewrite Hacks, Hsize.
    destruct (acknowledgments s1 !! phase) as [acks|]; [|discriminate].
    intro H. apply bool_decide_eq_true in H.
    apply bool_decide_eq_false. lia.
  - rewrite startMigration_eq.
    pose proof (announce_outcome_id migration env s) as Ha.
    pose proof (executor_outcome_id migration env s) as He.
    pose proof (apply_outcome_id migration env s) as Hp.
    destruct (fst (announce_outcome migration env s)) as [[]|e].
    + destruct (fst (executor_outcome run_stmt control migration env s)) as [result|e].
      * destruct (success result).
        -- destruct (fst (apply_outcome run_stmt control migration env s)) as [[]|e] eqn:Hw.
           ++ intros _. split; [reflexivity|].
              apply quorum_counts. unfold apply_outcome in *.
              apply wait_resolved. exact Hw.
           ++ destruct (rollback_facts (Caught e) _ _ Hp) as (_ & -> & _).
              discriminate.
        -- destruct (rollback_facts (ExecutionFailed (error result)) _ _ He)
             as (_ & -> & _). discriminate.
      * destruct (rollback_facts (Caught e) _ _ He) as (_ & -> & _). discriminate.
    + destruct (rollback_facts (Caught e) _ _ Ha) as (_ & -> & _). discriminate.
Qed.

(** ** Acknowledgment sets *)

Lemma acked_handleAcknowledgment a message s phase :
  acked phase (handleAcknowledgment a message s)
  = if decide (ack_phase message = phase)
    then {[a]} ∪ acked phase s
    else acked phase s.
Proof.
  unfold handleAcknowledgment, acked.
  destruct (acknowledgments s !! ack_phase message) as [acks|] eqn:Hl;
    case_bool_decide; simpl; rewrite lookup_alter;
    destruct (decide (ack_phase message = phase)) as [<-|Hne];
    rewrite ?lookup_insert_eq, ?Hl, ?lookup_insert_ne by exact Hne;
    reflexivity.
Qed.

Lemma handle_acked_mono ev s phase a :
  a ∈ acked phase s -> a ∈ acked phase (handle ev s).
Proof.
  intro Ha. destruct ev as [b|b r|b message|b]; simpl;
    try destruct (apps s !! b); try exact Ha.
  rewrite acked_handleAcknowledgment.
  destruct (decide (ack_phase message = phase)); [|exact Ha].
  apply elem_of_union. right. exact Ha.
Qed.

Lemma handle_all_acked_mono evs s phase a :
  a ∈ acked phase s -> a ∈ acked phase (handle_all evs s).
Proof.
  unfold handle_all. revert s.
  induction evs as [|ev evs IH]; intros s Ha; simpl; [exact Ha|].
  apply IH, handle_acked_mono, Ha.
Qed.

Lemma poll_acked_mono phase deadline slots last s phase' a :
  a ∈ acked phase' s -> a ∈ acked phase' (snd (poll phase deadline slots last s)).
Proof.
  revert s. induction slots as [|evs slots IH]; intros s Ha; simpl.
  - apply handle_all_acked_mono, Ha.
  - assert (H : a ∈ acked phase' (elapse poll_period (handle_all evs s)))
      by (apply (handle_all_acked_mono evs s), Ha).
    destruct (quorum phase _); [exact H | apply IH, H].
Qed.

Lemma handle_all_app evs evs' s :
  handle_all (evs ++ evs') s = handle_all evs' (handle_all evs s).
Proof. unfold handle_all. apply fold_left_app. Qed.

Lemma acked_same s s' phase :
  acknowledgments s' = acknowledgments s -> acked phase s' = acked phase s.
Proof. unfold acked. intros ->. reflexivity. Qed.

Lemma acked_reset phase phase' s :
  acked phase' (set_acknowledgments (insert phase (∅ : gset string)) s)
  = if decide (phase = phase') then ∅ else acked phase' s.
Proof.
  unfold acked. simpl. destruct (decide (phase = phase')) as [->|Hne].
  - rewrite lookup_insert_eq. reflexivity.
  - rewrite lookup_insert_ne by exact Hne. reflexivity.
Qed.

(** An acknowledgment that arrives while the wait is going on, on a socket
    that is registered when it arrives, is in the set when the wait
    ends. *)
Lemma poll_counts phase deadline last a m before after :
  ack_phase m = phase ->
  forall slots j s,
    slots !! j = Some (before ++ EvMessage a m :: after) ->
    (forall k, k < j ->
       quorum phase (after_firings (take (S k) slots) s) = false) ->
    is_Some (apps (handle_all before (after_firings (take j slots) s)) !! a) ->
    a ∈ acked phase (snd (poll phase deadline slots last s)).
Proof.
  intros Hm. induction slots as [|evs slots IH]; intros j s Hj Hbefore Hreg.
  - rewrite lookup_nil in Hj. discriminate.
  - destruct j as [|j].
    + simpl in Hj. injection Hj as ->. rewrite take_0 in Hreg.
      cbn [after_firings fold_left] in Hreg.
      assert (Hin : a ∈ acked phase
                      (elapse poll_period
                         (handle_all (before ++ EvMessage a m :: after) s))).
      { rewrite handle_all_app.
        change (handle_all (EvMessage a m :: after) (handle_all before s))
          with (handle_all after
                  (handle (EvMessage a m) (handle_all before s))).
        apply (handle_all_acked_mono after). destruct Hreg as [r Hr].
        cbn [handle]. rewrite Hr, acked_handleAcknowledgment.
        rewrite decide_True by exact Hm. set_solver. }
      cbn [poll]. destruct (quorum phase _); [exact Hin|].
      apply poll_acked_mono. exact Hin.
    + cbn [poll].
      assert (Hq : quorum phase (elapse poll_period (handle_all evs s))
                   = false).
      { specialize (Hbefore 0 ltac:(lia)). exact Hbefore. }
      rewrite Hq. apply (IH j).
      * exact Hj.
      * intros k Hk. apply (Hbefore (S k)). lia.
      * exact Hreg.
Qed.

Lemma handle_all_not_sender phase a evs : forall s,
  a ∉ senders phase evs -> a ∉ acked phase s ->
  a ∉ acked phase (handle_all evs s).
Proof.
  induction evs as [|ev evs IH]; intros s Hev Hs; [exact Hs|].
  change (handle_all (ev :: evs) s) with (handle_all evs (handle ev s)).
  destruct ev as [b|b r|b m|b]; simpl in Hev;
    try (apply IH; [exact Hev|]; simpl;
         try destruct (apps s !! b); exact Hs).
  destruct (decide (ack_phase m = phase)) as [Hm|Hm].
  - apply IH; [set_solver|]. simpl. destruct (apps s !! b); [|exact Hs].
    rewrite acked_handleAcknowledgment, decide_True by exact Hm. set_solver.
  - apply IH; [exact Hev|]. simpl. destruct (apps s !! b); [|exact Hs].
    rewrite acked_handleAcknowledgment, decide_False by exact Hm. exact Hs.
Qed.

Lemma poll_not_sender phase phase' deadline last a : forall slots s,
  a ∉ senders phase' (concat slots ++ last) -> a ∉ acked phase' s ->
  a ∉ acked phase' (snd (poll phase deadline slots last s)).
Proof.
  induction slots as [|evs slots IH]; intros s Hev Hs.
  - apply (handle_all_not_sender phase' a last s); assumption.
  - cbn [concat] in Hev. rewrite <- app_assoc, senders_app in Hev.
    assert (H : a ∉ acked phase'
                  (elapse poll_period (handle_all evs s))).
    { apply (handle_all_not_sender phase' a evs s); [set_solver | exact Hs]. }
    cbn [poll]. destruct (quorum phase _); [exact H|].
    apply IH; [set_solver | exact H].
Qed.

(** A wait empties the set of its phase and leaves the other sets alone;
    afterwards a socket is in a set only if it was there or an
    acknowledgment arrived on it. *)
Lemma wait_not_sender phase phase' timeout w a s :
  a ∉ senders phase' (wait_events timeout w) ->
  phase = phase' \/ a ∉ acked phase' s ->
  a ∉ acked phase' (snd (waitForAcknowledgments phase timeout w s)).
Proof.
  intros Hev Hs. unfold waitForAcknowledgments.
  apply poll_not_sender; [exact Hev|].
  rewrite acked_reset. destruct (decide (phase = phase')); [set_solver|].
  destruct Hs; [contradiction | assumption].
Qed.

Lemma wait_acked_mono phase phase' timeout w a s :
  phase <> phase' -> a ∈ acked phase' s ->
  a ∈ acked phase' (snd (waitForAcknowledgments phase timeout w s)).
Proof.
  intros Hne Ha. unfold waitForAcknowledgments. apply poll_acked_mono.
  rewrite acked_reset, decide_False by exact Hne. exact Ha.
Qed.

(** The sets at the end of a run are those at the end of its last stage. *)
Lemma run_final_acknowledgments migration env s :
  acknowledgments (snd (startMigration run_stmt control migration env s))
  = match fst (announce_outcome migration env s) with
    | Throw _ => acknowledgments (snd (announce_outcome migration env s))
    | Ret _ =>
        match fst (executor_outcome run_stmt control migration env s) with
        | Throw _ =>
            acknowledgments
              (snd (executor_outcome run_stmt control migration env s))
        | Ret result =>
            if success result
            then acknowledgments
                   (snd (apply_outcome run_stmt control migration env s))
            else acknowledgments
                   (snd (executor_outcome run_stmt control migration env s))
        end
    end.
Proof.
  rewrite startMigration_eq.
  pose proof (announce_outcome_id migration env s) as Ha.
  pose proof (executor_outcome_id migration env s) as He.
  pose proof (apply_outcome_id migration env s) as Hp.
  destruct (fst (announce_outcome migration env s)) as [[]|e];
    [|apply (rollback_facts _ _ _ Ha)].
  destruct (fst (executor_outcome run_stmt control migration env s))
    as [result|e]; [|apply (rollback_facts _ _ _ He)].
  destruct (success result); [|apply (rollback_facts _ _ _ He)].
  destruct (fst (apply_outcome run_stmt control migration env s)) as [[]|e];
    [apply (complete_facts _ _ _ Hp) | apply (rollback_facts _ _ _ Hp)].
Qed.

Lemma executor_outcome_acked migration env s phase :
  acked phase (snd (executor_outcome run_stmt control migration env s))
  = acked phase
      (handle_all (exec_events env)
         (snd (sendPhase Phase.EXECUTE (Some ExecStatus.RUNNING)
                 (snd (set_status MigrationStatus.EXECUTING
                         (snd (announce_outcome migration env s))))))).
Proof.
  apply acked_same. unfold executor_outcome.
  rewrite executeMigrations_acknowledgments, executing_eq. reflexivity.
Qed.

Lemma applying_acked migration env s phase :
  acked phase (applying run_stmt control migration env s)
  = acked phase (snd (executor_outcome run_stmt control migration env s)).
Proof.
  apply acked_same. rewrite applying_eq.
  rewrite sendPhase_acknowledgments, set_status_acknowledgments,
    sendPhase_acknowledgments. reflexivity.
Qed.

(** What is in the ANNOUNCE set at the end of the wait for ANNOUNCE is
    there at the end of the run, and so for APPLY. *)
Lemma run_keeps_acked migration env s a :
  (a ∈ acked Phase.ANNOUNCE (snd (announce_outcome migration env s)) ->
   a ∈ acked Phase.ANNOUNCE
         (snd (startMigration run_stmt control migration env s))) /\
  (fst (announce_outcome migration env s) = Ret tt ->
   (exists result,
      fst (executor_outcome run_stmt control migration env s) = Ret result /\
      success result = true) ->
   a ∈ acked Phase.APPLY
         (snd (apply_outcome run_stmt control migration env s)) ->
   a ∈ acked Phase.APPLY
         (snd (startMigration run_stmt control migration env s))).
Proof.
  pose proof (run_final_acknowledgments migration env s) as Hfinal.
  split.
  - intro Ha.
    assert (He : a ∈ acked Phase.ANNOUNCE
                   (snd (executor_outcome run_stmt control migration env s))).
    { rewrite executor_outcome_acked. apply handle_all_acked_mono.
      rewrite (acked_same (snd (announce_outcome migration env s))); [exact Ha|].
      rewrite sendPhase_acknowledgments, set_status_acknowledgments.
      reflexivity. }
    assert (Hp : a ∈ acked Phase.ANNOUNCE
                   (snd (apply_outcome run_stmt control migration env s))).
    { unfold apply_outcome. apply wait_acked_mono; [discriminate|].
      rewrite applying_acked. exact He. }
    unfold acked in *. rewrite Hfinal.
    destruct (fst (announce_outcome migration env s)) as [[]|e]; [|exact Ha].
    destruct (fst (executor_outcome run_stmt control migration env s))
      as [result|e]; [|exact He].
    destruct (success result); [exact Hp | exact He].
  - intros Hann (result & Hres & Hok) Ha.
    unfold acked in *. rewrite Hfinal, Hann, Hres, Hok. exact Ha.
Qed.

(** C7 (as amended): the acknowledgment set of a phase is emptied after the
    broadcast of the phase, at the start of the wait, and before anything
    that arrives after the broadcast is handled.  In every run of
    [startMigration]: an acknowledgment of ANNOUNCE that arrives after the
    broadcast while the wait is going on (in the batch of a firing that no
    successful firing precedes), on a socket that is registered when it
    arrives, is in the set of ANNOUNCE at the end of the run: no reset
    removes it.  A socket on which no acknowledgment of ANNOUNCE arrives
    from the start of the wait on is not in the set at the end of the run,
    even if it was in it when the run started: the reset did happen.  The
    same holds for APPLY in the runs that reach its wait.  [s1] and [s2]
    are the states in which the two waits begin to listen: the broadcast is
    done and the set has just been emptied.  The broadcast itself leaves
    the sets as they are: when ANNOUNCE, or APPLY, has been written on the
    sockets the set still holds what it held before. *)
Theorem set_emptied_between_broadcast_and_wait migration env a s :
  let final := snd (startMigration run_stmt control migration env s) in
  let s1 :=
    set_acknowledgments (insert Phase.ANNOUNCE (∅ : gset string))
      (announcing migration s) in
  let s2 :=
    set_acknowledgments (insert Phase.APPLY (∅ : gset string))
      (applying run_stmt control migration env s) in
  let announce_slots := slots_of phase_timeout (announce_wait env) in
  let apply_slots := slots_of phase_timeout (apply_wait env) in
  let reaches_apply :=
    fst (announce_outcome migration env s) = Ret tt /\
    exists result,
      fst (executor_outcome run_stmt control migration env s) = Ret result /\
      success result = true in
  (forall j before m after,
     announce_slots !! j = Some (before ++ EvMessage a m :: after) ->
     ack_phase m = Phase.ANNOUNCE ->
     (forall k, k < j ->
        quorum Phase.ANNOUNCE (after_firings (take (S k) announce_slots) s1)
        = false) ->
     is_Some (apps (handle_all before
                      (after_firings (take j announce_slots) s1)) !! a) ->
     a ∈ acked Phase.ANNOUNCE final) /\
  (a ∉ senders Phase.ANNOUNCE (run_events env) ->
   a ∉ acked Phase.ANNOUNCE final) /\
  (reaches_apply ->
   forall j before m after,
     apply_slots !! j = Some (before ++ EvMessage a m :: after) ->
     ack_phase m = Phase.APPLY ->
     (forall k, k < j ->
        quorum Phase.APPLY (after_firings (take (S k) apply_slots) s2)
        = false) ->
     is_Some (apps (handle_all before
                      (after_firings (take j apply_slots) s2)) !! a) ->
     a ∈ acked Phase.APPLY final) /\
  (reaches_apply ->
   a ∉ senders Phase.APPLY (wait_events phase_timeout (apply_wait env)) ->
   a ∉ acked Phase.APPLY final) /\
  acknowledgments (announcing migration s) = acknowledgments s /\
  acknowledgments (applying run_stmt control migration env s)
  = acknowledgments (snd (executor_outcome run_stmt control migration env s)).
Proof.
  cbv zeta.
  destruct (run_keeps_acked migration env s a) as [Hkeep1 Hkeep2].
  pose proof (run_final_acknowledgments migration env s) as Hfinal.
  split; [|split; [|split; [|split; [|split]]]].
  - intros j before m after Hj Hm Hbefore Hreg. apply Hkeep1.
    unfold announce_outcome, waitForAcknowledgments.
    apply (poll_counts _ _ _ a m before after Hm _ j); assumption.
  - intro Hev. unfold run_events in Hev. rewrite !senders_app in Hev.
    assert (Ha : a ∉ acked Phase.ANNOUNCE
                   (snd (announce_outcome migration env s))).
    { unfold announce_outcome. apply wait_not_sender; [set_solver | left].
      reflexivity. }
    assert (He : a ∉ acked Phase.ANNOUNCE
                   (snd (executor_outcome run_stmt control migration env s))).
    { rewrite executor_outcome_acked.
      apply handle_all_not_sender; [set_solver|].
      rewrite (acked_same (snd (announce_outcome migration env s)));
        [exact Ha|].
      rewrite sendPhase_acknowledgments, set_status_acknowledgments.
      reflexivity. }
    assert (Hp : a ∉ acked Phase.ANNOUNCE
                   (snd (apply_outcome run_stmt control migration env s))).
    { unfold apply_outcome. apply wait_not_sender; [set_solver | right].
      rewrite applying_acked. exact He. }
    unfold acked in *. rewrite Hfinal.
    destruct (fst (announce_outcome migration env s)) as [[]|e]; [|exact Ha].
    destruct (fst (executor_outcome run_stmt control migration env s))
      as [result|e]; [|exact He].
    destruct (success result); [exact Hp | exact He].
  - intros (Hann & Hexec) j before m after Hj Hm Hbefore Hreg.
    apply (Hkeep2 Hann Hexec).
    unfold apply_outcome, waitForAcknowledgments.
    apply (poll_counts _ _ _ a m before after Hm _ j); assumption.
  - intros (Hann & result & Hres & Hok) Hev.
    unfold acked. rewrite Hfinal, Hann, Hres, Hok.
    unfold apply_outcome. apply wait_not_sender; [exact Hev | left].
    reflexivity.
  - rewrite announcing_eq.
    match goal with |- acknowledgments (broadcast ?m ?x) = _ =>
      destruct (broadcast_view m x) as (_ & _ & -> & _) end.
    reflexivity.
  - rewrite applying_eq.
    rewrite sendPhase_acknowledgments, set_status_acknowledgments,
      sendPhase_acknowledgments. reflexivity.
Qed.

(** C6 (as amended): the acknowledgment sets are keyed by the name of the
    phase alone.  An acknowledgment enters the set of its phase whatever the
    current migration is; the answer of a participant to a phase message
    does not depend on the migration the message names; and a wait empties
    the set of its phase when it starts, so that what was recorded before
    does not count, while whatever is received for that phase during the
    wait does. *)
Theorem acknowledgments_keyed_by_phase a message phase timeout w s :
  acked (ack_phase message) (handleAcknowledgment a message s)
  = {[a]} ∪ acked (ack_phase message) s /\
  (forall other, other <> ack_phase message ->
     acked other (handleAcknowledgment a message s) = acked other s) /\
  (forall g,
     acknowledgments (handleAcknowledgment a message (set_currentMigration g s))
     = acknowledgments (handleAcknowledgment a message s) /\
     quorum phase (set_currentMigration g s) = quorum phase s) /\
  (forall m m', msg_phase m = msg_phase m' ->
     handleMessage a m = handleMessage a m') /\
  (forall recorded,
     waitForAcknowledgments phase timeout w
       (set_acknowledgments (insert phase recorded) s)
     = waitForAcknowledgments phase timeout w s).
Proof.
  split; [|split; [|split; [|split]]].
  - rewrite acked_handleAcknowledgment.
    destruct (decide (ack_phase message = ack_phase message)); congruence.
  - intros other Hne. rewrite acked_handleAcknowledgment.
    destruct (decide (ack_phase message = other)); congruence.
  - intro g. split; [|reflexivity].
    unfold handleAcknowledgment. simpl.
    destruct (acknowledgments s !! ack_phase message);
      repeat case_bool_decide; reflexivity.
  - intros m m' H. unfold handleMessage. rewrite H. reflexivity.
  - intro recorded. unfold waitForAcknowledgments. f_equal.
    unfold set_acknowledgments. simpl. rewrite insert_insert_eq. reflexivity.
Qed.

(** C9: [handleAcknowledgment] does not read the status of the message (nor
    its [appId] and [error] fields): an acknowledgment with status ERROR has
    the effect of one with status ACKNOWLEDGED.  The participant enters the
    set of the phase, and the migration is left as it is. *)
Theorem error_acknowledgment_counts a message st claimed detail s :
  handleAcknowledgment a
    {| ack_phase := ack_phase message; ack_status := st;
       ack_appId := claimed; ack_error := detail |} s
  = handleAcknowledgment a message s /\
  a ∈ acked (ack_phase message) (handleAcknowledgment a message s) /\
  currentMigration (handleAcknowledgment a message s) = currentMigration s.
Proof.
  split; [reflexivity|]. split.
  - rewrite acked_handleAcknowledgment.
    destruct (decide (ack_phase message = ack_phase message)); [|congruence].
    apply elem_of_union. left. apply elem_of_singleton. reflexivity.
  - pose proof (handleAcknowledgment_beyond a message s) as H.
    unfold beyond_sockets in H. injection H as H _. exact H.
Qed.

(** C3 (as amended): for a list of statements none of which the database
    reads as transaction control, the executor sends BEGIN, the statements
    in the order of the list and COMMIT on one session.  When every
    statement succeeds it commits their combined effect and returns
    success; when one fails it sends ROLLBACK, nothing of the list is
    committed, and it returns failure with the error of that statement.
    With connection faults too, what is committed changes only together
    with a success.  For every list, whatever its statements and whatever
    happens, the client acquired from the pool is released. *)
Theorem executeMigrations_all_or_nothing f statements s :
  tx (pool s) = Idle ->
  let r := executeMigrations run_stmt control f statements s in
  let r0 := executeMigrations run_stmt control no_faults statements s in
  (ordinary control statements ->
   (tx (pool (snd r0)) = Idle /\
    match run_all run_stmt statements (committed (pool s)) with
    | inl d =>
        fst r0 = Ret {| success := true; error := None |} /\
        committed (pool (snd r0)) = d /\
        history (pool (snd r0))
        = history (pool s)
          ++ Sql.BEGIN :: map Sql.Stmt statements ++ [Sql.COMMIT]
    | inr e =>
        fst r0 = Ret {| success := false; error := Some (DbError e) |} /\
        committed (pool (snd r0)) = committed (pool s) /\
        exists k, k < length statements /\
          history (pool (snd r0))
          = history (pool s)
            ++ Sql.BEGIN :: map Sql.Stmt (take (S k) statements)
            ++ [Sql.ROLLBACK]
    end) /\
   match fst r with
   | Ret res =>
       if success res
       then run_all run_stmt statements (committed (pool s))
            = inl (committed (pool (snd r))) /\ error res = None
       else committed (pool (snd r)) = committed (pool s) /\
            is_Some (error res)
   | Throw _ => committed (pool (snd r)) = committed (pool s)
   end) /\
  connects (pool (snd r)) = S (connects (pool s)) /\
  leased (pool (snd r)) = leased (pool s).
Proof.
  intro Htx. cbv zeta. split.
  - intro Hord.
    split; [exact (executeMigrations_sound statements s Hord Htx)|].
    exact (executeMigrations_general f statements s Hord Htx).
  - apply executeMigrations_counters.
Qed.

(** ** Runs without participants *)

Lemma handle_nobody ev s :
  apps s = ∅ -> is_connection ev = false -> handle ev s = s.
Proof.
  intros Hs Hev. destruct ev as [a|a r|a message|a]; simpl in *;
    try discriminate; rewrite Hs, lookup_empty; reflexivity.
Qed.

Lemma handle_all_nobody evs s :
  apps s = ∅ -> no_connection evs = true -> handle_all evs s = s.
Proof.
  intros Hs. unfold handle_all, no_connection.
  induction evs as [|ev evs IH]; simpl; [reflexivity|].
  intro H. apply andb_true_iff in H as [Hev Hevs].
  rewrite handle_nobody; [apply IH, Hevs | exact Hs |].
  apply negb_true_iff. exact Hev.
Qed.

Lemma firings_positive :
  exists n, firings phase_timeout = S n.
Proof. exists 298. reflexivity. Qed.

(** With nobody registered and nobody joining, the first firing ends the
    wait. *)
Lemma wait_nobody phase w s :
  apps s = ∅ -> polls w <> [] -> no_connections (polls w) = true ->
  waitForAcknowledgments phase phase_timeout w s
  = (Ret tt,
     elapse poll_period
       (set_acknowledgments (insert phase (∅ : gset string)) s)).
Proof.
  intros Hs Hne Hq. unfold waitForAcknowledgments, slots_of.
  destruct firings_positive as [n ->].
  destruct (polls w) as [|evs slots]; [congruence|].
  simpl in Hq. apply andb_true_iff in Hq as [Hevs _].
  change (take (S n) ((evs :: slots) ++ replicate (S n) []))
    with (evs :: take n (slots ++ replicate (S n) [])).
  cbn [poll].
  rewrite (handle_all_nobody evs
             (set_acknowledgments (insert phase (∅ : gset string)) s) Hs Hevs).
  unfold quorum. simpl. rewrite lookup_insert_eq, Hs.
  rewrite size_empty, map_size_empty. reflexivity.
Qed.

(** C10: when no participant is registered at the start of a run and none
    connects during it, both waits end at their first firing, with zero
    acknowledgments for zero sockets, and the run ends COMPLETED if the
    executor succeeds; both acknowledgment sets are empty at the end. *)
Theorem no_participants_complete migration env s :
  apps s = ∅ ->
  no_connections (polls (announce_wait env)) = true ->
  no_connection (exec_events env) = true ->
  no_connections (polls (apply_wait env)) = true ->
  polls (announce_wait env) <> [] ->
  polls (apply_wait env) <> [] ->
  (exists result,
     fst (executor_outcome run_stmt control migration env s) = Ret result /\
     success result = true) ->
  let final := snd (startMigration run_stmt control migration env s) in
  observed_status final = Some MigrationStatus.COMPLETED /\
  announce_outcome migration env s
  = (Ret tt,
     elapse poll_period
       (set_acknowledgments (insert Phase.ANNOUNCE (∅ : gset string))
          (announcing migration s))) /\
  apply_outcome run_stmt control migration env s
  = (Ret tt,
     elapse poll_period
       (set_acknowledgments (insert Phase.APPLY (∅ : gset string))
          (applying run_stmt control migration env s))) /\
  acked Phase.ANNOUNCE final = ∅ /\
  acked Phase.APPLY final = ∅.
Proof.
  intros Hs Hqa Hqe Hqp Hna Hnp (result & Hres & Hok). cbv zeta.
  assert (Hann_apps : apps (announcing migration s) = ∅).
  { rewrite announcing_eq.
    match goal with |- apps (broadcast ?m ?x) = _ =>
      destruct (broadcast_view m x) as (-> & _) end.
    exact Hs. }
  assert (Hann : announce_outcome migration env s
                 = (Ret tt,
                    elapse poll_period
                      (set_acknowledgments (insert Phase.ANNOUNCE (∅ : gset string))
                         (announcing migration s))))
    by (apply wait_nobody; assumption).
  assert (Hexe : executing migration env s
                 = snd (sendPhase Phase.EXECUTE (Some ExecStatus.RUNNING)
                     (snd (set_status MigrationStatus.EXECUTING
                        (snd (announce_outcome migration env s)))))).
  { rewrite executing_eq. apply handle_all_nobody; [|exact Hqe].
    rewrite sendPhase_apps, set_status_apps, Hann. exact Hann_apps. }
  assert (Hexe_reg : registry (executing migration env s)
                     = (∅, <[Phase.ANNOUNCE := ∅]>
                             (acknowledgments (announcing migration s)))).
  { unfold registry. rewrite Hexe.
    rewrite sendPhase_apps, set_status_apps.
    rewrite sendPhase_acknowledgments, set_status_acknowledgments.
    rewrite Hann. simpl. rewrite Hann_apps. reflexivity. }
  assert (Happ_reg : registry (applying run_stmt control migration env s)
                     = (∅, <[Phase.ANNOUNCE := ∅]>
                             (acknowledgments (announcing migration s)))).
  { rewrite <- Hexe_reg. unfold registry. rewrite applying_eq.
    rewrite sendPhase_apps, set_status_apps, sendPhase_apps.
    rewrite sendPhase_acknowledgments, set_status_acknowledgments,
      sendPhase_acknowledgments.
    unfold executor_outcome.
    rewrite executeMigrations_apps, executeMigrations_acknowledgments.
    reflexivity. }
  unfold registry in Happ_reg. injection Happ_reg as Happ_apps Happ_acks.
  assert (Happ : apply_outcome run_stmt control migration env s
                 = (Ret tt,
                    elapse poll_period
                      (set_acknowledgments (insert Phase.APPLY (∅ : gset string))
                         (applying run_stmt control migration env s))))
    by (apply wait_nobody; assumption).
  rewrite startMigration_eq, Hann, Hres, Hok, Happ. cbn [fst snd].
  assert (Hid : current_id
                  (elapse poll_period
                     (set_acknowledgments (insert Phase.APPLY (∅ : gset string))
                        (applying run_stmt control migration env s)))
                = Some (id migration)) by apply applying_id.
  destruct (complete_facts migration _ _ Hid)
    as (_ & Hst & _ & _ & _ & _ & Hacks & _).
  split; [exact Hst|]. split; [reflexivity|]. split; [reflexivity|].
  unfold acked. rewrite Hacks. simpl. rewrite Happ_acks.
  rewrite lookup_insert_ne by discriminate.
  rewrite !lookup_insert_eq. auto.
Qed.

End Properties.

(** * The concrete runs *)

(** Scenario A of the specification: everybody acknowledges, the run ends
    COMPLETED with both statements committed. *)
Example happy_run_completes :
  let final := snd (startMigration demo_stmt demo_control demo_migration happy_run three_apps) in
  observed_status final = Some MigrationStatus.COMPLETED /\
  committed (pool final) = sql demo_migration /\
  connects (pool final) = 1.
Proof. vm_compute. auto. Qed.

(** C1, counterexample: three participants are registered when the wait for
    APPLY starts; [app-3] disconnects without having acknowledged and the
    two others acknowledge.  The wait resolves with two acknowledgments and
    the run ends COMPLETED, not FAILED. *)
Lemma disconnect_run_completes :
  let start := applying demo_stmt demo_control demo_migration disconnect_run three_apps in
  let wait := apply_outcome demo_stmt demo_control demo_migration disconnect_run three_apps in
  let final :=
    snd (startMigration demo_stmt demo_control demo_migration disconnect_run three_apps) in
  size (apps start) = 3 /\
  fst wait = Ret tt /\
  acked Phase.APPLY (snd wait) = {["app-1"; "app-2"]} /\
  observed_status final = Some MigrationStatus.COMPLETED.
Proof. vm_compute. auto. Qed.

(** C2, counterexample: the three participants registered when the wait for
    APPLY starts all acknowledge, but [app-4] connected during the wait and
    acknowledges nothing.  The wait times out with three acknowledgments for
    four sockets and the run ends FAILED. *)
Lemma late_joiner_run_fails :
  let start := applying demo_stmt demo_control demo_migration late_joiner_run three_apps in
  let wait := apply_outcome demo_stmt demo_control demo_migration late_joiner_run three_apps in
  let final :=
    snd (startMigration demo_stmt demo_control demo_migration late_joiner_run three_apps) in
  dom (apps start) = {["app-1"; "app-2"; "app-3"]} /\
  acked Phase.APPLY (snd wait) = {["app-1"; "app-2"; "app-3"]} /\
  fst wait = Throw (Timeout 3 4 Phase.APPLY) /\
  observed_status final = Some MigrationStatus.FAILED.
Proof. vm_compute. auto. Qed.

(** C6, counterexample: the first migration fails because [app-3] does not
    acknowledge APPLY in time.  Its answer to the APPLY message of the first
    migration arrives while the second migration waits for APPLY: it is
    counted, and the second migration ends COMPLETED although [app-3] never
    answered its APPLY message. *)
Lemma stale_answer_counts_for_next_migration :
  let s1 :=
    snd (startMigration demo_stmt demo_control demo_migration apply_timeout_run three_apps) in
  let s2 := snd (startMigration demo_stmt demo_control second_migration second_run s1) in
  observed_status s1 = Some MigrationStatus.FAILED /\
  In ("app-3", PhaseMsg first_apply_message) (sent s1) /\
  msg_migrationId first_apply_message = id demo_migration /\
  handleMessage "app-3" first_apply_message
  = Some (sendAcknowledgment "app-3" Phase.APPLY) /\
  polls (apply_wait second_run)
  = [[EvMessage "app-3" (sendAcknowledgment "app-3" Phase.APPLY)];
     [ack "app-1" Phase.APPLY; ack "app-2" Phase.APPLY]] /\
  current_id s2 = Some "m2" /\
  acked Phase.APPLY s2 = {["app-1"; "app-2"; "app-3"]} /\
  observed_status s2 = Some MigrationStatus.COMPLETED.
Proof.
  cbv zeta. split; [vm_compute; reflexivity|]. split; [among|].
  vm_compute. auto 10.
Qed.

(** C7, counterexample: an acknowledgment of ANNOUNCE is in the set when the
    migration starts.  When ANNOUNCE has been written on the sockets the set
    still holds it: the set is emptied afterwards, by the wait. *)
Lemma broadcast_precedes_reset :
  let s := announcing demo_migration stale_ack_state in
  In ("app-1",
      PhaseMsg {| msg_phase := Phase.ANNOUNCE; msg_migrationId := "m1";
                  msg_status := None; msg_timestamp := 0%Z |}) (sent s) /\
  acked Phase.ANNOUNCE s = {["app-1"]} /\
  acked Phase.ANNOUNCE
    (set_acknowledgments (insert Phase.ANNOUNCE (∅ : gset string)) s) = ∅.
Proof. cbv zeta. split; [among|]. vm_compute. auto. Qed.

(** C3, counterexample: a list whose second statement is COMMIT.  The
    database reads it as the end of the transaction and commits the first
    column; the third statement, which adds the same column again, is
    refused outside of any transaction.  The executor sends ROLLBACK and
    reports the failure, and the first column stays: a partial change
    survives a failed call. *)
Lemma commit_statement_keeps_a_partial_change :
  let statements :=
    ["ALTER TABLE users ADD COLUMN email TEXT"; "COMMIT";
     "ALTER TABLE users ADD COLUMN email TEXT"] in
  let r :=
    executeMigrations demo_stmt demo_control no_faults statements
      (new_coordinator []) in
  tx (pool (new_coordinator [])) = Idle /\
  fst r = Ret {| success := false; error := Some (DbError "already exists") |} /\
  committed (pool (snd r)) = ["ALTER TABLE users ADD COLUMN email TEXT"] /\
  committed (pool (snd r)) <> committed (pool (new_coordinator [])) /\
  history (pool (snd r))
  = [Sql.BEGIN; Sql.Stmt "ALTER TABLE users ADD COLUMN email TEXT";
     Sql.Stmt "COMMIT"; Sql.Stmt "ALTER TABLE users ADD COLUMN email TEXT";
     Sql.ROLLBACK].
Proof. vm_compute. repeat split. discriminate. Qed.

(** C8, counterexample: a run that fails because ANNOUNCE timed out and a
    run that fails because the database refused the connection leave the
    same migration object; the two causes are only on the console. *)
Lemma failed_migration_carries_no_cause :
  let a :=
    snd (startMigration demo_stmt demo_control demo_migration announce_timeout_run three_apps) in
  let b :=
    snd (startMigration demo_stmt demo_control demo_migration connect_refused_run three_apps) in
  observed_status a = Some MigrationStatus.FAILED /\
  currentMigration a = currentMigration b /\
  In (LogRollingBack (Caught (Timeout 2 3 Phase.ANNOUNCE))) (console a) /\
  In (LogRollingBack (Caught (DbError "connection refused"))) (console b).
Proof.
  cbv zeta. split; [vm_compute; reflexivity|].
  split; [vm_compute; reflexivity|]. split; among.
Qed.

(** An acknowledgment with status ERROR from every participant, for both
    phases: the run ends COMPLETED. *)
Example error_acknowledgments_complete :
  observed_status
    (snd (startMigration demo_stmt demo_control demo_migration
            {| announce_wait :=
                 {| polls := [[nack "app-1" Phase.ANNOUNCE;
                               nack "app-2" Phase.ANNOUNCE;
                               nack "app-3" Phase.ANNOUNCE]];
                    rest := [] |};
               exec_events := [];
               faults := no_faults;
               apply_wait :=
                 {| polls := [[nack "app-1" Phase.APPLY;
                               nack "app-2" Phase.APPLY;
                               nack "app-3" Phase.APPLY]];
                    rest := [] |} |}
            three_apps))
  = Some MigrationStatus.COMPLETED.
Proof. vm_compute. reflexivity. Qed.

(** The second statement of the list is refused: the executor sends
    ROLLBACK, reports the failure with the error of the statement, and
    nothing is committed. *)
Example failing_statement_rolls_back :
  let r := executeMigrations demo_stmt demo_control no_faults (sql failing_migration)
             three_apps in
  fst r = Ret {| success := false; error := Some (DbError "already exists") |} /\
  committed (pool (snd r)) = [] /\
  history (pool (snd r))
  = [Sql.BEGIN; Sql.Stmt "ALTER TABLE users ADD COLUMN email TEXT";
     Sql.Stmt "ALTER TABLE users ADD COLUMN email TEXT"; Sql.ROLLBACK] /\
  leased (pool (snd r)) = 0.
Proof. vm_compute. auto. Qed.

(** The connection fails when COMMIT is sent (the fourth query): the
    executor rolls back and reports the failure. *)
Example commit_fault_rolls_back :
  let f := {| connect_fault := None;
              query_fault := fun n => if Nat.eqb n 3 then Some "connection lost"
                                      else None |} in
  let r := executeMigrations demo_stmt demo_control f (sql demo_migration) three_apps in
  fst r = Ret {| success := false;
                 error := Some (DbError "connection lost") |} /\
  committed (pool (snd r)) = [] /\
  leased (pool (snd r)) = 0.
Proof. vm_compute. auto. Qed.

(** The connection fails at the second statement and stays down: ROLLBACK
    fails too and the executor throws, after having released the client. *)
Example rollback_fault_throws :
  let f := {| connect_fault := None;
              query_fault := fun n => if Nat.leb 2 n then Some "connection lost"
                                      else None |} in
  let r := executeMigrations demo_stmt demo_control f (sql demo_migration) three_apps in
  fst r = Throw (DbError "connection lost") /\
  committed (pool (snd r)) = [] /\
  leased (pool (snd r)) = 0.
Proof. vm_compute. auto. Qed.

(** ** The theorems at concrete runs *)

(** The executor on the migration of the demo, from an idle session. *)
Lemma executeMigrations_on_demo :
  tx (pool three_apps) = Idle /\
  ordinary demo_control (sql demo_migration) /\
  fst (executeMigrations demo_stmt demo_control no_faults (sql demo_migration)
         three_apps)
  = Ret {| success := true; error := None |} /\
  committed
    (pool (snd (executeMigrations demo_stmt demo_control no_faults
                  (sql demo_migration) three_apps)))
  = sql demo_migration /\
  leased
    (pool (snd (executeMigrations demo_stmt demo_control no_faults
                  (sql demo_migration) three_apps)))
  = leased (pool three_apps).
Proof.
  assert (H : tx (pool three_apps) = Idle) by reflexivity.
  assert (O : ordinary demo_control (sql demo_migration))
    by (repeat constructor).
  split; [exact H|]. split; [exact O|].
  pose proof (executeMigrations_all_or_nothing demo_stmt demo_control
                no_faults (sql demo_migration) three_apps H) as T.
  cbv zeta in T. destruct T as (T0 & _ & T2).
  destruct (T0 O) as ((_ & T1) & _).
  assert (R : run_all demo_stmt (sql demo_migration) (committed (pool three_apps))
              = inl (sql demo_migration)) by (vm_compute; reflexivity).
  rewrite R in T1. destruct T1 as (T1 & T3 & _). auto.
Defined.

(** The set of ANNOUNCE in a run: [app-3] acknowledged ANNOUNCE before the
    run and stays silent during it, [app-1] acknowledges at once.  At the
    end [app-3] is not in the set and [app-1] is. *)
Lemma set_emptied_on_demo :
  let s := handle_all [ack "app-3" Phase.ANNOUNCE] three_apps in
  let final :=
    snd (startMigration demo_stmt demo_control demo_migration
           announce_timeout_run s) in
  acked Phase.ANNOUNCE s = {["app-3"]} /\
  ("app-3" ∉ acked Phase.ANNOUNCE final) /\
  ("app-1" ∈ acked Phase.ANNOUNCE final).
Proof.
  cbv zeta. split; [vm_compute; reflexivity|]. split.
  - destruct (set_emptied_between_broadcast_and_wait demo_stmt demo_control
                demo_migration announce_timeout_run "app-3"
                (handle_all [ack "app-3" Phase.ANNOUNCE] three_apps))
      as (_ & N & _).
    apply N.
    assert (E : senders Phase.ANNOUNCE (run_events announce_timeout_run)
                = {["app-1"; "app-2"]}) by (vm_compute; reflexivity).
    rewrite E. intro H. apply elem_of_union in H as [H | H];
      apply elem_of_singleton in H; discriminate H.
  - destruct (set_emptied_between_broadcast_and_wait demo_stmt demo_control
                demo_migration announce_timeout_run "app-1"
                (handle_all [ack "app-3" Phase.ANNOUNCE] three_apps))
      as (P & _).
    apply (P 0 [] (sendAcknowledgment "app-1" Phase.ANNOUNCE)
             [ack "app-2" Phase.ANNOUNCE]).
    + vm_compute. reflexivity.
    + reflexivity.
    + intros k Hk. lia.
    + exists ReadyState.OPEN. vm_compute. reflexivity.
Defined.

(** Scenario B of the specification: only two of the three participants
    acknowledge ANNOUNCE. *)
Lemma announce_timeout_on_demo :
  returned
    (fst (announce_outcome demo_migration announce_timeout_run three_apps))
  = false /\
  observed_status
    (snd (startMigration demo_stmt demo_control demo_migration announce_timeout_run
            three_apps))
  = Some MigrationStatus.FAILED /\
  pool (snd (startMigration demo_stmt demo_control demo_migration announce_timeout_run
               three_apps))
  = pool three_apps.
Proof.
  assert (H : returned
                (fst (announce_outcome demo_migration announce_timeout_run
                        three_apps)) = false) by (vm_compute; reflexivity).
  split; [exact H|].
  destruct (announce_timeout_rolls_back demo_stmt demo_control demo_migration
              announce_timeout_run three_apps H) as (A & _ & _ & B & _).
  auto.
Defined.

(** The happy run ends COMPLETED: one call of the executor, which
    succeeded, and a completion time. *)
Lemma completed_on_demo :
  observed_status
    (snd (startMigration demo_stmt demo_control demo_migration happy_run three_apps))
  = Some MigrationStatus.COMPLETED /\
  connects
    (pool (snd (startMigration demo_stmt demo_control demo_migration happy_run three_apps)))
  = S (connects (pool three_apps)) /\
  exists result,
    fst (executor_outcome demo_stmt demo_control demo_migration happy_run three_apps)
    = Ret result /\ success result = true.
Proof.
  assert (H : observed_status
                (snd (startMigration demo_stmt demo_control demo_migration happy_run
                        three_apps))
              = Some MigrationStatus.COMPLETED) by (vm_compute; reflexivity).
  split; [exact H|].
  destruct (completed_after_one_successful_execution demo_stmt demo_control demo_migration
              happy_run three_apps) as (_ & T).
  destruct (T H) as (A & B & _). auto.
Defined.

(** A coordinator without participants runs the migration of the demo to
    COMPLETED. *)
Lemma no_participants_on_demo :
  apps (new_coordinator []) = ∅ /\
  observed_status
    (snd (startMigration demo_stmt demo_control demo_migration quiet_run (new_coordinator [])))
  = Some MigrationStatus.COMPLETED /\
  acked Phase.APPLY
    (snd (startMigration demo_stmt demo_control demo_migration quiet_run (new_coordinator [])))
  = ∅.
Proof.
  split; [reflexivity|].
  assert (Hok : exists result,
             fst (executor_outcome demo_stmt demo_control demo_migration quiet_run
                    (new_coordinator [])) = Ret result /\
             success result = true)
    by (eexists; split; vm_compute; reflexivity).
  destruct (no_participants_complete demo_stmt demo_control demo_migration quiet_run
              (new_coordinator []))
    as (A & _ & _ & _ & B); try reflexivity; try discriminate; try exact Hok.
  auto.
Defined.

(** The happy run ends COMPLETED, and its wait for APPLY found as many
    acknowledgments as registered sockets. *)
Lemma late_joiner_theorem_on_demo :
  observed_status
    (snd (startMigration demo_stmt demo_control demo_migration happy_run three_apps))
  = Some MigrationStatus.COMPLETED /\
  ack_count Phase.APPLY
    (snd (apply_outcome demo_stmt demo_control demo_migration happy_run three_apps))
  = size (apps (snd (apply_outcome demo_stmt demo_control demo_migration happy_run
                       three_apps))).
Proof.
  assert (H : observed_status
                (snd (startMigration demo_stmt demo_control demo_migration happy_run
                        three_apps))
              = Some MigrationStatus.COMPLETED) by (vm_compute; reflexivity).
  split; [exact H|].
  destruct (late_joiner_is_counted demo_stmt demo_control demo_migration happy_run
              three_apps) as (_ & T).
  destruct (T H) as (_ & B). exact B.
Defined.

(** * The client *)

Section Client.

Close Scope string_scope.
#[local] Set Warnings "-clear-no-such-hyp".

Import AppClient.

Implicit Types (c : AppClient.t) (evs : list AppClient.event).

Lemma run_app evs evs' c : run (evs ++ evs') c = run evs' (run evs c).
Proof. unfold run. apply fold_left_app. Qed.

Lemma run_cons ev evs c : run (ev :: evs) c = run evs (step ev c).
Proof. reflexivity. Qed.

(** ** The feature flag *)

Lemma stopQueryingDatabase_flag c :
  useNewSchema (stopQueryingDatabase c) = useNewSchema c.
Proof. unfold stopQueryingDatabase. destruct (queryInterval c); reflexivity. Qed.

Lemma step_flag ev c :
  useNewSchema (step ev c)
  = match ev with
    | Message (PhaseMsg m) => switch (msg_phase m) (useNewSchema c)
    | _ => useNewSchema c
    end.
Proof.
  destruct ev as [|[a|m]| |h answer| |detail|]; simpl; try reflexivity.
  - destruct (msg_phase m); simpl; try reflexivity.
    destruct (msg_status m) as [[]|]; reflexivity.
  - destruct (apply_timeouts c); reflexivity.
  - case_bool_decide; [|reflexivity].
    unfold queryUsers. destruct answer; reflexivity.
  - rewrite stopQueryingDatabase_flag. reflexivity.
  - unfold disconnect. simpl. apply stopQueryingDatabase_flag.
Qed.

Lemma flag_stays (b : bool) (other : Phase.t) evs c :
  switch other b = negb b ->
  count_phase other evs = 0 ->
  useNewSchema c = b ->
  useNewSchema (run evs c) = b.
Proof.
  intros Hother. revert c.
  induction evs as [|ev evs IH]; intros c Hcount Hc; [exact Hc|].
  rewrite run_cons. unfold count_phase in *. simpl in Hcount.
  apply IH.
  - destruct ev as [|[a|m]| | | | |]; simpl in Hcount; try exact Hcount.
    case_bool_decide; simpl in Hcount; [discriminate | exact Hcount].
  - rewrite step_flag.
    destruct ev as [|[a|m]| | | | |]; try exact Hc.
    simpl in Hcount. case_bool_decide as Hm; simpl in Hcount; [discriminate|].
    rewrite Hc. destruct (msg_phase m), other, b; simpl in *;
      congruence.
Qed.

Lemma receive_flag (msgs : list PhaseMessage) : forall c,
  useNewSchema (receive (PhaseMsg <$> msgs) c)
  = fold_left (fun flag k => switch k.1 flag) (phase_and_status <$> msgs)
      (useNewSchema c).
Proof.
  unfold receive.
  induction msgs as [|m msgs IH]; intro c; [reflexivity|].
  rewrite !fmap_cons. cbn [List.map fold_left]. rewrite run_cons, IH.
  rewrite step_flag. reflexivity.
Qed.

(** X1: the feature flag of the client follows the last APPLY or ROLLBACK
    it received.  After an APPLY message that no ROLLBACK message follows
    the flag is set; after a ROLLBACK message that no APPLY message follows
    it is not; nothing else that happens to the client changes it.  When
    one of its intervals fires, the client queries the new columns exactly
    when the flag is set. *)
Theorem flag_follows_last_switch before m after c h answer :
  (msg_phase m = Phase.APPLY -> count_phase Phase.ROLLBACK after = 0 ->
   useNewSchema (run (before ++ Message (PhaseMsg m) :: after) c) = true) /\
  (msg_phase m = Phase.ROLLBACK -> count_phase Phase.APPLY after = 0 ->
   useNewSchema (run (before ++ Message (PhaseMsg m) :: after) c) = false) /\
  (count_phase Phase.APPLY after = 0 ->
   count_phase Phase.ROLLBACK after = 0 ->
   useNewSchema (run after c) = useNewSchema c) /\
  (h ∈ intervals c ->
   queries (step (QueryInterval h answer) c)
   = queries c ++ [if useNewSchema c then new_query else old_query]).
Proof.
  split; [|split; [|split]].
  - intros Hm Hafter. rewrite run_app, run_cons.
    apply (flag_stays true Phase.ROLLBACK); [reflexivity | exact Hafter |].
    rewrite step_flag, Hm. reflexivity.
  - intros Hm Hafter. rewrite run_app, run_cons.
    apply (flag_stays false Phase.APPLY); [reflexivity | exact Hafter |].
    rewrite step_flag, Hm. reflexivity.
  - intros Ha Hr. destruct (useNewSchema c) eqn:Hc.
    + apply (flag_stays true Phase.ROLLBACK); auto.
    + apply (flag_stays false Phase.APPLY); auto.
  - intro Hh. simpl. rewrite bool_decide_eq_true_2 by exact Hh.
    unfold queryUsers. destruct answer; reflexivity.
Qed.


(** ** The acknowledgments the client sends *)

Lemma acks_for_snoc phase l k :
  acks_for phase (l ++ [k])
  = acks_for phase l + (if bool_decide (ack_phase k = phase) then 1 else 0).
Proof.
  unfold acks_for. rewrite List.filter_app, length_app. simpl.
  destruct (bool_decide (ack_phase k = phase)); reflexivity.
Qed.

Lemma stopQueryingDatabase_acks c :
  acks (stopQueryingDatabase c) = acks c /\
  apply_timeouts (stopQueryingDatabase c) = apply_timeouts c /\
  appId (stopQueryingDatabase c) = appId c.
Proof. unfold stopQueryingDatabase. destruct (queryInterval c); auto. Qed.

(** What one event adds to the acknowledgments the client sent, and what
    it does to the timeouts that have not fired. *)
Lemma step_acks ev c :
  (acks (step ev c), apply_timeouts (step ev c))
  = match ev with
    | Message (PhaseMsg m) =>
        match msg_phase m with
        | Phase.ANNOUNCE =>
            (acks c ++ [sendAcknowledgment (appId c) Phase.ANNOUNCE],
             apply_timeouts c)
        | Phase.APPLY => (acks c, S (apply_timeouts c))
        | _ => (acks c, apply_timeouts c)
        end
    | ApplyTimeout =>
        match apply_timeouts c with
        | 0 => (acks c, 0)
        | S n => (acks c ++ [sendAcknowledgment (appId c) Phase.APPLY], n)
        end
    | _ => (acks c, apply_timeouts c)
    end.
Proof.
  destruct ev as [|[a|m]| |h answer| |detail|]; simpl; try reflexivity.
  - destruct (msg_phase m); simpl; try reflexivity.
    destruct (msg_status m) as [[]|]; reflexivity.
  - destruct (apply_timeouts c) eqn:Hn; simpl; [rewrite Hn|]; reflexivity.
  - case_bool_decide; [|reflexivity].
    unfold queryUsers. destruct answer; reflexivity.
  - destruct (stopQueryingDatabase_acks (log LogDisconnectedFromCoord c))
      as (-> & -> & _). reflexivity.
  - unfold disconnect. simpl.
    destruct (stopQueryingDatabase_acks c) as (-> & -> & _). reflexivity.
Qed.

Lemma step_appId ev c :
  is_welcome ev = false -> appId (step ev c) = appId c.
Proof.
  destruct ev as [|[a|m]| |h answer| |detail|]; simpl; intro Hw;
    try reflexivity; try discriminate.
  - destruct (msg_phase m); simpl; try reflexivity.
    destruct (msg_status m) as [[]|]; reflexivity.
  - destruct (apply_timeouts c); reflexivity.
  - case_bool_decide; [|reflexivity].
    unfold queryUsers. destruct answer; reflexivity.
  - destruct (stopQueryingDatabase_acks (log LogDisconnectedFromCoord c))
      as (_ & _ & ->). reflexivity.
  - unfold disconnect. simpl.
    destruct (stopQueryingDatabase_acks c) as (_ & _ & ->). reflexivity.
Qed.

Lemma count_phase_cons phase ev evs :
  count_phase phase (ev :: evs)
  = (match ev with
     | Message (PhaseMsg m) =>
         if bool_decide (msg_phase m = phase) then 1 else 0
     | _ => 0
     end) + count_phase phase evs.
Proof.
  unfold count_phase. simpl.
  destruct ev as [|[a|m]| | | | |]; try reflexivity.
  destruct (bool_decide (msg_phase m = phase)); reflexivity.
Qed.

Lemma announce_acks evs : forall c,
  acks_for Phase.ANNOUNCE (acks (run evs c))
  = acks_for Phase.ANNOUNCE (acks c) + count_phase Phase.ANNOUNCE evs.
Proof.
  induction evs as [|ev evs IH]; intro c.
  - unfold count_phase. simpl. lia.
  - rewrite run_cons, IH, count_phase_cons.
    pose proof (step_acks ev c) as Hstep.
    pose proof (f_equal fst Hstep) as Ha. cbn [fst] in Ha.
    rewrite Ha. clear Ha Hstep.
    destruct ev as [|[a|m]| | | | |]; cbn [fst]; try lia.
    + destruct (msg_phase m); cbn [fst]; rewrite ?acks_for_snoc; simpl; lia.
    + destruct (apply_timeouts c); cbn [fst]; rewrite ?acks_for_snoc;
        simpl; lia.
Qed.

Lemma apply_acks evs : forall c,
  acks_for Phase.APPLY (acks (run evs c)) + apply_timeouts (run evs c)
  = acks_for Phase.APPLY (acks c) + apply_timeouts c
    + count_phase Phase.APPLY evs.
Proof.
  induction evs as [|ev evs IH]; intro c.
  - unfold count_phase. simpl. lia.
  - rewrite run_cons, IH, count_phase_cons.
    pose proof (step_acks ev c) as Hstep.
    pose proof (f_equal fst Hstep) as Ha. cbn [fst] in Ha.
    pose proof (f_equal snd Hstep) as Ht. cbn [snd] in Ht.
    rewrite Ha, Ht. clear Ha Ht Hstep.
    destruct ev as [|[a|m]| | | | |]; cbn [fst snd]; try lia.
    + destruct (msg_phase m); cbn [fst snd]; rewrite ?acks_for_snoc;
        simpl; lia.
    + destruct (apply_timeouts c); cbn [fst snd]; rewrite ?acks_for_snoc;
        simpl; lia.
Qed.

Lemma acks_well_formed evs : forall c,
  (forall ev, In ev evs -> is_welcome ev = false) ->
  exists new,
    acks (run evs c) = acks c ++ new /\
    Forall (well_formed_ack (appId c)) new.
Proof.
  induction evs as [|ev evs IH]; intros c Hw.
  - exists []. rewrite app_nil_r. split; [reflexivity | constructor].
  - rewrite run_cons.
    destruct (IH (step ev c)) as (new & Hnew & Hall).
    { intros ev' Hin. apply Hw. right. exact Hin. }
    rewrite step_appId in Hall by (apply Hw; left; reflexivity).
    pose proof (step_acks ev c) as Hstep.
    assert (Hone : forall phase,
              phase = Phase.ANNOUNCE \/ phase = Phase.APPLY ->
              well_formed_ack (appId c) (sendAcknowledgment (appId c) phase)).
    { intros phase Hphase. repeat split. exact Hphase. }
    pose proof (f_equal fst Hstep) as Ha. cbn [fst] in Ha.
    rewrite Hnew, Ha. clear Hnew Ha Hstep.
    destruct ev as [|[a|m]| | | | |]; cbn [fst];
      try (exists new; split; [reflexivity | exact Hall]).
    + destruct (msg_phase m); cbn [fst];
        try (exists new; split; [reflexivity | exact Hall]).
      eexists. rewrite <- app_assoc. split; [reflexivity|].
      constructor; [apply Hone; auto | exact Hall].
    + destruct (apply_timeouts c); cbn [fst];
        try (exists new; split; [reflexivity | exact Hall]).
      eexists. rewrite <- app_assoc. split; [reflexivity|].
      constructor; [apply Hone; auto | exact Hall].
Qed.

Lemma no_timeout_no_apply_ack evs : forall c,
  (forall ev, In ev evs -> ev <> ApplyTimeout) ->
  acks_for Phase.APPLY (acks (run evs c)) = acks_for Phase.APPLY (acks c).
Proof.
  induction evs as [|ev evs IH]; intros c Hno; [reflexivity|].
  rewrite run_cons, IH by (intros ev' Hin; apply Hno; right; exact Hin).
  pose proof (step_acks ev c) as Hstep.
  pose proof (f_equal fst Hstep) as Ha. cbn [fst] in Ha.
  rewrite Ha. clear Ha Hstep.
  assert (Hev : ev <> ApplyTimeout) by (apply Hno; left; reflexivity).
  destruct ev as [|[a|m]| | | | |]; cbn [fst]; try reflexivity;
    [|congruence].
  destruct (msg_phase m); cbn [fst]; rewrite ?acks_for_snoc; simpl; lia.
Qed.

(** X2: the acknowledgments of the client.  Event by event: an ANNOUNCE
    message is acknowledged at once; an APPLY message sends nothing and
    sets one more 100 ms timeout; a timeout that fires sends exactly one
    acknowledgment of APPLY; nothing else sends or schedules anything.
    Hence the ANNOUNCE acknowledgments sent grow by the number of ANNOUNCE
    messages received, the APPLY acknowledgments sent and the timeouts
    still to fire grow together by the number of APPLY messages received,
    and as long as no timeout fires no acknowledgment of APPLY is sent.
    As long as no new welcome object arrives, every acknowledgment the
    client sends carries its identifier and the status ACKNOWLEDGED, no
    error, and the phase ANNOUNCE or APPLY: the client never reports an
    error to the coordinator. *)
Theorem client_acknowledgments evs c :
  (forall ev c',
     (acks (step ev c'), apply_timeouts (step ev c'))
     = match ev with
       | Message (PhaseMsg m) =>
           match msg_phase m with
           | Phase.ANNOUNCE =>
               (acks c' ++ [sendAcknowledgment (appId c') Phase.ANNOUNCE],
                apply_timeouts c')
           | Phase.APPLY => (acks c', S (apply_timeouts c'))
           | _ => (acks c', apply_timeouts c')
           end
       | ApplyTimeout =>
           match apply_timeouts c' with
           | 0 => (acks c', 0)
           | S n =>
               (acks c' ++ [sendAcknowledgment (appId c') Phase.APPLY], n)
           end
       | _ => (acks c', apply_timeouts c')
       end) /\
  acks_for Phase.ANNOUNCE (acks (run evs c))
  = acks_for Phase.ANNOUNCE (acks c) + count_phase Phase.ANNOUNCE evs /\
  acks_for Phase.APPLY (acks (run evs c)) + apply_timeouts (run evs c)
  = acks_for Phase.APPLY (acks c) + apply_timeouts c
    + count_phase Phase.APPLY evs /\
  ((forall ev, In ev evs -> ev <> ApplyTimeout) ->
   acks_for Phase.APPLY (acks (run evs c)) = acks_for Phase.APPLY (acks c)) /\
  ((forall ev, In ev evs -> is_welcome ev = false) ->
   exists new,
     acks (run evs c) = acks c ++ new /\
     Forall (well_formed_ack (appId c)) new).
Proof.
  split; [apply step_acks|].
  split; [apply announce_acks|]. split; [apply apply_acks|].
  split; [apply no_timeout_no_apply_ack|].
  intro Hw. apply acks_well_formed. exact Hw.
Qed.

(** ** The query interval *)

Lemma step_idle ev c :
  is_welcome ev = false -> idle c -> idle (step ev c).
Proof.
  unfold idle. intros Hw (Hi & Hq).
  destruct ev as [|[a|m]| |h answer| |detail|]; simpl; try discriminate;
    auto.
  - destruct (msg_phase m); simpl; auto.
    destruct (msg_status m) as [[]|]; auto.
  - destruct (apply_timeouts c); auto.
  - case_bool_decide; auto. unfold queryUsers. destruct answer; auto.
  - unfold stopQueryingDatabase. simpl. rewrite Hq. auto.
  - unfold disconnect, stopQueryingDatabase. rewrite Hq. auto.
Qed.

Lemma stopQueryingDatabase_idle c :
  holds_its_interval c -> idle (stopQueryingDatabase c).
Proof.
  unfold holds_its_interval, idle, stopQueryingDatabase.
  destruct (queryInterval c) as [h|] eqn:Hq; intro Hi; simpl.
  - split; [|reflexivity]. rewrite Hi. set_solver.
  - auto.
Qed.

Lemma idle_holds c : idle c -> holds_its_interval c.
Proof. unfold idle, holds_its_interval. intros (-> & ->). reflexivity. Qed.

Lemma step_holds ev c :
  is_welcome ev = false -> holds_its_interval c ->
  holds_its_interval (step ev c).
Proof.
  intros Hw Hc.
  destruct ev as [|[a|m]| |h answer| |detail|]; simpl; try discriminate;
    try exact Hc.
  - destruct (msg_phase m); simpl; try exact Hc.
    destruct (msg_status m) as [[]|]; exact Hc.
  - destruct (apply_timeouts c); exact Hc.
  - case_bool_decide; [|exact Hc]. unfold queryUsers.
    destruct answer; exact Hc.
  - apply idle_holds, stopQueryingDatabase_idle. exact Hc.
  - apply idle_holds.
    destruct (stopQueryingDatabase_idle c Hc) as (Hi & Hq).
    unfold disconnect, idle. simpl. auto.
Qed.

Lemma welcome_holds a c :
  idle c -> holds_its_interval (step (Message (WELCOME a)) c).
Proof.
  unfold idle, holds_its_interval. intros (Hi & Hq). simpl.
  rewrite Hi. set_solver.
Qed.

Lemma run_holds evs : forall c,
  (forall ev, In ev evs -> is_welcome ev = false) ->
  holds_its_interval c -> holds_its_interval (run evs c).
Proof.
  induction evs as [|ev evs IH]; intros c Hw Hc; [exact Hc|].
  rewrite run_cons. apply IH.
  - intros ev' Hin. apply Hw. right. exact Hin.
  - apply step_holds; [apply Hw; left; reflexivity | exact Hc].
Qed.

Lemma run_idle evs : forall c,
  (forall ev, In ev evs -> is_welcome ev = false) ->
  idle c -> idle (run evs c).
Proof.
  induction evs as [|ev evs IH]; intros c Hw Hc; [exact Hc|].
  rewrite run_cons. apply IH.
  - intros ev' Hin. apply Hw. right. exact Hin.
  - apply step_idle; [apply Hw; left; reflexivity | exact Hc].
Qed.

Lemma step_stopped ev c :
  is_welcome ev = false -> idle c -> queries (step ev c) = queries c.
Proof.
  unfold idle. intros Hw (Hi & Hq).
  destruct ev as [|[a|m]| |h answer| |detail|]; simpl; try discriminate;
    auto.
  - destruct (msg_phase m); simpl; auto.
    destruct (msg_status m) as [[]|]; auto.
  - destruct (apply_timeouts c); auto.
  - rewrite bool_decide_eq_false_2; [reflexivity|]. rewrite Hi. set_solver.
  - unfold stopQueryingDatabase. simpl. rewrite Hq. reflexivity.
  - unfold disconnect, stopQueryingDatabase. rewrite Hq. reflexivity.
Qed.

Lemma run_stopped evs : forall c,
  (forall ev, In ev evs -> is_welcome ev = false) ->
  idle c -> queries (run evs c) = queries c.
Proof.
  induction evs as [|ev evs IH]; intros c Hw Hc; [reflexivity|].
  rewrite run_cons, IH.
  - apply step_stopped; [apply Hw; left; reflexivity | exact Hc].
  - intros ev' Hin. apply Hw. right. exact Hin.
  - apply step_idle; [apply Hw; left; reflexivity | exact Hc].
Qed.

(** X3: the query interval of a client that is welcomed once.  Whatever
    else happens to it before and after the welcome object, when its socket
    closes, or when [disconnect] is called, no interval of the client is
    left running, and from then on it sends no query: an interval that
    would still fire finds nothing to run.  (A client that was never
    welcomed has no interval at all.) *)
Theorem one_welcome_leaves_no_interval before a between stop after :
  (forall ev, In ev (before ++ between ++ after) -> is_welcome ev = false) ->
  stop = Close \/ stop = Disconnect ->
  let stopped :=
    run (before ++ Message (WELCOME a) :: between ++ [stop]) create in
  intervals stopped = ∅ /\
  queryInterval stopped = None /\
  queries (run after stopped) = queries stopped /\
  intervals (run after stopped) = ∅ /\
  idle (run (before ++ between ++ after) create).
Proof.
  intros Hw Hstop stopped.
  assert (Hcreate : idle create) by (split; reflexivity).
  assert (Hidle : idle stopped).
  { unfold stopped.
    rewrite run_app, run_cons, run_app.
    set (c := run between _).
    assert (Hc : holds_its_interval c).
    { apply run_holds.
      - intros ev Hin. apply Hw. rewrite !in_app_iff. auto.
      - apply welcome_holds, run_idle; [|exact Hcreate].
        intros ev Hin. apply Hw. rewrite !in_app_iff. auto. }
    destruct Hstop as [-> | ->]; simpl.
    - apply stopQueryingDatabase_idle. exact Hc.
    - destruct (stopQueryingDatabase_idle c Hc) as (Hi & Hq).
      unfold disconnect, idle. simpl. auto. }
  assert (Hafter : forall ev, In ev after -> is_welcome ev = false).
  { intros ev Hin. apply Hw. rewrite !in_app_iff. auto. }
  split; [apply Hidle | split; [apply Hidle | split; [|split]]].
  - apply run_stopped; assumption.
  - apply (run_idle after stopped Hafter Hidle).
  - apply run_idle; assumption.
Qed.

End Client.

(** * Sockets, runs and the database *)

Section Sockets.

Close Scope string_scope.
#[local] Set Warnings "-clear-no-such-hyp".

Context {DB : Type}.
Variable run_stmt : string -> DB -> DB + string.
Variable control : string -> option Sql.control.

Abbreviation State := (@State DB).
Abbreviation M := (@M DB).

Implicit Types (s : State) (phase : Phase.t) (evs : list Event).

(** ** What a socket receives *)

Lemma inbox_app a (l1 l2 : list (string * Wire)) :
  inbox a (l1 ++ l2) = inbox a l1 ++ inbox a l2.
Proof. apply omap_app. Qed.

Lemma inbox_ws_send a b data s :
  inbox a (sent (ws_send b data s))
  = inbox a (sent s) ++ (if decide (b = a) then [data] else []).
Proof.
  simpl. rewrite inbox_app. f_equal.
  unfold inbox. simpl. destruct (decide (b = a)); reflexivity.
Qed.

(** What a broadcast over a list of sockets writes for [a]. *)
Lemma broadcast_fold_inbox data (entries : list (string * ReadyState.t)) s a :
  inbox a (sent (fold_left (broadcast_one data) entries s))
  = inbox a (sent s)
    ++ omap (fun entry : string * ReadyState.t =>
               if decide (entry.1 = a)
               then (if ReadyState.is_open entry.2 then Some data else None)
               else None) entries.
Proof.
  revert s. induction entries as [|[b r] entries IH]; intro s; simpl.
  - rewrite app_nil_r. reflexivity.
  - rewrite IH. unfold broadcast_one. simpl.
    destruct (ReadyState.is_open r).
    + rewrite inbox_ws_send, <- app_assoc.
      destruct (decide (b = a)); reflexivity.
    + simpl. destruct (decide (b = a)); reflexivity.
Qed.

Lemma omap_step {A B} (f : A -> option B) (x : A) (l : list A) :
  omap f (x :: l)
  = match f x with Some y => y :: omap f l | None => omap f l end.
Proof. reflexivity. Qed.

Lemma once_per_key (data : Wire) (entries : list (string * ReadyState.t)) a :
  NoDup (entries.*1) ->
  omap (fun entry : string * ReadyState.t =>
          if decide (entry.1 = a)
          then (if ReadyState.is_open entry.2 then Some data else None)
          else None) entries
  = match list_find (fun entry => entry.1 = a) entries with
    | Some (_, (_, r)) => if ReadyState.is_open r then [data] else []
    | None => []
    end.
Proof.
  induction entries as [|[b r] entries IH]; intro Hnd; [reflexivity|].
  rewrite fmap_cons in Hnd. apply NoDup_cons in Hnd as [Hb Hnd].
  cbn [fst] in Hb. rewrite omap_step. cbn [fst snd list_find].
  destruct (decide (b = a)) as [->|Hne].
  - assert (Hnone : omap (fun entry : string * ReadyState.t =>
              if decide (entry.1 = a)
              then (if ReadyState.is_open entry.2 then Some data else None)
              else None) entries = []).
    { clear IH Hnd. induction entries as [|[c q] entries IH]; [reflexivity|].
      rewrite fmap_cons in Hb. cbn [fst] in Hb.
      rewrite omap_step. cbn [fst snd].
      destruct (decide (c = a)) as [->|Hc].
      - exfalso. apply Hb. left.
      - apply IH. intro H. apply Hb. right. exact H. }
    rewrite Hnone. simpl. destruct (ReadyState.is_open r); reflexivity.
  - rewrite (IH Hnd). simpl.
    destruct (list_find (fun entry => entry.1 = a) entries) as [[i [c q]]|];
      reflexivity.
Qed.

Lemma find_in_registry (registered : gmap string ReadyState.t) a :
  match list_find (fun entry : string * ReadyState.t => entry.1 = a)
          (map_to_list registered) with
  | Some (_, (_, r)) => registered !! a = Some r
  | None => registered !! a = None
  end.
Proof.
  destruct (list_find _ _) as [[i [b r]]|] eqn:Hf.
  - apply list_find_Some in Hf as (Hi & Hb & _). simpl in Hb. subst b.
    apply elem_of_map_to_list. apply list_elem_of_lookup. eauto.
  - apply list_find_None in Hf.
    destruct (registered !! a) as [r|] eqn:Hr; [|reflexivity].
    apply elem_of_map_to_list in Hr.
    rewrite Forall_forall in Hf. specialize (Hf _ Hr). simpl in Hf. congruence.
Qed.

Lemma broadcast_inbox message s a :
  inbox a (sent (broadcast message s))
  = inbox a (sent s)
    ++ match apps s !! a with
       | Some r => if ReadyState.is_open r then [PhaseMsg message] else []
       | None => []
       end.
Proof.
  unfold broadcast. rewrite broadcast_fold_inbox. f_equal.
  rewrite once_per_key by apply NoDup_fst_map_to_list.
  pose proof (find_in_registry (apps s) a) as H.
  destruct (list_find _ _) as [[i [b r]]|]; rewrite H; reflexivity.
Qed.

Lemma broadcast_fold_console data (entries : list (string * ReadyState.t)) s :
  console (fold_left (broadcast_one data) entries s)
  = console s
    ++ replicate
         (length (List.filter (fun entry : string * ReadyState.t =>
                                 negb (ReadyState.is_open entry.2)) entries))
         LogNotOpen.
Proof.
  revert s. induction entries as [|[b r] entries IH]; intro s; simpl.
  - rewrite app_nil_r. reflexivity.
  - rewrite IH. unfold broadcast_one. simpl.
    destruct (ReadyState.is_open r); simpl; [reflexivity|].
    rewrite <- app_assoc. reflexivity.
Qed.

(** X4: [broadcast] writes the message exactly once on every registered
    socket that is open and nothing on the others; it writes one line
    "connection not open" per registered socket that is not open, and
    changes nothing else. *)
Theorem broadcast_writes_once_per_open_socket message s a :
  inbox a (sent (broadcast message s))
  = inbox a (sent s)
    ++ match apps s !! a with
       | Some r => if ReadyState.is_open r then [PhaseMsg message] else []
       | None => []
       end /\
  console (broadcast message s)
  = console s ++ replicate (length (not_open (apps s))) LogNotOpen /\
  beyond_output (broadcast message s) = beyond_output s.
Proof.
  split; [apply broadcast_inbox|]. split; [|apply broadcast_beyond].
  unfold broadcast, not_open. apply broadcast_fold_console.
Qed.

(** ** Acknowledgments as a set *)

Lemma acknowledgments_lookup a message s phase :
  acknowledgments (handleAcknowledgment a message s) !! phase
  = if decide (ack_phase message = phase)
    then Some ({[a]} ∪ acked phase s)
    else acknowledgments s !! phase.
Proof.
  unfold handleAcknowledgment, acked.
  destruct (acknowledgments s !! ack_phase message) as [acks|] eqn:Hl;
    case_bool_decide; simpl; rewrite lookup_alter;
    destruct (decide (ack_phase message = phase)) as [<-|Hne];
    rewrite ?lookup_insert_eq, ?Hl, ?lookup_insert_ne by exact Hne;
    reflexivity.
Qed.

Lemma ack_count_acked phase s : ack_count phase s = size (acked phase s).
Proof.
  unfold ack_count, acked.
  destruct (acknowledgments s !! phase); [reflexivity|].
  symmetry. apply size_empty.
Qed.

(** X5: the acknowledgments of a phase form a set.  Handling the same
    acknowledgment twice changes nothing more than handling it once, the
    order in which two acknowledgments are handled does not matter for the
    sets, and an acknowledgment raises the count of its phase by one exactly
    when its sender is not in the set yet. *)
Theorem acknowledgments_form_a_set a b message message' s :
  acknowledgments
    (handleAcknowledgment a message (handleAcknowledgment a message s))
  = acknowledgments (handleAcknowledgment a message s) /\
  acknowledgments
    (handleAcknowledgment a message (handleAcknowledgment b message' s))
  = acknowledgments
      (handleAcknowledgment b message' (handleAcknowledgment a message s)) /\
  ack_count (ack_phase message) (handleAcknowledgment a message s)
  = if decide (a ∈ acked (ack_phase message) s)
    then ack_count (ack_phase message) s
    else S (ack_count (ack_phase message) s).
Proof.
  split; [|split].
  - apply map_eq. intro phase. rewrite !acknowledgments_lookup.
    destruct (decide (ack_phase message = phase)) as [<-|]; [|reflexivity].
    f_equal. unfold acked at 1. rewrite acknowledgments_lookup.
    destruct (decide (ack_phase message = ack_phase message)); [|congruence].
    simpl. set_solver.
  - apply map_eq. intro phase. rewrite !acknowledgments_lookup.
    unfold acked at 1 3. rewrite !acknowledgments_lookup.
    destruct (decide (ack_phase message = phase)) as [Ha|Ha];
      destruct (decide (ack_phase message' = phase)) as [Hb|Hb];
      simpl; try reflexivity.
    f_equal. fold (acked phase s). set_solver.
  - rewrite !ack_count_acked. unfold acked at 1.
    rewrite acknowledgments_lookup.
    destruct (decide (ack_phase message = ack_phase message)); [|congruence].
    simpl. fold (acked (ack_phase message) s).
    destruct (decide (a ∈ acked (ack_phase message) s)) as [Hin|Hout].
    + f_equal. set_solver.
    + rewrite size_union by set_solver. rewrite size_singleton. reflexivity.
Qed.

(** X6: when as many participants have acknowledged a phase as sockets are
    registered, the disconnection of any registered participant makes the
    test of the wait fail: its socket leaves the registry while every
    acknowledgment, its own included, stays in the set. *)
Theorem close_after_quorum_breaks_it phase a s :
  quorum phase s = true ->
  is_Some (apps s !! a) ->
  quorum phase (handle (EvClose a) s) = false /\
  acked phase (handle (EvClose a) s) = acked phase s.
Proof.
  intros Hq [r Hr]. simpl. rewrite Hr. unfold quorum, acked, on_close in *. simpl.
  destruct (acknowledgments s !! phase) as [acks|]; [|discriminate].
  apply bool_decide_eq_true in Hq. split; [|reflexivity].
  apply bool_decide_eq_false.
  rewrite map_size_delete_Some by eauto.
  assert (size (apps s) <> 0).
  { intro H0. apply map_size_empty_iff in H0. rewrite H0 in Hr.
    rewrite lookup_empty in Hr. discriminate. }
  lia.
Qed.

(** X7: a participant that connects with a fresh identifier and then
    disconnects leaves the registry and the acknowledgment sets as they
    were, and its socket has received the welcome object; a connection
    whose identifier is already registered replaces the socket of that
    entry and the registry does not grow. *)
Theorem connection_then_close a s :
  (apps s !! a = None ->
   apps (handle (EvClose a) (handle (EvConnection a) s)) = apps s /\
   acknowledgments (handle (EvClose a) (handle (EvConnection a) s))
   = acknowledgments s /\
   inbox a (sent (handle (EvClose a) (handle (EvConnection a) s)))
   = inbox a (sent s) ++ [WELCOME a]) /\
  (is_Some (apps s !! a) ->
   size (apps (handle (EvConnection a) s)) = size (apps s) /\
   apps (handle (EvConnection a) s) !! a = Some ReadyState.OPEN).
Proof.
  split.
  - intro Hfresh. simpl. rewrite lookup_insert_eq. simpl.
    split; [apply delete_insert_id; exact Hfresh|]. split; [reflexivity|].
    rewrite inbox_app. f_equal. unfold inbox. simpl.
    destruct (decide (a = a)); congruence.
  - intro Hreg. simpl. split; [|apply lookup_insert_eq].
    apply map_size_insert_Some. exact Hreg.
Qed.

(** ** The broadcasts of a run *)

Lemma broadcasts_app (l1 l2 : list LogLine) :
  broadcasts (l1 ++ l2) = broadcasts l1 ++ broadcasts l2.
Proof. apply omap_app. Qed.

Lemma broadcasts_not_open n : broadcasts (replicate n LogNotOpen) = [].
Proof. induction n as [|n IH]; [reflexivity | exact IH]. Qed.

Lemma broadcast_broadcasts message s :
  broadcasts (console (broadcast message s)) = broadcasts (console s).
Proof.
  unfold broadcast. rewrite broadcast_fold_console, broadcasts_app.
  rewrite broadcasts_not_open, app_nil_r. reflexivity.
Qed.

Lemma handle_broadcasts ev s :
  broadcasts (console (handle ev s)) = broadcasts (console s).
Proof.
  destruct ev as [a|a r|a message|a]; simpl.
  - rewrite broadcasts_app, app_nil_r. reflexivity.
  - destruct (apps s !! a); reflexivity.
  - destruct (apps s !! a); [|reflexivity].
    unfold handleAcknowledgment.
    destruct (acknowledgments s !! ack_phase message); case_bool_decide; simpl;
      rewrite ?broadcasts_app, ?app_nil_r; reflexivity.
  - destruct (apps s !! a); [|reflexivity].
    simpl. rewrite broadcasts_app, app_nil_r. reflexivity.
Qed.

Lemma handle_all_broadcasts evs s :
  broadcasts (console (handle_all evs s)) = broadcasts (console s).
Proof.
  unfold handle_all. revert s.
  induction evs as [|ev evs IH]; intro s; simpl; [reflexivity|].
  rewrite IH. apply handle_broadcasts.
Qed.

Lemma poll_broadcasts phase deadline slots last :
  preserves (fun s : State => broadcasts (console s)) (poll phase deadline slots last).
Proof.
  induction slots as [|evs slots IH]; intro s; simpl.
  - apply handle_all_broadcasts.
  - destruct (quorum phase _); simpl.
    + apply handle_all_broadcasts.
    + rewrite IH. apply (handle_all_broadcasts evs s).
Qed.

Lemma wait_broadcasts phase timeout w :
  preserves (fun s : State => broadcasts (console s))
    (waitForAcknowledgments phase timeout w).
Proof. intro s. unfold waitForAcknowledgments. rewrite poll_broadcasts. reflexivity. Qed.

Lemma set_status_broadcasts st :
  preserves (fun s : State => broadcasts (console s)) (set_status st).
Proof.
  intro s. unfold set_status. destruct (currentMigration s); reflexivity.
Qed.

Lemma set_completedAt_broadcasts :
  preserves (fun s : State => broadcasts (console s)) set_completedAt.
Proof.
  intro s. unfold set_completedAt. destruct (currentMigration s); reflexivity.
Qed.

Lemma client_query_console f c :
  preserves (fun s : State => console s) (client_query run_stmt control f c).
Proof.
  intro s. unfold client_query.
  destruct (query_fault f _); [reflexivity|].
  destruct (server run_stmt control c _) as [p [e|]]; reflexivity.
Qed.

Lemma executeMigrations_broadcasts f statements :
  preserves (fun s : State => broadcasts (console s))
    (executeMigrations run_stmt control f statements).
Proof.
  assert (Hq : forall c, preserves (fun s : State => broadcasts (console s))
                           (client_query run_stmt control f c)).
  { intro c. apply (preserves_weaken (fun s : State => console s) broadcasts).
    apply client_query_console. }
  assert (Hl : forall l, broadcasts [l] = [] ->
                 preserves (fun s : State => broadcasts (console s))
                   (effect (console_log l))).
  { intros l Hl s. simpl. rewrite broadcasts_app, Hl, app_nil_r. reflexivity. }
  unfold executeMigrations.
  apply preserves_seq.
  { intro s. unfold pool_connect. destruct (connect_fault f); reflexivity. }
  apply preserves_try_finally; [|intro s; reflexivity].
  apply preserves_try_catch.
  - apply preserves_seq; [apply Hq|].
    apply preserves_seq; [apply Hl; reflexivity|].
    apply preserves_seq.
    + apply preserves_for_each. intro q.
      apply preserves_seq; [apply Hl; reflexivity | apply Hq].
    + apply preserves_seq; [apply Hq | apply preserves_ret].
  - intro e. apply preserves_seq; [apply Hq | apply preserves_ret].
Qed.

Lemma sendPhase_broadcasts phase st s i :
  current_id s = Some i ->
  broadcasts (console (snd (sendPhase phase st s)))
  = broadcasts (console s) ++ [(phase, st)].
Proof.
  intro H. apply current_id_Some in H as (m & Hm & _).
  rewrite (sendPhase_Some _ _ _ _ Hm). cbn [snd].
  rewrite broadcast_broadcasts. simpl. rewrite broadcasts_app. reflexivity.
Qed.

Lemma announcing_broadcasts migration s :
  broadcasts (console (announcing migration s))
  = broadcasts (console s) ++ [(Phase.ANNOUNCE, None)].
Proof.
  rewrite announcing_eq, broadcast_broadcasts. simpl.
  rewrite !broadcasts_app. simpl. rewrite app_nil_r. reflexivity.
Qed.

Lemma announce_outcome_broadcasts migration env s :
  broadcasts (console (snd (announce_outcome migration env s)))
  = broadcasts (console s) ++ [(Phase.ANNOUNCE, None)].
Proof.
  unfold announce_outcome. rewrite wait_broadcasts. apply announcing_broadcasts.
Qed.

Lemma executing_broadcasts migration env s :
  broadcasts (console (executing migration env s))
  = broadcasts (console s)
    ++ [(Phase.ANNOUNCE, None); (Phase.EXECUTE, Some ExecStatus.RUNNING)].
Proof.
  rewrite executing_eq, handle_all_broadcasts.
  rewrite (sendPhase_broadcasts _ _ _ (id migration)).
  - rewrite set_status_broadcasts, announce_outcome_broadcasts, <- app_assoc.
    reflexivity.
  - rewrite set_status_current_id. apply announce_outcome_id.
Qed.

Lemma executor_outcome_broadcasts migration env s :
  broadcasts (console (snd (executor_outcome run_stmt control migration env s)))
  = broadcasts (console s)
    ++ [(Phase.ANNOUNCE, None); (Phase.EXECUTE, Some ExecStatus.RUNNING)].
Proof.
  unfold executor_outcome. rewrite executeMigrations_broadcasts.
  apply executing_broadcasts.
Qed.

Lemma applying_broadcasts migration env s :
  broadcasts (console (applying run_stmt control migration env s))
  = broadcasts (console s)
    ++ [(Phase.ANNOUNCE, None); (Phase.EXECUTE, Some ExecStatus.RUNNING);
        (Phase.EXECUTE, Some ExecStatus.COMPLETED); (Phase.APPLY, None)].
Proof.
  rewrite applying_eq.
  rewrite (sendPhase_broadcasts _ _ _ (id migration)).
  - rewrite set_status_broadcasts.
    rewrite (sendPhase_broadcasts _ _ _ (id migration))
      by apply executor_outcome_id.
    rewrite executor_outcome_broadcasts, <- !app_assoc. reflexivity.
  - rewrite set_status_current_id, sendPhase_current_id.
    apply executor_outcome_id.
Qed.

Lemma apply_outcome_broadcasts migration env s :
  broadcasts (console (snd (apply_outcome run_stmt control migration env s)))
  = broadcasts (console s)
    ++ [(Phase.ANNOUNCE, None); (Phase.EXECUTE, Some ExecStatus.RUNNING);
        (Phase.EXECUTE, Some ExecStatus.COMPLETED); (Phase.APPLY, None)].
Proof.
  unfold apply_outcome. rewrite wait_broadcasts. apply applying_broadcasts.
Qed.

Lemma rollback_broadcasts reason s i :
  current_id s = Some i ->
  broadcasts (console (snd (rollback reason s)))
  = broadcasts (console s) ++ [(Phase.ROLLBACK, None)].
Proof.
  intro H. rewrite (rollback_run _ _ _ H). cbn [snd].
  rewrite (sendPhase_broadcasts _ _ _ i).
  - simpl. rewrite broadcasts_app. simpl. rewrite app_nil_r. reflexivity.
  - apply current_id_Some in H as (m & Hm & Hi).
    unfold current_id. simpl. rewrite Hm. simpl. congruence.
Qed.

Lemma complete_broadcasts migration s i :
  current_id s = Some i ->
  broadcasts (console (snd (complete migration s)))
  = broadcasts (console s) ++ [(Phase.CONFIRM, None)].
Proof.
  intro H. rewrite (complete_run _ _ _ H). cbn [snd]. simpl.
  rewrite broadcasts_app. simpl. rewrite app_nil_r.
  rewrite (sendPhase_broadcasts _ _ _ i).
  - rewrite set_completedAt_broadcasts, set_status_broadcasts. reflexivity.
  - rewrite set_completedAt_current_id, set_status_current_id. exact H.
Qed.

(** X8: the broadcasts of a run follow one of four sequences, and the
    sequence tells how the run went.  ANNOUNCE then ROLLBACK: the wait for
    ANNOUNCE timed out.  ANNOUNCE, EXECUTE (RUNNING), ROLLBACK: the executor
    failed.  ANNOUNCE, EXECUTE (RUNNING), EXECUTE (COMPLETED), APPLY,
    ROLLBACK: the wait for APPLY timed out.  The same with CONFIRM in place
    of ROLLBACK: the run ends COMPLETED.  In particular APPLY is broadcast
    only after the executor reported success, and EXECUTE (FAILED) is never
    broadcast. *)
Theorem broadcasts_of_a_run migration env s :
  let final := snd (startMigration run_stmt control migration env s) in
  exists sequence,
    broadcasts (console final) = broadcasts (console s) ++ sequence /\
    (sequence = [(Phase.ANNOUNCE, None); (Phase.ROLLBACK, None)] /\
     returned (fst (announce_outcome migration env s)) = false /\
     observed_status final = Some MigrationStatus.FAILED
     \/
     sequence = [(Phase.ANNOUNCE, None);
                 (Phase.EXECUTE, Some ExecStatus.RUNNING);
                 (Phase.ROLLBACK, None)] /\
     fst (announce_outcome migration env s) = Ret tt /\
     execution_failed (fst (executor_outcome run_stmt control migration env s)) /\
     observed_status final = Some MigrationStatus.FAILED
     \/
     sequence = [(Phase.ANNOUNCE, None);
                 (Phase.EXECUTE, Some ExecStatus.RUNNING);
                 (Phase.EXECUTE, Some ExecStatus.COMPLETED);
                 (Phase.APPLY, None); (Phase.ROLLBACK, None)] /\
     (exists result,
        fst (executor_outcome run_stmt control migration env s) = Ret result /\
        success result = true) /\
     returned (fst (apply_outcome run_stmt control migration env s)) = false /\
     observed_status final = Some MigrationStatus.FAILED
     \/
     sequence = [(Phase.ANNOUNCE, None);
                 (Phase.EXECUTE, Some ExecStatus.RUNNING);
                 (Phase.EXECUTE, Some ExecStatus.COMPLETED);
                 (Phase.APPLY, None); (Phase.CONFIRM, None)] /\
     (exists result,
        fst (executor_outcome run_stmt control migration env s) = Ret result /\
        success result = true) /\
     fst (apply_outcome run_stmt control migration env s) = Ret tt /\
     observed_status final = Some MigrationStatus.COMPLETED).
Proof.
  cbv zeta. rewrite startMigration_eq.
  pose proof (announce_outcome_id migration env s) as Ha.
  pose proof (executor_outcome_id run_stmt control migration env s) as He.
  pose proof (apply_outcome_id run_stmt control migration env s) as Hp.
  destruct (fst (announce_outcome migration env s)) as [[]|e].
  - destruct (fst (executor_outcome run_stmt control migration env s)) as [result|e].
    + destruct (success result) eqn:Hs.
      * destruct (fst (apply_outcome run_stmt control migration env s)) as [[]|e].
        -- eexists. split.
           { rewrite (complete_broadcasts _ _ _ Hp), apply_outcome_broadcasts,
               <- app_assoc. reflexivity. }
           right. right. right.
           destruct (complete_facts migration _ _ Hp) as (_ & Hst & _).
           split; [reflexivity|]. split; [eauto|]. split; [reflexivity|exact Hst].
        -- eexists. split.
           { rewrite (rollback_broadcasts _ _ _ Hp), apply_outcome_broadcasts,
               <- app_assoc. reflexivity. }
           right. right. left.
           destruct (rollback_facts (Caught e) _ _ Hp) as (_ & Hst & _).
           split; [reflexivity|]. split; [eauto|]. split; [reflexivity|exact Hst].
      * eexists. split.
        { rewrite (rollback_broadcasts _ _ _ He), executor_outcome_broadcasts,
            <- app_assoc. reflexivity. }
        right. left.
        destruct (rollback_facts (ExecutionFailed (error result)) _ _ He)
          as (_ & Hst & _).
        split; [reflexivity|]. split; [reflexivity|]. split; [|exact Hst].
        intros r Hr. injection Hr as <-. exact Hs.
    + eexists. split.
      { rewrite (rollback_broadcasts _ _ _ He), executor_outcome_broadcasts,
          <- app_assoc. reflexivity. }
      right. left.
      destruct (rollback_facts (Caught e) _ _ He) as (_ & Hst & _).
      split; [reflexivity|]. split; [reflexivity|]. split; [|exact Hst].
      intros r Hr. discriminate.
  - eexists. split.
    { rewrite (rollback_broadcasts _ _ _ Ha), announce_outcome_broadcasts,
        <- app_assoc. reflexivity. }
    left. destruct (rollback_facts (Caught e) _ _ Ha) as (_ & Hst & _).
    split; [reflexivity|]. split; [reflexivity|exact Hst].
Qed.

(** ** The database after a run *)

(** What the executor of a run leaves committed, from an idle session,
    when the statements of the migration are ordinary ones. *)
Lemma executor_outcome_committed migration env s :
  ordinary control (sql migration) ->
  tx (pool s) = Idle ->
  match fst (executor_outcome run_stmt control migration env s) with
  | Ret result =>
      if success result
      then run_all run_stmt (sql migration) (committed (pool s))
           = inl (committed
                    (pool (snd (executor_outcome run_stmt control migration env s))))
      else committed (pool (snd (executor_outcome run_stmt control migration env s)))
           = committed (pool s)
  | Throw _ =>
      committed (pool (snd (executor_outcome run_stmt control migration env s)))
      = committed (pool s)
  end.
Proof.
  intros Hord Htx.
  assert (Htx' : tx (pool (executing migration env s)) = Idle)
    by (rewrite executing_pool; exact Htx).
  pose proof (executeMigrations_general run_stmt control (faults env)
                (sql migration) _ Hord Htx') as Hg.
  cbv zeta in Hg. rewrite executing_pool in Hg.
  unfold executor_outcome.
  destruct (fst (executeMigrations run_stmt control (faults env) (sql migration) _))
    as [result|e]; [|exact Hg].
  destruct (success result); tauto.
Qed.

(** X9: a run of a migration none of whose statements the database reads
    as transaction control changes what is committed only by committing the
    whole list of statements, in order: at the end either nothing changed
    or everything is applied.  A run that ends COMPLETED applied
    everything; a run whose executor failed changed nothing. *)
Theorem run_commits_all_or_nothing migration env s :
  ordinary control (sql migration) ->
  tx (pool s) = Idle ->
  let final := snd (startMigration run_stmt control migration env s) in
  (committed (pool final) = committed (pool s) \/
   run_all run_stmt (sql migration) (committed (pool s))
   = inl (committed (pool final))) /\
  (observed_status final = Some MigrationStatus.COMPLETED ->
   run_all run_stmt (sql migration) (committed (pool s))
   = inl (committed (pool final))) /\
  (execution_failed (fst (executor_outcome run_stmt control migration env s)) ->
   committed (pool final) = committed (pool s)).
Proof.
  intros Hord Htx. cbv zeta. rewrite startMigration_eq.
  pose proof (announce_outcome_id migration env s) as Ha.
  pose proof (executor_outcome_id run_stmt control migration env s) as He.
  pose proof (apply_outcome_id run_stmt control migration env s) as Hp.
  pose proof (executor_outcome_committed migration env s Hord Htx) as Hc.
  pose proof (apply_outcome_pool run_stmt control migration env s) as Hpp.
  unfold execution_failed.
  destruct (fst (announce_outcome migration env s)) as [[]|e].
  - destruct (fst (executor_outcome run_stmt control migration env s)) as [result|e].
    + destruct (success result) eqn:Hs.
      * destruct (fst (apply_outcome run_stmt control migration env s)) as [[]|e].
        -- destruct (complete_facts migration _ _ Hp) as (_ & _ & _ & _ & Hpool & _).
           rewrite Hpool, Hpp. split; [auto|]. split; [auto|].
           intro H. specialize (H result eq_refl). congruence.
        -- destruct (rollback_facts (Caught e) _ _ Hp)
             as (_ & Hst & _ & Hpool & _).
           rewrite Hpool, Hpp, Hst. split; [auto|]. split; [discriminate|].
           intro H. specialize (H result eq_refl). congruence.
      * destruct (rollback_facts (ExecutionFailed (error result)) _ _ He)
          as (_ & Hst & _ & Hpool & _).
        rewrite Hpool, Hst. split; [auto|]. split; [discriminate|]. auto.
    + destruct (rollback_facts (Caught e) _ _ He) as (_ & Hst & _ & Hpool & _).
      rewrite Hpool, Hst. split; [auto|]. split; [discriminate|]. auto.
  - destruct (rollback_facts (Caught e) _ _ Ha) as (_ & Hst & _ & Hpool & _).
    rewrite Hpool, Hst, announce_outcome_pool.
    split; [auto|]. split; [discriminate|]. auto.
Qed.

(** X10: when the executor succeeded and the wait for APPLY times out, the
    run ends FAILED and ROLLBACK is written on every registered socket that
    is open, but the database stays as the executor left it, whatever the
    statements: ROLLBACK is a message, it does not undo the change of the
    database.  When the statements of the migration are ordinary ones,
    all of them stay committed. *)
Theorem apply_timeout_keeps_the_change migration env s :
  tx (pool s) = Idle ->
  fst (announce_outcome migration env s) = Ret tt ->
  (exists result,
     fst (executor_outcome run_stmt control migration env s) = Ret result /\
     success result = true) ->
  returned (fst (apply_outcome run_stmt control migration env s)) = false ->
  let final := snd (startMigration run_stmt control migration env s) in
  observed_status final = Some MigrationStatus.FAILED /\
  pool final = pool (snd (executor_outcome run_stmt control migration env s)) /\
  (ordinary control (sql migration) ->
   run_all run_stmt (sql migration) (committed (pool s))
   = inl (committed (pool final))) /\
  (forall a, apps final !! a = Some ReadyState.OPEN ->
     (a, PhaseMsg {| msg_phase := Phase.ROLLBACK;
                     msg_migrationId := id migration;
                     msg_status := None; msg_timestamp := now final |})
     ∈ sent final).
Proof.
  intros Htx Hann (result & Hres & Hok) Hto. cbv zeta.
  rewrite startMigration_eq, Hann, Hres, Hok.
  pose proof (apply_outcome_id run_stmt control migration env s) as Hp.
  destruct (fst (apply_outcome run_stmt control migration env s)) as [[]|e];
    [discriminate|].
  destruct (rollback_facts (Caught e) _ _ Hp)
    as (_ & Hst & _ & Hpool & Happs & _ & Hnow & _ & _ & Hsent).
  split; [exact Hst|]. split; [|split].
  - rewrite Hpool. apply apply_outcome_pool.
  - intro Hord.
    pose proof (executor_outcome_committed migration env s Hord Htx) as Hc.
    rewrite Hres, Hok in Hc.
    rewrite Hpool, apply_outcome_pool. exact Hc.
  - intros a Hopen. rewrite Hnow. apply Hsent. rewrite <- Happs. exact Hopen.
Qed.

(** X11: when the executor fails after ANNOUNCE reached its quorum, on a
    migration none of whose statements the database reads as transaction
    control, the run ends FAILED, the failure is written on the console
    with the error the executor reported or threw, ROLLBACK is written on
    every registered socket that is open, APPLY is not broadcast, and
    nothing of the migration is committed. *)
Theorem execution_failure_changes_nothing migration env s :
  ordinary control (sql migration) ->
  tx (pool s) = Idle ->
  fst (announce_outcome migration env s) = Ret tt ->
  execution_failed (fst (executor_outcome run_stmt control migration env s)) ->
  let final := snd (startMigration run_stmt control migration env s) in
  observed_status final = Some MigrationStatus.FAILED /\
  committed (pool final) = committed (pool s) /\
  connects (pool final) = S (connects (pool s)) /\
  leased (pool final) = leased (pool s) /\
  match fst (executor_outcome run_stmt control migration env s) with
  | Ret result => LogRollingBack (ExecutionFailed (error result)) ∈ console final
  | Throw e => LogRollingBack (Caught e) ∈ console final
  end /\
  broadcasts (console final)
  = broadcasts (console s)
    ++ [(Phase.ANNOUNCE, None); (Phase.EXECUTE, Some ExecStatus.RUNNING);
        (Phase.ROLLBACK, None)] /\
  (forall a, apps final !! a = Some ReadyState.OPEN ->
     (a, PhaseMsg {| msg_phase := Phase.ROLLBACK;
                     msg_migrationId := id migration;
                     msg_status := None; msg_timestamp := now final |})
     ∈ sent final).
Proof.
  intros Hord Htx Hann Hfail. cbv zeta.
  rewrite startMigration_eq, Hann.
  pose proof (executor_outcome_id run_stmt control migration env s) as He.
  pose proof (executor_outcome_committed migration env s Hord Htx) as Hc.
  pose proof (executor_outcome_connects run_stmt control migration env s) as Hconn.
  assert (Hlease :
    leased (pool (snd (executor_outcome run_stmt control migration env s)))
    = leased (pool s)).
  { unfold executor_outcome.
    destruct (executeMigrations_counters run_stmt control (faults env) (sql migration)
                (executing migration env s)) as [_ ->].
    rewrite executing_pool. reflexivity. }
  unfold execution_failed in Hfail.
  destruct (fst (executor_outcome run_stmt control migration env s)) as [result|e].
  - rewrite (Hfail result eq_refl) in *.
    destruct (rollback_facts (ExecutionFailed (error result)) _ _ He)
      as (_ & Hst & _ & Hpool & Happs & _ & Hnow & Hlog & _ & Hsent).
    rewrite Hpool. repeat (split; [assumption|]).
    split; [|intros a Hopen; rewrite Hnow; apply Hsent; rewrite <- Happs; exact Hopen].
    rewrite (rollback_broadcasts _ _ _ He), executor_outcome_broadcasts,
      <- app_assoc. reflexivity.
  - destruct (rollback_facts (Caught e) _ _ He)
      as (_ & Hst & _ & Hpool & Happs & _ & Hnow & Hlog & _ & Hsent).
    rewrite Hpool. repeat (split; [assumption|]).
    split; [|intros a Hopen; rewrite Hnow; apply Hsent; rewrite <- Happs; exact Hopen].
    rewrite (rollback_broadcasts _ _ _ He), executor_outcome_broadcasts,
      <- app_assoc. reflexivity.
Qed.

(** ** More on the executor *)

Lemma run_all_app (l1 l2 : list string) (d : DB) :
  run_all run_stmt (l1 ++ l2) d
  = match run_all run_stmt l1 d with
    | inl d1 => run_all run_stmt l2 d1
    | inr e => inr e
    end.
Proof.
  revert d. induction l1 as [|q l1 IH]; intro d; simpl; [reflexivity|].
  destruct (run_stmt q d); [apply IH | reflexivity].
Qed.

(** X12: an empty list of statements is a successful migration: the executor
    sends BEGIN and COMMIT, returns success and leaves what is committed as
    it was. *)
Theorem empty_list_succeeds s :
  tx (pool s) = Idle ->
  let r := executeMigrations run_stmt control no_faults [] s in
  fst r = Ret {| success := true; error := None |} /\
  committed (pool (snd r)) = committed (pool s) /\
  history (pool (snd r)) = history (pool s) ++ [Sql.BEGIN; Sql.COMMIT] /\
  leased (pool (snd r)) = leased (pool s).
Proof.
  intro Htx. cbv zeta.
  destruct (executeMigrations_sound run_stmt control [] s (Forall_nil_2 _) Htx)
    as (_ & H1 & H2 & H3).
  destruct (executeMigrations_counters run_stmt control no_faults [] s) as [_ H4].
  auto.
Qed.

(** X13: the atomicity of the executor is per call.  For statements none
    of which the database reads as transaction control: one call with a
    list in two parts commits both parts or nothing; two calls, one per
    part, commit the same when both succeed, but keep the first part when
    the second fails. *)
Theorem atomicity_is_per_call (l1 l2 : list string) s :
  ordinary control l1 ->
  ordinary control l2 ->
  tx (pool s) = Idle ->
  let one := executeMigrations run_stmt control no_faults (l1 ++ l2) s in
  let first := executeMigrations run_stmt control no_faults l1 s in
  let second := executeMigrations run_stmt control no_faults l2 (snd first) in
  match run_all run_stmt l1 (committed (pool s)) with
  | inl d1 =>
      fst first = Ret {| success := true; error := None |} /\
      match run_all run_stmt l2 d1 with
      | inl d2 =>
          fst one = Ret {| success := true; error := None |} /\
          fst second = Ret {| success := true; error := None |} /\
          committed (pool (snd one)) = d2 /\
          committed (pool (snd second)) = d2
      | inr e =>
          fst one = Ret {| success := false; error := Some (DbError e) |} /\
          fst second = Ret {| success := false; error := Some (DbError e) |} /\
          committed (pool (snd one)) = committed (pool s) /\
          committed (pool (snd second)) = d1
      end
  | inr e =>
      fst one = Ret {| success := false; error := Some (DbError e) |} /\
      fst first = Ret {| success := false; error := Some (DbError e) |} /\
      committed (pool (snd one)) = committed (pool s) /\
      committed (pool (snd first)) = committed (pool s)
  end.
Proof.
  intros Hord1 Hord2 Htx. cbv zeta.
  assert (Hord : ordinary control (l1 ++ l2))
    by (apply Forall_app; split; assumption).
  destruct (executeMigrations_sound run_stmt control (l1 ++ l2) s Hord Htx)
    as [_ Hone].
  destruct (executeMigrations_sound run_stmt control l1 s Hord1 Htx)
    as [Htx1 Hfirst].
  pose proof (executeMigrations_sound run_stmt control l2 _ Hord2 Htx1)
    as [_ Hsecond].
  cbv zeta in Hsecond. rewrite run_all_app in Hone.
  destruct (run_all run_stmt l1 (committed (pool s))) as [d1|e].
  - destruct Hfirst as (Hf & Hc1 & _). rewrite Hc1 in Hsecond.
    split; [exact Hf|].
    destruct (run_all run_stmt l2 d1) as [d2|e].
    + destruct Hone as (? & ? & _). destruct Hsecond as (? & ? & _). auto.
    + destruct Hone as (? & ? & _). destruct Hsecond as (? & ? & _). auto.
  - destruct Hone as (? & ? & _). destruct Hfirst as (? & ? & _). auto.
Qed.

(** X14: when [pool.connect] fails the executor throws instead of returning
    a failure: no query is sent and no client is held.  [startMigration]
    catches what is thrown: the run ends FAILED with that error on the
    console, and the database is as before. *)
Theorem refused_connection_fails_the_run migration env e s :
  fst (announce_outcome migration env s) = Ret tt ->
  connect_fault (faults env) = Some e ->
  let final := snd (startMigration run_stmt control migration env s) in
  fst (executor_outcome run_stmt control migration env s) = Throw (DbError e) /\
  observed_status final = Some MigrationStatus.FAILED /\
  LogRollingBack (Caught (DbError e)) ∈ console final /\
  committed (pool final) = committed (pool s) /\
  tx (pool final) = tx (pool s) /\
  history (pool final) = history (pool s) /\
  leased (pool final) = leased (pool s).
Proof.
  intros Hann Hfault. cbv zeta.
  assert (Hexec : executor_outcome run_stmt control migration env s
                  = (Throw (DbError e),
                     snd (pool_connect (faults env) (executing migration env s)))).
  { unfold executor_outcome. rewrite executeMigrations_eq, seq_run.
    unfold pool_connect. rewrite Hfault. reflexivity. }
  pose proof (executor_outcome_id run_stmt control migration env s) as He.
  rewrite startMigration_eq, Hann, Hexec in *. cbn [fst snd] in *.
  pose proof (pool_connect_counters (faults env) (executing migration env s))
    as (_ & Hl & Hc & Ht & Hh).
  unfold pool_connect in Hl at 1. rewrite Hfault in Hl. cbn [fst] in Hl.
  rewrite executing_pool in *.
  destruct (rollback_facts (Caught (DbError e)) _ _ He)
    as (_ & Hst & _ & Hpool & _ & _ & _ & Hlog & _).
  rewrite Hpool. auto 10.
Qed.

(** ** More on the wait *)

Lemma firings_short timeout :
  (timeout <= poll_period)%Z -> firings timeout = 0.
Proof.
  unfold firings, node_delay, poll_period. intro Hle.
  destruct ((1 <=? timeout)%Z && (timeout <=? 2147483647)%Z) eqn:Hin.
  - apply andb_true_iff in Hin as [H1 _]. apply Z.leb_le in H1.
    rewrite Z.div_small by lia. reflexivity.
  - reflexivity.
Qed.

(** X15: a wait whose timeout is not longer than the period of the polling
    interval never tests the acknowledgments: the timeout fires first and
    the wait always rejects, with the counts it finds when the timeout
    fires, even when nobody is registered. *)
Theorem short_timeout_always_rejects phase timeout w s :
  (timeout <= poll_period)%Z ->
  let s' :=
    at_time (now s + node_delay timeout)%Z
      (handle_all (late_of timeout w)
         (set_acknowledgments (insert phase (∅ : gset string)) s)) in
  waitForAcknowledgments phase timeout w s
  = (Throw (Timeout (ack_count phase s') (size (apps s')) phase), s').
Proof.
  intro Hle. cbv zeta. unfold waitForAcknowledgments, slots_of.
  rewrite (firings_short timeout Hle). reflexivity.
Qed.


(** ** What a participant receives during a run *)

Lemma delivers_trans a i s s' s'' l1 l2 :
  delivers a i s s' l1 -> delivers a i s' s'' l2 ->
  delivers a i s s'' (l1 ++ l2).
Proof.
  intros (H1 & H2 & H3 & H4) (K1 & K2 & K3 & K4).
  split; [exact K1|].
  split; [rewrite K2, H2, fmap_app, app_assoc; reflexivity|].
  split; [rewrite K3, H3, fmap_app, app_assoc; reflexivity|].
  apply Forall_app. auto.
Qed.

Lemma delivers_quiet a i s s1 s2 msgs :
  delivers a i s s1 msgs ->
  participant_view a s2 = participant_view a s1 ->
  delivers a i s s2 msgs.
Proof.
  unfold participant_view. intros (H1 & H2 & H3 & H4) H.
  injection H as K1 K2 K3.
  split; [congruence|]. split; [congruence|]. split; [congruence | exact H4].
Qed.

Lemma delivers_broadcast a s s1 msgs message :
  delivers a (msg_migrationId message) s s1 msgs ->
  delivers a (msg_migrationId message) s
    (broadcast message
       (console_log (LogBroadcasting (msg_phase message) (msg_status message))
          s1))
    (msgs ++ [message]).
Proof.
  intros (H1 & H2 & H3 & H4).
  set (s2 := console_log _ s1).
  pose proof (broadcast_view message s2) as (Ha & _).
  split; [rewrite Ha; exact H1|].
  split.
  { rewrite broadcast_inbox. unfold s2 at 1. cbn [sent console_log].
    replace (apps s2 !! a) with (Some ReadyState.OPEN) by (symmetry; exact H1).
    cbn [ReadyState.is_open]. rewrite H2, fmap_app, app_assoc. reflexivity. }
  split.
  { rewrite broadcast_broadcasts. unfold s2. cbn [console console_log].
    rewrite broadcasts_app, H3, fmap_app, app_assoc. reflexivity. }
  apply Forall_app. split; [exact H4|]. constructor; [reflexivity | constructor].
Qed.

Lemma delivers_sendPhase a i s s1 msgs phase st :
  delivers a i s s1 msgs ->
  current_id s1 = Some i ->
  exists message,
    phase_and_status message = (phase, st) /\
    delivers a i s (snd (sendPhase phase st s1)) (msgs ++ [message]).
Proof.
  intros Hd Hid. apply current_id_Some in Hid as (m & Hm & Hi).
  rewrite (sendPhase_Some _ _ _ _ Hm). cbn [snd].
  eexists. split; [|rewrite <- Hi in *; apply (delivers_broadcast _ _ _ _
    {| msg_phase := phase; msg_migrationId := id m; msg_status := st;
       msg_timestamp := now s1 |}); exact Hd].
  reflexivity.
Qed.

Lemma handle_participant a ev s :
  steady_event a ev = true ->
  participant_view a (handle ev s) = participant_view a s.
Proof.
  intro Hsteady. unfold participant_view. rewrite handle_broadcasts.
  destruct ev as [b|b r|b message|b]; simpl in Hsteady;
    try (apply bool_decide_eq_true in Hsteady).
  - unfold handle, handleConnection. rewrite inbox_ws_send.
    rewrite decide_False by exact Hsteady. rewrite app_nil_r.
    simpl. rewrite lookup_insert_ne by exact Hsteady. reflexivity.
  - simpl. destruct (apps s !! b); [|reflexivity].
    simpl. rewrite lookup_insert_ne by exact Hsteady. reflexivity.
  - simpl. destruct (apps s !! b); [|reflexivity].
    unfold handleAcknowledgment.
    destruct (acknowledgments s !! ack_phase message); case_bool_decide;
      reflexivity.
  - simpl. destruct (apps s !! b); [|reflexivity].
    simpl. rewrite lookup_delete_ne by exact Hsteady. reflexivity.
Qed.

Lemma handle_all_participant a evs : forall s,
  steady a evs = true ->
  participant_view a (handle_all evs s) = participant_view a s.
Proof.
  unfold handle_all, steady.
  induction evs as [|ev evs IH]; intros s Hsteady; [reflexivity|].
  simpl in Hsteady. apply andb_true_iff in Hsteady as (Hev & Hevs).
  simpl. rewrite IH by exact Hevs. apply handle_participant. exact Hev.
Qed.

Lemma poll_participant a phase deadline slots last : forall s,
  forallb (steady a) slots = true -> steady a last = true ->
  participant_view a (snd (poll phase deadline slots last s)) = participant_view a s.
Proof.
  induction slots as [|evs slots IH]; intros s Hslots Hlast; simpl.
  - apply handle_all_participant. exact Hlast.
  - simpl in Hslots. apply andb_true_iff in Hslots as (Hevs & Hslots).
    assert (Hstep : participant_view a (elapse poll_period (handle_all evs s))
                    = participant_view a s)
      by (apply (handle_all_participant a evs s Hevs)).
    destruct (quorum phase _); [exact Hstep|].
    rewrite IH by assumption. exact Hstep.
Qed.

Lemma forallb_take {A} (f : A -> bool) (l : list A) : forall n,
  forallb f l = true -> forallb f (take n l) = true.
Proof.
  induction l as [|x l IH]; intros [|n] H; try reflexivity.
  simpl in *. apply andb_true_iff in H as (Hx & Hl).
  rewrite Hx. apply IH. exact Hl.
Qed.

Lemma steady_concat a (slots : list (list Event)) :
  forallb (steady a) slots = true -> steady a (concat slots) = true.
Proof.
  unfold steady. induction slots as [|evs slots IH]; intro H; [reflexivity|].
  simpl in H. apply andb_true_iff in H as (Hevs & Hslots).
  simpl. rewrite forallb_app, Hevs. apply IH. exact Hslots.
Qed.

Lemma forallb_drop {A} (f : A -> bool) (l : list A) : forall n,
  forallb f l = true -> forallb f (drop n l) = true.
Proof.
  induction l as [|x l IH]; intros [|n] H; try exact H; try reflexivity.
  simpl in *. apply andb_true_iff in H as (_ & Hl). apply IH. exact Hl.
Qed.

Lemma wait_participant a phase timeout w s :
  steady_wait a w = true ->
  participant_view a (snd (waitForAcknowledgments phase timeout w s))
  = participant_view a s.
Proof.
  unfold steady_wait. intro H. apply andb_true_iff in H as (Hpolls & Hrest).
  unfold waitForAcknowledgments, slots_of, late_of.
  rewrite poll_participant; [reflexivity | |].
  - apply forallb_take. rewrite forallb_app, Hpolls.
    induction (firings timeout) as [|n IH]; [reflexivity | exact IH].
  - unfold steady in *. rewrite forallb_app, Hrest, andb_true_r.
    apply (steady_concat a), forallb_drop. exact Hpolls.
Qed.

Lemma set_status_participant a st s :
  participant_view a (snd (set_status st s)) = participant_view a s.
Proof. unfold set_status. destruct (currentMigration s); reflexivity. Qed.

Lemma set_completedAt_participant a s :
  participant_view a (snd (set_completedAt s)) = participant_view a s.
Proof. unfold set_completedAt. destruct (currentMigration s); reflexivity. Qed.

Lemma executeMigrations_participant a f statements s :
  participant_view a (snd (executeMigrations run_stmt control f statements s))
  = participant_view a s.
Proof.
  unfold participant_view.
  rewrite executeMigrations_broadcasts.
  pose proof (executeMigrations_beyond run_stmt control f statements s) as H.
  unfold beyond_database in H. injection H as H1 _ _ H4 _.
  rewrite H1, H4. reflexivity.
Qed.

(** The messages a participant receives during a run whose socket is open
    and stays so. *)
Lemma run_delivers a migration env s :
  apps s !! a = Some ReadyState.OPEN ->
  steady_run a env = true ->
  exists msgs,
    delivers a (id migration) s
      (snd (startMigration run_stmt control migration env s)) msgs.
Proof.
  intros Hopen Hsteady. unfold steady_run in Hsteady.
  apply andb_true_iff in Hsteady as (Hsteady & Hwp).
  apply andb_true_iff in Hsteady as (Hwa & Hex).
  pose proof (announce_outcome_id migration env s) as Ha.
  pose proof (executor_outcome_id run_stmt control migration env s) as He.
  pose proof (apply_outcome_id run_stmt control migration env s) as Hp.
  (* ANNOUNCE is broadcast, then the coordinator waits *)
  assert (H1 : exists msgs,
            delivers a (id migration) s
              (snd (announce_outcome migration env s)) msgs).
  { eexists. unfold announce_outcome.
    eapply delivers_quiet; [|apply wait_participant; exact Hwa].
    rewrite announcing_eq.
    apply (delivers_broadcast a s _ []
             {| msg_phase := Phase.ANNOUNCE; msg_migrationId := id migration;
                msg_status := None; msg_timestamp := now s |}).
    split; [exact Hopen|]. split; [|split; [|constructor]].
    - simpl. rewrite app_nil_r. reflexivity.
    - simpl. rewrite broadcasts_app. reflexivity. }
  (* the end of a run that fails *)
  assert (Hrollback : forall reason s1 msgs,
            current_id s1 = Some (id migration) ->
            delivers a (id migration) s s1 msgs ->
            exists msgs',
              delivers a (id migration) s (snd (rollback reason s1)) msgs').
  { intros reason s1 msgs Hid Hd.
    rewrite (rollback_run _ _ _ Hid). cbn [snd].
    edestruct (delivers_sendPhase a (id migration) s) as (message & _ & Hm);
      [| |eexists; exact Hm].
    - eapply delivers_quiet; [exact Hd|].
      unfold participant_view. simpl. rewrite broadcasts_app, app_nil_r.
      reflexivity.
    - apply current_id_Some in Hid as (m & Hm & Hi).
      unfold current_id. simpl. rewrite Hm. simpl. congruence. }
  rewrite startMigration_eq.
  destruct (fst (announce_outcome migration env s)) as [[]|e];
    [|destruct H1 as (msgs & H1); apply (Hrollback _ _ msgs Ha H1)].
  (* EXECUTE (RUNNING) is broadcast, then the executor runs *)
  assert (H2 : exists msgs,
            delivers a (id migration) s
              (snd (executor_outcome run_stmt control migration env s)) msgs).
  { destruct H1 as (msgs & H1).
    edestruct (delivers_sendPhase a (id migration) s
                 (snd (set_status MigrationStatus.EXECUTING
                         (snd (announce_outcome migration env s)))) msgs
                 Phase.EXECUTE (Some ExecStatus.RUNNING))
      as (message & _ & Hm).
    - eapply delivers_quiet; [exact H1 | apply set_status_participant].
    - rewrite set_status_current_id. exact Ha.
    - eexists. unfold executor_outcome.
      eapply delivers_quiet; [|apply executeMigrations_participant].
      rewrite executing_eq.
      eapply delivers_quiet; [exact Hm|].
      apply handle_all_participant. exact Hex. }
  destruct (fst (executor_outcome run_stmt control migration env s)) as [result|e];
    [|destruct H2 as (msgs & H2); apply (Hrollback _ _ msgs He H2)].
  destruct (success result);
    [|destruct H2 as (msgs & H2); apply (Hrollback _ _ msgs He H2)].
  (* EXECUTE (COMPLETED) and APPLY are broadcast, then the coordinator waits *)
  assert (H3 : exists msgs,
            delivers a (id migration) s
              (snd (apply_outcome run_stmt control migration env s)) msgs).
  { destruct H2 as (msgs & H2).
    edestruct (delivers_sendPhase a (id migration) s _ msgs
                 Phase.EXECUTE (Some ExecStatus.COMPLETED) H2 He)
      as (m1 & _ & Hm1).
    edestruct (delivers_sendPhase a (id migration) s
                 (snd (set_status MigrationStatus.APPLYING
                    (snd (sendPhase Phase.EXECUTE (Some ExecStatus.COMPLETED)
                       (snd (executor_outcome run_stmt control migration env s))))))
                 (msgs ++ [m1]) Phase.APPLY None)
      as (m2 & _ & Hm2).
    - eapply delivers_quiet; [exact Hm1 | apply set_status_participant].
    - rewrite set_status_current_id, sendPhase_current_id. exact He.
    - eexists. unfold apply_outcome.
      eapply delivers_quiet; [|apply wait_participant; exact Hwp].
      rewrite applying_eq. exact Hm2. }
  destruct (fst (apply_outcome run_stmt control migration env s)) as [[]|e];
    [|destruct H3 as (msgs & H3); apply (Hrollback _ _ msgs Hp H3)].
  (* CONFIRM is broadcast *)
  destruct H3 as (msgs & H3).
  rewrite (complete_run _ _ _ Hp). cbn [snd].
  edestruct (delivers_sendPhase a (id migration) s
               (snd (set_completedAt
                  (snd (set_status MigrationStatus.COMPLETED
                     (snd (apply_outcome run_stmt control migration env s))))))
               msgs Phase.CONFIRM None)
    as (m1 & _ & Hm1).
  - eapply delivers_quiet; [|apply set_completedAt_participant].
    eapply delivers_quiet; [exact H3 | apply set_status_participant].
  - rewrite set_completedAt_current_id, set_status_current_id. exact Hp.
  - eexists. eapply delivers_quiet; [exact Hm1|].
    unfold participant_view. simpl. rewrite broadcasts_app, app_nil_r.
    reflexivity.
Qed.

(** The broadcasts of a run by its final status. *)
Lemma run_phases migration env s :
  let final := snd (startMigration run_stmt control migration env s) in
  exists sequence,
    broadcasts (console final) = broadcasts (console s) ++ sequence /\
    (observed_status final = Some MigrationStatus.COMPLETED /\
     sequence = [(Phase.ANNOUNCE, None);
                 (Phase.EXECUTE, Some ExecStatus.RUNNING);
                 (Phase.EXECUTE, Some ExecStatus.COMPLETED);
                 (Phase.APPLY, None); (Phase.CONFIRM, None)]
     \/
     observed_status final = Some MigrationStatus.FAILED /\
     exists before, sequence = before ++ [(Phase.ROLLBACK, None)]).
Proof.
  cbv zeta. rewrite startMigration_eq.
  pose proof (announce_outcome_id migration env s) as Ha.
  pose proof (executor_outcome_id run_stmt control migration env s) as He.
  pose proof (apply_outcome_id run_stmt control migration env s) as Hp.
  assert (Hrollback : forall reason s1 before,
            current_id s1 = Some (id migration) ->
            broadcasts (console s1) = broadcasts (console s) ++ before ->
            exists sequence,
              broadcasts (console (snd (rollback reason s1)))
              = broadcasts (console s) ++ sequence /\
              (observed_status (snd (rollback reason s1))
               = Some MigrationStatus.COMPLETED /\
               sequence = [(Phase.ANNOUNCE, None);
                           (Phase.EXECUTE, Some ExecStatus.RUNNING);
                           (Phase.EXECUTE, Some ExecStatus.COMPLETED);
                           (Phase.APPLY, None); (Phase.CONFIRM, None)]
               \/
               observed_status (snd (rollback reason s1))
               = Some MigrationStatus.FAILED /\
               exists before, sequence = before ++ [(Phase.ROLLBACK, None)])).
  { intros reason s1 before Hid Hb.
    exists (before ++ [(Phase.ROLLBACK, None)]). split.
    - rewrite (rollback_broadcasts _ _ _ Hid), Hb, <- app_assoc. reflexivity.
    - right. destruct (rollback_facts reason _ _ Hid) as (_ & Hst & _).
      split; [exact Hst | eauto]. }
  destruct (fst (announce_outcome migration env s)) as [[]|e];
    [|apply (Hrollback _ _ _ Ha (announce_outcome_broadcasts migration env s))].
  destruct (fst (executor_outcome run_stmt control migration env s)) as [result|e];
    [|apply (Hrollback _ _ _ He (executor_outcome_broadcasts migration env s))].
  destruct (success result);
    [|apply (Hrollback _ _ _ He (executor_outcome_broadcasts migration env s))].
  destruct (fst (apply_outcome run_stmt control migration env s)) as [[]|e];
    [|apply (Hrollback _ _ _ Hp (apply_outcome_broadcasts migration env s))].
  eexists. split.
  - rewrite (complete_broadcasts _ _ _ Hp), apply_outcome_broadcasts,
      <- app_assoc. reflexivity.
  - left. destruct (complete_facts migration _ _ Hp) as (_ & Hst & _).
    split; [exact Hst | reflexivity].
Qed.

(** X16: a participant whose socket is open when a run starts, and is
    neither closed nor replaced during the run, receives every broadcast of
    the run exactly once and in the order of the broadcasts, each with the
    identifier of the migration, and receives nothing else; its socket is
    still registered and open at the end. *)
Theorem steady_participant_receives_every_broadcast a migration env s :
  apps s !! a = Some ReadyState.OPEN ->
  steady_run a env = true ->
  let final := snd (startMigration run_stmt control migration env s) in
  exists msgs,
    inbox a (sent final) = inbox a (sent s) ++ (PhaseMsg <$> msgs) /\
    broadcasts (console final)
    = broadcasts (console s) ++ (phase_and_status <$> msgs) /\
    Forall (fun m => msg_migrationId m = id migration) msgs /\
    apps final !! a = Some ReadyState.OPEN.
Proof.
  intros Hopen Hsteady final.
  destruct (run_delivers a migration env s Hopen Hsteady)
    as (msgs & H1 & H2 & H3 & H4).
  exists msgs. auto.
Qed.

(** X17: the feature flag of a participant agrees with the outcome of the
    run.  A client of [app-client.ts] behind a socket that is open when the
    run starts and stays so, once it has handled what the coordinator wrote
    on its socket during the run, has [useNewSchema] set when the migration
    ended COMPLETED and not set when it ended FAILED, whatever the flag was
    before. *)
Theorem participant_flag_agrees_with_outcome a migration env s c :
  apps s !! a = Some ReadyState.OPEN ->
  steady_run a env = true ->
  let final := snd (startMigration run_stmt control migration env s) in
  let received := drop (length (inbox a (sent s))) (inbox a (sent final)) in
  AppClient.useNewSchema (AppClient.receive received c)
  = bool_decide (observed_status final = Some MigrationStatus.COMPLETED).
Proof.
  intros Hopen Hsteady final received.
  destruct (run_delivers a migration env s Hopen Hsteady)
    as (msgs & _ & Hin & Hb & _).
  destruct (run_phases migration env s) as (sequence & Hseq & Hcases).
  fold final in Hin, Hb, Hseq, Hcases.
  assert (Hmsgs : phase_and_status <$> msgs = sequence).
  { rewrite Hb in Hseq. apply app_inv_head in Hseq. exact Hseq. }
  unfold received. rewrite Hin, drop_app_length, receive_flag, Hmsgs.
  destruct Hcases as [(Hst & ->) | (Hst & before & ->)]; rewrite Hst.
  - reflexivity.
  - rewrite fold_left_app. reflexivity.
Qed.


(** ** When every participant acknowledges *)

Lemma handleAcknowledgment_apps a message s :
  apps (handleAcknowledgment a message s) = apps s.
Proof.
  unfold handleAcknowledgment.
  destruct (acknowledgments s !! ack_phase message); case_bool_decide;
    reflexivity.
Qed.

Lemma handle_all_messages_apps evs : forall s,
  only_messages evs = true -> apps (handle_all evs s) = apps s.
Proof.
  unfold handle_all, only_messages.
  induction evs as [|ev evs IH]; intros s H; [reflexivity|].
  simpl in H. apply andb_true_iff in H as (Hev & Hevs).
  simpl. rewrite IH by exact Hevs.
  destruct ev as [a|a r|a message|a]; try discriminate.
  simpl. destruct (apps s !! a); [apply handleAcknowledgment_apps | reflexivity].
Qed.

(** While only messages arrive, the registry stays as it is and the set of
    a phase grows by the registered sockets on which an acknowledgment of
    the phase arrives. *)
Lemma handle_all_messages phase evs : forall s,
  only_messages evs = true ->
  is_Some (acknowledgments s !! phase) ->
  apps (handle_all evs s) = apps s /\
  is_Some (acknowledgments (handle_all evs s) !! phase) /\
  acked phase (handle_all evs s)
  = acked phase s ∪ (senders phase evs ∩ dom (apps s)).
Proof.
  induction evs as [|ev evs IH]; intros s Hev Hs.
  - split; [reflexivity|]. split; [exact Hs|]. simpl. set_solver.
  - unfold only_messages in Hev. simpl in Hev.
    apply andb_true_iff in Hev as (Hm & Hevs).
    destruct ev as [b|b r|b m|b]; try discriminate.
    change (handle_all (EvMessage b m :: evs) s)
      with (handle_all evs (handle (EvMessage b m) s)).
    cbn [handle senders].
    destruct (apps s !! b) as [r|] eqn:Hb.
    + destruct (IH (handleAcknowledgment b m s) Hevs) as (H1 & H2 & H3).
      { rewrite acknowledgments_lookup.
        destruct (decide (ack_phase m = phase)); [eauto | exact Hs]. }
      rewrite handleAcknowledgment_apps in H1, H3.
      split; [exact H1|]. split; [exact H2|].
      rewrite H3, acked_handleAcknowledgment.
      assert (Hin : b ∈ dom (apps s)) by (apply elem_of_dom; eauto).
      destruct (decide (ack_phase m = phase)); set_solver.
    + destruct (IH s Hevs Hs) as (H1 & H2 & H3).
      split; [exact H1|]. split; [exact H2|]. rewrite H3.
      assert (Hout : b ∉ dom (apps s)) by (apply not_elem_of_dom; exact Hb).
      destruct (decide (ack_phase m = phase)); set_solver.
Qed.

Lemma only_messages_app evs evs' :
  only_messages (evs ++ evs') = only_messages evs && only_messages evs'.
Proof. apply forallb_app. Qed.

(** The wait ends, at the latest, at the firing that follows the
    acknowledgments of all the registered participants. *)
Lemma poll_messages phase deadline last : forall slots n s,
  1 <= n <= length slots ->
  only_messages (concat (take n slots)) = true ->
  is_Some (acknowledgments s !! phase) ->
  acked phase s ⊆ dom (apps s) ->
  dom (apps s) ⊆ acked phase s ∪ senders phase (concat (take n slots)) ->
  fst (poll phase deadline slots last s) = Ret tt /\
  apps (snd (poll phase deadline slots last s)) = apps s /\
  acked phase (snd (poll phase deadline slots last s)) = dom (apps s).
Proof.
  induction slots as [|evs slots IH]; intros n s Hn Hev Hs Hsub Hall.
  - simpl in Hn. lia.
  - destruct n as [|n]; [lia|].
    change (take (S n) (evs :: slots)) with (evs :: take n slots) in Hev, Hall.
    cbn [concat] in Hev, Hall.
    rewrite only_messages_app in Hev.
    apply andb_true_iff in Hev as (Hevs & Hrest).
    rewrite senders_app in Hall.
    destruct (handle_all_messages phase evs s Hevs Hs) as (H1 & H2 & H3).
    set (s' := elapse poll_period (handle_all evs s)).
    assert (Happs : apps s' = apps s) by exact H1.
    assert (Hacked : acked phase s'
                     = acked phase s ∪ (senders phase evs ∩ dom (apps s)))
      by exact H3.
    assert (Hsub' : acked phase s' ⊆ dom (apps s)) by set_solver.
    assert (Hquorum : quorum phase s'
                      = bool_decide (size (acked phase s') = size (apps s))).
    { unfold quorum, acked. cbn [acknowledgments apps elapse s'].
      destruct H2 as [acks ->]. rewrite H1. reflexivity. }
    cbn [poll]. fold s'. rewrite Hquorum. case_bool_decide as Hsize.
    + cbn [fst snd]. split; [reflexivity|]. split; [exact Happs|].
      apply set_subseteq_size_eq; [exact Hsub'|]. rewrite size_dom. lia.
    + destruct n as [|n].
      * exfalso. apply Hsize.
        rewrite take_0 in Hall. simpl in Hall.
        assert (Heq : acked phase s' = dom (apps s)) by set_solver.
        rewrite Heq. apply size_dom.
      * destruct (IH (S n) s') as (R1 & R2 & R3).
        -- simpl in Hn. lia.
        -- exact Hrest.
        -- exact H2.
        -- rewrite Happs. exact Hsub'.
        -- rewrite Happs. set_solver.
        -- rewrite R2, R3, Happs. auto.
Qed.

Lemma concat_take_padded {A} (l : list (list A)) n m :
  concat (take n (l ++ replicate m [])) = concat (take n l).
Proof.
  rewrite take_app, concat_app, take_replicate.
  assert (H : forall k, concat (replicate k ([] : list A)) = [])
    by (induction k as [|k IH]; [reflexivity | exact IH]).
  rewrite H, app_nil_r. reflexivity.
Qed.

Lemma slots_of_length timeout w :
  length (slots_of timeout w) = firings timeout.
Proof.
  unfold slots_of. rewrite length_take, length_app, length_replicate. lia.
Qed.

Lemma take_slots_of timeout w n :
  n <= firings timeout ->
  concat (take n (slots_of timeout w)) = concat (take n (polls w)).
Proof.
  intro Hn. unfold slots_of. rewrite take_take.
  replace (n `min` firings timeout) with n by lia.
  apply concat_take_padded.
Qed.

Lemma wait_messages phase w n s :
  1 <= n <= firings phase_timeout ->
  only_messages (concat (take n (polls w))) = true ->
  dom (apps s) ⊆ senders phase (concat (take n (polls w))) ->
  fst (waitForAcknowledgments phase phase_timeout w s) = Ret tt /\
  apps (snd (waitForAcknowledgments phase phase_timeout w s)) = apps s /\
  acked phase (snd (waitForAcknowledgments phase phase_timeout w s))
  = dom (apps s).
Proof.
  intros Hn Hev Hall. unfold waitForAcknowledgments.
  apply (poll_messages phase _ (late_of phase_timeout w)
           (slots_of phase_timeout w) n
           (set_acknowledgments (insert phase (∅ : gset string)) s)).
  - rewrite slots_of_length. exact Hn.
  - rewrite take_slots_of by lia. exact Hev.
  - simpl. rewrite lookup_insert_eq. eauto.
  - rewrite acked_reset, decide_True by reflexivity. set_solver.
  - rewrite take_slots_of by lia. cbn [apps set_acknowledgments].
    set_solver.
Qed.

(** X18: when every registered participant acknowledges ANNOUNCE and APPLY
    before the timeout of each wait, the run ends COMPLETED, for any number
    of participants.  The acknowledgments of a phase may arrive in any
    order, more than once, from other sockets too, with acknowledgments of
    other phases in between, and spread over the firings of the interval:
    it is enough that among what arrives before some firing that precedes
    the timeout (one of the 299 of a wait of 30 seconds) there is an
    acknowledgment of the phase from every registered participant.
    Nobody connects or disconnects meanwhile, and the executor succeeds.
    Both waits resolve, and the set of APPLY holds exactly the registered
    participants at the end. *)
Theorem all_acknowledge_completes migration env s n1 n2 :
  let heard1 := concat (take n1 (polls (announce_wait env))) in
  let heard2 := concat (take n2 (polls (apply_wait env))) in
  1 <= n1 <= firings phase_timeout ->
  1 <= n2 <= firings phase_timeout ->
  only_messages heard1 = true ->
  only_messages (exec_events env) = true ->
  only_messages heard2 = true ->
  dom (apps s) ⊆ senders Phase.ANNOUNCE heard1 ->
  dom (apps s) ⊆ senders Phase.APPLY heard2 ->
  (exists result,
     fst (executor_outcome run_stmt control migration env s) = Ret result /\
     success result = true) ->
  let final := snd (startMigration run_stmt control migration env s) in
  observed_status final = Some MigrationStatus.COMPLETED /\
  fst (announce_outcome migration env s) = Ret tt /\
  fst (apply_outcome run_stmt control migration env s) = Ret tt /\
  apps final = apps s /\
  acked Phase.APPLY final = dom (apps s).
Proof.
  cbv zeta. intros Hn1 Hn2 Hm1 Hex Hm2 Hall1 Hall2 (result & Hres & Hok).
  assert (Hann_apps : apps (announcing migration s) = apps s).
  { rewrite announcing_eq.
    match goal with |- apps (broadcast ?m ?x) = _ =>
      destruct (broadcast_view m x) as (-> & _) end.
    reflexivity. }
  destruct (wait_messages Phase.ANNOUNCE (announce_wait env) n1
              (announcing migration s) Hn1 Hm1)
    as (Ha1 & Ha2 & _); [rewrite Hann_apps; exact Hall1|].
  fold (announce_outcome migration env s) in Ha1, Ha2.
  assert (Hexe_apps : apps (executing migration env s) = apps s).
  { rewrite executing_eq, handle_all_messages_apps by exact Hex.
    rewrite sendPhase_apps, set_status_apps, Ha2. exact Hann_apps. }
  assert (Happ_apps : apps (applying run_stmt control migration env s) = apps s).
  { rewrite applying_eq, sendPhase_apps, set_status_apps, sendPhase_apps.
    unfold executor_outcome. rewrite (executeMigrations_apps run_stmt control).
    exact Hexe_apps. }
  destruct (wait_messages Phase.APPLY (apply_wait env) n2
              (applying run_stmt control migration env s) Hn2 Hm2)
    as (Hp1 & Hp2 & Hp3); [rewrite Happ_apps; exact Hall2|].
  fold (apply_outcome run_stmt control migration env s) in Hp1, Hp2, Hp3.
  rewrite startMigration_eq, Ha1, Hres, Hok, Hp1.
  destruct (complete_facts migration _ _
              (apply_outcome_id run_stmt control migration env s))
    as (_ & Hst & _ & _ & _ & Happs & Hacks & _).
  split; [exact Hst|]. split; [reflexivity|]. split; [reflexivity|].
  split; [rewrite Happs, Hp2; exact Happ_apps|].
  unfold acked in *. rewrite Hacks, Hp3, Happ_apps. reflexivity.
Qed.


(** ** The welcome object comes first *)

Local Abbreviation stays P m := (@maintains DB _ P m) (only parsing).

Lemma maintains_of_preserves {A B} (P : State -> Prop) (view : State -> B)
    (m : M A) :
  (forall s s', view s' = view s -> P s -> P s') ->
  preserves view m -> maintains P m.
Proof. intros HP Hm s Hs. apply (HP s); [apply Hm | exact Hs]. Qed.

Lemma maintains_effect (P : State -> Prop) (f : State -> State) :
  (forall s, P s -> P (f s)) -> maintains P (effect f).
Proof. intros Hf s Hs. apply Hf. exact Hs. Qed.

Lemma maintains_bind {A B} (P : State -> Prop) (m : M A) (k : A -> M B) :
  maintains P m -> (forall a, maintains P (k a)) -> maintains P (bind m k).
Proof.
  intros Hm Hk s Hs. unfold bind. specialize (Hm s Hs).
  destruct (m s) as [[a|e] s']; simpl in *; [apply Hk|]; exact Hm.
Qed.

Lemma maintains_seq {A} (P : State -> Prop) (m : M unit) (k : M A) :
  maintains P m -> maintains P k -> maintains P (seq m k).
Proof. intros Hm Hk. apply maintains_bind; auto. Qed.

Lemma maintains_try_catch {A} (P : State -> Prop) (body : M A)
    (handler : Thrown -> M A) :
  maintains P body -> (forall e, maintains P (handler e)) ->
  maintains P (try_catch body handler).
Proof.
  intros Hb Hh s Hs. unfold try_catch. specialize (Hb s Hs).
  destruct (body s) as [[a|e] s']; simpl in *; [|apply Hh]; exact Hb.
Qed.

(** [welcomed] reads the registry and what was sent, nothing else. *)
Lemma welcomed_same s s' :
  (apps s', sent s') = (apps s, sent s) -> welcomed s -> welcomed s'.
Proof.
  intros H Hs a. injection H as -> ->. apply Hs.
Qed.

Lemma welcomed_handle ev s : welcomed s -> welcomed (handle ev s).
Proof.
  intros Hs. destruct ev as [a|a r|a message|a]; cbn [handle].
  - intro b. unfold handleConnection. rewrite inbox_ws_send.
    cbn [apps sent ws_send console_log set_apps].
    specialize (Hs b). destruct (decide (a = b)) as [->|Hne].
    + destruct (inbox b (sent s)); [reflexivity | exact Hs].
    + rewrite app_nil_r, lookup_insert_ne by exact Hne. exact Hs.
  - destruct (apps s !! a) as [r0|] eqn:Hr; [|exact Hs].
    intro b. specialize (Hs b). cbn [apps sent set_apps].
    destruct (inbox b (sent s)); [|exact Hs].
    rewrite lookup_insert_ne; [exact Hs | congruence].
  - destruct (apps s !! a); [|exact Hs].
    apply (welcomed_same s); [|exact Hs].
    rewrite handleAcknowledgment_apps. f_equal.
    unfold handleAcknowledgment.
    destruct (acknowledgments s !! ack_phase message); case_bool_decide;
      reflexivity.
  - destruct (apps s !! a); [|exact Hs].
    intro b. specialize (Hs b). cbn [apps sent on_close console_log set_apps].
    destruct (inbox b (sent s)); [|exact Hs].
    destruct (decide (a = b)) as [->|Hne].
    + apply lookup_delete_eq.
    + rewrite lookup_delete_ne by exact Hne. exact Hs.
Qed.

Lemma welcomed_handle_all evs : forall s,
  welcomed s -> welcomed (handle_all evs s).
Proof.
  unfold handle_all.
  induction evs as [|ev evs IH]; intros s Hs; [exact Hs|].
  simpl. apply IH, welcomed_handle, Hs.
Qed.

Lemma welcomed_broadcast message s :
  welcomed s -> welcomed (broadcast message s).
Proof.
  intros Hs a. rewrite broadcast_inbox.
  destruct (broadcast_view message s) as (-> & _).
  specialize (Hs a).
  destruct (inbox a (sent s)); [rewrite Hs; reflexivity | exact Hs].
Qed.

Lemma welcomed_sendPhase phase st : stays welcomed (sendPhase phase st).
Proof.
  intros s Hs. unfold sendPhase.
  destruct (currentMigration s); [|exact Hs].
  apply welcomed_broadcast. exact Hs.
Qed.

Lemma welcomed_poll phase deadline slots last : stays welcomed (poll phase deadline slots last).
Proof.
  induction slots as [|evs slots IH]; intros s Hs; simpl.
  - apply welcomed_handle_all, Hs.
  - assert (H : welcomed (elapse poll_period (handle_all evs s)))
      by apply (welcomed_handle_all evs s Hs).
    destruct (quorum phase _); [exact H | apply IH, H].
Qed.

Lemma welcomed_wait phase timeout w :
  stays welcomed (waitForAcknowledgments phase timeout w).
Proof.
  intros s Hs. unfold waitForAcknowledgments. apply welcomed_poll. exact Hs.
Qed.

Lemma welcomed_set_status st : stays welcomed (set_status st).
Proof.
  intros s Hs. unfold set_status. destruct (currentMigration s); exact Hs.
Qed.

Lemma welcomed_rollback reason : stays welcomed (rollback reason).
Proof.
  unfold rollback.
  apply maintains_seq; [apply maintains_effect; auto|].
  apply maintains_seq; [apply maintains_effect; auto|].
  apply welcomed_sendPhase.
Qed.

Lemma welcomed_startMigration migration env :
  stays welcomed (startMigration run_stmt control migration env).
Proof.
  unfold startMigration.
  apply maintains_seq; [apply maintains_effect; auto|].
  apply maintains_try_catch; [|intro e; apply welcomed_rollback].
  apply maintains_seq; [apply maintains_effect; auto|].
  apply maintains_seq; [apply welcomed_sendPhase|].
  apply maintains_seq; [apply welcomed_wait|].
  apply maintains_seq; [apply welcomed_set_status|].
  apply maintains_seq; [apply welcomed_sendPhase|].
  apply maintains_seq;
    [apply maintains_effect; intros s; apply welcomed_handle_all|].
  apply maintains_bind.
  { apply (maintains_of_preserves welcomed beyond_database).
    - intros s s' H. unfold beyond_database in H.
      injection H as H1 _ _ H4 _. apply welcomed_same. congruence.
    - apply executeMigrations_beyond. }
  intro result. destruct (negb (success result)); [apply welcomed_rollback|].
  apply maintains_seq; [apply welcomed_sendPhase|].
  apply maintains_seq; [apply welcomed_set_status|].
  apply maintains_seq; [apply welcomed_sendPhase|].
  apply maintains_seq; [apply welcomed_wait|].
  apply maintains_seq; [apply welcomed_set_status|].
  apply maintains_seq.
  { intros s Hs. unfold set_completedAt.
    destruct (currentMigration s); exact Hs. }
  apply maintains_seq; [apply welcomed_sendPhase|].
  apply maintains_effect. auto.
Qed.

(** X19: the welcome object is the first thing a participant receives.  In
    a coordinator that starts with no socket and nothing sent, and from
    then on through every socket event and every run of [startMigration],
    whatever was written on the socket of an identifier begins with the
    welcome object carrying that identifier, and every registered socket
    has received it: no phase message reaches a participant before it
    knows its identifier. *)
Theorem welcome_comes_first :
  (forall s, apps s = ∅ -> sent s = [] -> welcomed s) /\
  (forall ev s, welcomed s -> welcomed (handle ev s)) /\
  (forall migration env s,
     welcomed s -> welcomed (snd (startMigration run_stmt control migration env s))) /\
  (forall s a,
     welcomed s -> is_Some (apps s !! a) ->
     exists then_, inbox a (sent s) = WELCOME a :: then_).
Proof.
  split; [|split; [|split]].
  - intros s Ha Hs a. rewrite Hs, Ha. apply lookup_empty.
  - apply welcomed_handle.
  - intros migration env s. apply welcomed_startMigration.
  - intros s a Hs (r & Hr). specialize (Hs a).
    destruct (inbox a (sent s)) as [|first then_]; [congruence|].
    exists then_. rewrite Hs. reflexivity.
Qed.

(** ** The report of the demo *)

Lemma startMigration_returns migration env s :
  fst (startMigration run_stmt control migration env s) = Ret tt.
Proof.
  rewrite startMigration_eq.
  pose proof (announce_outcome_id migration env s) as Ha.
  pose proof (executor_outcome_id run_stmt control migration env s) as He.
  pose proof (apply_outcome_id run_stmt control migration env s) as Hp.
  destruct (fst (announce_outcome migration env s)) as [[]|e];
    [|apply (rollback_facts _ _ _ Ha)].
  destruct (fst (executor_outcome run_stmt control migration env s)) as [result|e];
    [|apply (rollback_facts _ _ _ He)].
  destruct (success result); [|apply (rollback_facts _ _ _ He)].
  destruct (fst (apply_outcome run_stmt control migration env s)) as [[]|e];
    [|apply (rollback_facts _ _ _ Hp)].
  apply (complete_facts _ _ _ Hp).
Qed.

(** X20: the demo reports "Migration Complete" after every run, also after
    one that ended FAILED: [startMigration] never rejects, so the [catch]
    of the demo is reached only when the query that verifies the schema
    fails, and "Migration Failed!" then carries the error of that query,
    never the cause of a failed migration. *)
Theorem demo_reports_complete_after_every_run migration env verify s :
  let report := fst (demo_report run_stmt control migration env verify s) in
  head report = Some DemoMigrationComplete /\
  snd (demo_report run_stmt control migration env verify s)
  = snd (startMigration run_stmt control migration env s) /\
  (verify = None -> report = [DemoMigrationComplete; DemoSchema]) /\
  (forall e, DemoMigrationFailed e ∈ report ->
     exists detail, verify = Some detail /\ e = DbError detail).
Proof.
  cbv zeta. unfold demo_report.
  pose proof (startMigration_returns migration env s) as Hret.
  destruct (startMigration run_stmt control migration env s) as [[[]|e] final];
    [|discriminate].
  destruct verify as [detail|]; cbn [fst snd].
  - split; [reflexivity|]. split; [reflexivity|]. split; [discriminate|].
    intros e He. exists detail. split; [reflexivity|].
    apply elem_of_cons in He as [He | He]; [discriminate|].
    apply list_elem_of_singleton in He. congruence.
  - split; [reflexivity|]. split; [reflexivity|]. split; [reflexivity|].
    intros e He. exfalso.
    apply elem_of_cons in He as [He | He]; [discriminate|].
    apply list_elem_of_singleton in He. discriminate.
Qed.


(** ** How a run ends *)

(** What [rollback] leaves behind: the status, two lines on the console,
    the first of which is the reason, and the line of every socket that is
    not open. *)
Lemma rollback_exact reason s i :
  current_id s = Some i ->
  observed_status (snd (rollback reason s)) = Some MigrationStatus.FAILED /\
  console (snd (rollback reason s))
  = console s
    ++ [LogRollingBack reason; LogBroadcasting Phase.ROLLBACK None]
    ++ replicate (length (not_open (apps s))) LogNotOpen /\
  currentMigration (snd (rollback reason s))
  = with_status MigrationStatus.FAILED <$> currentMigration s.
Proof.
  intro H. destruct (rollback_facts reason s i H) as (_ & Hst & _).
  split; [exact Hst|].
  rewrite (rollback_run _ _ _ H). cbn [snd].
  apply current_id_Some in H as (m & Hm & Hi).
  set (s1 := set_currentMigration (fmap (with_status MigrationStatus.FAILED))
               (console_log (LogRollingBack reason) s)).
  assert (Hm1 : currentMigration s1
                = Some (with_status MigrationStatus.FAILED m))
    by (unfold s1; simpl; rewrite Hm; reflexivity).
  rewrite (sendPhase_Some _ _ _ _ Hm1). cbn [snd].
  split.
  - unfold broadcast. rewrite broadcast_fold_console. unfold not_open, s1.
    simpl. rewrite <- !app_assoc. reflexivity.
  - match goal with |- currentMigration (broadcast ?msg ?x) = _ =>
      destruct (broadcast_view msg x) as (_ & -> & _) end.
    simpl. rewrite Hm. reflexivity.
Qed.

(** C8 (as amended): [startMigration] always returns, and returns with the
    migration COMPLETED or FAILED.  When it is FAILED, [rollback] has just
    written the triggering cause on the console, as the first of the lines
    it adds: the error of the timeout with the counts found when the
    timeout fired, when a wait was rejected; the error the executor
    reported, or the one it threw, when the execution failed.  The
    migration object is the one of the moment of the failure with the
    status FAILED: the cause is not attached to it. *)
Theorem startMigration_ends_terminal migration env s :
  let r := startMigration run_stmt control migration env s in
  let fails (reason : Reason) (before : State) :=
    observed_status (snd r) = Some MigrationStatus.FAILED /\
    console (snd r)
    = console before
      ++ [LogRollingBack reason; LogBroadcasting Phase.ROLLBACK None]
      ++ replicate (length (not_open (apps before))) LogNotOpen /\
    currentMigration (snd r)
    = with_status MigrationStatus.FAILED <$> currentMigration before in
  let announced := snd (announce_outcome migration env s) in
  let executed := snd (executor_outcome run_stmt control migration env s) in
  let applied := snd (apply_outcome run_stmt control migration env s) in
  fst r = Ret tt /\
  current_id (snd r) = Some (id migration) /\
  match fst (announce_outcome migration env s) with
  | Throw e =>
      e = Timeout (ack_count Phase.ANNOUNCE announced) (size (apps announced))
            Phase.ANNOUNCE /\
      fails (Caught e) announced
  | Ret _ =>
      match fst (executor_outcome run_stmt control migration env s) with
      | Throw e => fails (Caught e) executed
      | Ret result =>
          if success result
          then
            match fst (apply_outcome run_stmt control migration env s) with
            | Throw e =>
                e = Timeout (ack_count Phase.APPLY applied)
                      (size (apps applied)) Phase.APPLY /\
                fails (Caught e) applied
            | Ret _ =>
                observed_status (snd r) = Some MigrationStatus.COMPLETED
            end
          else fails (ExecutionFailed (error result)) executed
      end
  end.
Proof.
  cbv zeta. rewrite startMigration_eq.
  pose proof (announce_outcome_id migration env s) as Ha.
  pose proof (executor_outcome_id run_stmt control migration env s) as He.
  pose proof (apply_outcome_id run_stmt control migration env s) as Hp.
  destruct (fst (announce_outcome migration env s)) as [[]|e] eqn:Hann.
  - destruct (fst (executor_outcome run_stmt control migration env s))
      as [result|e].
    + destruct (success result).
      * destruct (fst (apply_outcome run_stmt control migration env s))
          as [[]|e] eqn:Happ.
        -- destruct (complete_facts migration _ _ Hp)
             as (H1 & H2 & _ & H3 & _). auto.
        -- destruct (rollback_facts (Caught e) _ _ Hp) as (H1 & _ & H3 & _).
           split; [exact H1|]. split; [exact H3|].
           split; [|apply (rollback_exact _ _ _ Hp)].
           unfold apply_outcome, waitForAcknowledgments in *.
           apply poll_rejects. exact Happ.
      * destruct (rollback_facts (ExecutionFailed (error result)) _ _ He)
          as (H1 & _ & H3 & _).
        split; [exact H1|]. split; [exact H3|].
        apply (rollback_exact _ _ _ He).
    + destruct (rollback_facts (Caught e) _ _ He) as (H1 & _ & H3 & _).
      split; [exact H1|]. split; [exact H3|].
      apply (rollback_exact _ _ _ He).
  - destruct (rollback_facts (Caught e) _ _ Ha) as (H1 & _ & H3 & _).
    split; [exact H1|]. split; [exact H3|].
    split; [|apply (rollback_exact _ _ _ Ha)].
    unfold announce_outcome, waitForAcknowledgments in *.
    apply poll_rejects. exact Hann.
Qed.

End Sockets.

(** ** The properties above at concrete runs *)

(** Once the three participants have acknowledged ANNOUNCE the quorum
    holds; when one of them closes its socket it does not hold any more. *)
Lemma close_after_quorum_on_demo :
  quorum Phase.ANNOUNCE (handle_all (all_ack Phase.ANNOUNCE) three_apps)
  = true /\
  quorum Phase.ANNOUNCE
    (handle (EvClose "app-2") (handle_all (all_ack Phase.ANNOUNCE) three_apps))
  = false.
Proof.
  split; [vm_compute; reflexivity|].
  apply (close_after_quorum_breaks_it Phase.ANNOUNCE "app-2"
           (handle_all (all_ack Phase.ANNOUNCE) three_apps)).
  - vm_compute. reflexivity.
  - exists ReadyState.OPEN. vm_compute. reflexivity.
Defined.

(** The happy run commits both statements of the demo. *)
Lemma run_commits_on_demo :
  ordinary demo_control (sql demo_migration) /\
  tx (pool three_apps) = Idle /\
  run_all demo_stmt (sql demo_migration) (committed (pool three_apps))
  = inl (committed
           (pool (snd (startMigration demo_stmt demo_control demo_migration happy_run
                         three_apps)))).
Proof.
  assert (O : ordinary demo_control (sql demo_migration))
    by (repeat constructor).
  split; [exact O|]. split; [reflexivity|].
  destruct (run_commits_all_or_nothing demo_stmt demo_control demo_migration
              happy_run three_apps O eq_refl) as (_ & T & _).
  apply T. vm_compute. reflexivity.
Defined.

(** When the third participant does not acknowledge APPLY the migration is
    FAILED and both columns are there. *)
Lemma apply_timeout_on_demo :
  observed_status
    (snd (startMigration demo_stmt demo_control demo_migration apply_timeout_run three_apps))
  = Some MigrationStatus.FAILED /\
  run_all demo_stmt (sql demo_migration) (committed (pool three_apps))
  = inl (committed
           (pool (snd (startMigration demo_stmt demo_control demo_migration
                         apply_timeout_run three_apps)))).
Proof.
  destruct (apply_timeout_keeps_the_change demo_stmt demo_control demo_migration
              apply_timeout_run three_apps) as (A & _ & B & _).
  - reflexivity.
  - vm_compute. reflexivity.
  - exists {| success := true; error := None |}.
    split; vm_compute; reflexivity.
  - vm_compute. reflexivity.
  - split; [exact A | apply B; repeat constructor].
Defined.

(** A migration whose second statement is refused leaves the database as
    it was. *)
Lemma execution_failure_on_demo :
  ordinary demo_control (sql failing_migration) /\
  execution_failed
    (fst (executor_outcome demo_stmt demo_control failing_migration happy_run three_apps)) /\
  committed
    (pool (snd (startMigration demo_stmt demo_control failing_migration happy_run
                  three_apps)))
  = committed (pool three_apps).
Proof.
  assert (H : execution_failed
                (fst (executor_outcome demo_stmt demo_control failing_migration happy_run
                        three_apps))).
  { intros result Hr.
    assert (E : fst (executor_outcome demo_stmt demo_control failing_migration happy_run
                       three_apps)
                = Ret {| success := false;
                         error := Some (DbError "already exists") |})
      by (vm_compute; reflexivity).
    rewrite E in Hr. injection Hr as <-. reflexivity. }
  assert (O : ordinary demo_control (sql failing_migration))
    by (repeat constructor).
  split; [exact O|]. split; [exact H|].
  destruct (execution_failure_changes_nothing demo_stmt demo_control failing_migration
              happy_run three_apps) as (_ & A & _).
  - exact O.
  - reflexivity.
  - vm_compute. reflexivity.
  - exact H.
  - exact A.
Defined.

(** The executor on an empty list, on the database of the demo. *)
Lemma empty_list_on_demo :
  fst (executeMigrations demo_stmt demo_control no_faults [] three_apps)
  = Ret {| success := true; error := None |} /\
  history (pool (snd (executeMigrations demo_stmt demo_control no_faults [] three_apps)))
  = [Sql.BEGIN; Sql.COMMIT].
Proof.
  destruct (empty_list_succeeds demo_stmt demo_control three_apps eq_refl)
    as (A & _ & B & _).
  split; [exact A | exact B].
Defined.

(** The statements of the demo followed by those of the broken migration:
    in one call nothing is kept, in two calls the columns of the demo
    are. *)
Lemma atomicity_on_demo :
  committed
    (pool (snd (executeMigrations demo_stmt demo_control no_faults
                  (sql demo_migration ++ sql failing_migration)%list
                  (new_coordinator []))))
  = [] /\
  committed
    (pool (snd (executeMigrations demo_stmt demo_control no_faults (sql failing_migration)
                  (snd (executeMigrations demo_stmt demo_control no_faults
                          (sql demo_migration) (new_coordinator []))))))
  = sql demo_migration.
Proof.
  assert (O1 : ordinary demo_control (sql demo_migration))
    by (repeat constructor).
  assert (O2 : ordinary demo_control (sql failing_migration))
    by (repeat constructor).
  pose proof (atomicity_is_per_call demo_stmt demo_control (sql demo_migration)
                (sql failing_migration) (new_coordinator []) O1 O2 eq_refl)
    as H.
  cbv zeta in H.
  change (run_all demo_stmt (sql demo_migration)
            (committed (pool (new_coordinator []))))
    with (inl (sql demo_migration) : list string + string) in H.
  cbv iota beta in H. destruct H as (_ & H).
  change (run_all demo_stmt (sql failing_migration) (sql demo_migration))
    with (inr "already exists" : list string + string) in H.
  cbv iota beta in H. destruct H as (_ & _ & A & B).
  split; [exact A | exact B].
Defined.

(** The pool refuses the connection: the run of the demo fails and the
    error of the pool is the reason of the rollback. *)
Lemma refused_connection_on_demo :
  observed_status
    (snd (startMigration demo_stmt demo_control demo_migration connect_refused_run
            three_apps))
  = Some MigrationStatus.FAILED /\
  LogRollingBack (Caught (DbError "connection refused"))
  ∈ console (snd (startMigration demo_stmt demo_control demo_migration connect_refused_run
                    three_apps)).
Proof.
  destruct (refused_connection_fails_the_run demo_stmt demo_control demo_migration
              connect_refused_run "connection refused" three_apps)
    as (_ & A & B & _).
  - vm_compute. reflexivity.
  - reflexivity.
  - split; [exact A | exact B].
Defined.

(** With a timeout of 100 ms the wait rejects although the three
    participants answer at once: the timeout fires before the first firing
    of the interval, and finds three acknowledgments for three sockets. *)
Lemma short_timeout_on_demo :
  fst (waitForAcknowledgments Phase.ANNOUNCE 100 (announce_wait happy_run)
         three_apps)
  = Throw (Timeout 3 3 Phase.ANNOUNCE).
Proof.
  assert (H : (100 <= poll_period)%Z) by (unfold poll_period; lia).
  pose proof (short_timeout_always_rejects Phase.ANNOUNCE 100
                (announce_wait happy_run) three_apps H) as T.
  cbv zeta in T. rewrite T. vm_compute. reflexivity.
Defined.

(** A client is welcomed, acknowledges an announcement, queries once, and
    its socket closes: the interval that fires afterwards sends no
    query. *)
Lemma one_welcome_on_demo :
  AppClient.queries
    (AppClient.run
       [AppClient.Open; AppClient.Message (WELCOME "app-1");
        AppClient.Message (PhaseMsg first_apply_message);
        AppClient.QueryInterval 0 (inl 3); AppClient.Close;
        AppClient.QueryInterval 0 (inl 3)]
       AppClient.create)
  = [AppClient.new_query].
Proof.
  destruct (one_welcome_leaves_no_interval
              [AppClient.Open] "app-1"
              [AppClient.Message (PhaseMsg first_apply_message);
               AppClient.QueryInterval 0 (inl 3)]
              AppClient.Close
              [AppClient.QueryInterval 0 (inl 3)])
    as (_ & _ & A & _).
  - intros ev Hin. simpl in Hin.
    destruct Hin as [<- | [<- | [<- | [<- | []]]]]; reflexivity.
  - left. reflexivity.
  - rewrite <- run_app in A. cbn [app] in A.
    rewrite A. vm_compute. reflexivity.
Defined.

(** The first participant of the demo receives the five broadcasts of the
    happy run. *)
Lemma steady_participant_on_demo :
  apps three_apps !! "app-1" = Some ReadyState.OPEN /\
  steady_run "app-1" happy_run = true /\
  exists msgs,
    inbox "app-1"
      (sent (snd (startMigration demo_stmt demo_control demo_migration happy_run
                    three_apps)))
    = (inbox "app-1" (sent three_apps) ++ (PhaseMsg <$> msgs))%list /\
    Forall (fun m => msg_migrationId m = "m1") msgs.
Proof.
  assert (H1 : apps three_apps !! "app-1" = Some ReadyState.OPEN)
    by (vm_compute; reflexivity).
  assert (H2 : steady_run "app-1" happy_run = true)
    by (vm_compute; reflexivity).
  split; [exact H1|]. split; [exact H2|].
  destruct (steady_participant_receives_every_broadcast demo_stmt demo_control "app-1"
              demo_migration happy_run three_apps H1 H2)
    as (msgs & A & _ & B & _).
  exists msgs. split; [exact A | exact B].
Defined.

(** After the happy run the first client of the demo uses the new schema;
    after the run in which the third participant does not acknowledge
    APPLY it uses the old one. *)
Lemma participant_flag_on_demo :
  AppClient.useNewSchema
    (AppClient.receive
       (drop (length (inbox "app-1" (sent three_apps)))
          (inbox "app-1"
             (sent (snd (startMigration demo_stmt demo_control demo_migration
                           apply_timeout_run three_apps)))))
       AppClient.create)
  = false.
Proof.
  rewrite (participant_flag_agrees_with_outcome demo_stmt demo_control "app-1"
             demo_migration apply_timeout_run three_apps AppClient.create)
    by (vm_compute; reflexivity).
  vm_compute. reflexivity.
Defined.

(** The three participants of the demo acknowledge both phases: the happy
    run ends COMPLETED. *)
Lemma all_acknowledge_on_demo :
  dom (apps three_apps)
  ⊆ senders Phase.APPLY (concat (take 2 (polls (apply_wait happy_run)))) /\
  observed_status
    (snd (startMigration demo_stmt demo_control demo_migration happy_run
            three_apps))
  = Some MigrationStatus.COMPLETED.
Proof.
  assert (H1 : dom (apps three_apps)
               ⊆ senders Phase.ANNOUNCE
                   (concat (take 1 (polls (announce_wait happy_run))))).
  { assert (E : senders Phase.ANNOUNCE
                  (concat (take 1 (polls (announce_wait happy_run))))
                = dom (apps three_apps)) by (vm_compute; reflexivity).
    rewrite E. reflexivity. }
  assert (H2 : dom (apps three_apps)
               ⊆ senders Phase.APPLY
                   (concat (take 2 (polls (apply_wait happy_run))))).
  { assert (E : senders Phase.APPLY
                  (concat (take 2 (polls (apply_wait happy_run))))
                = dom (apps three_apps)) by (vm_compute; reflexivity).
    rewrite E. reflexivity. }
  split; [exact H2|].
  destruct (all_acknowledge_completes demo_stmt demo_control demo_migration
              happy_run three_apps 1 2)
    as (A & _).
  - vm_compute. lia.
  - vm_compute. lia.
  - reflexivity.
  - reflexivity.
  - reflexivity.
  - exact H1.
  - exact H2.
  - exists {| success := true; error := None |}.
    split; vm_compute; reflexivity.
  - exact A.
Defined.
